(** * The Tendermint state machine ([state/state.go]) in Rocq

    A shallow embedding of [State], [ExecTx] and [AppendBlock] together with
    the properties of the written specification that concern them, further
    properties of the same code, and a model of [Alert] ([alert/alert.go]).

    Conventions.
    - Go's [uint64] and [uint] are modelled as [Z] with the wrap-around
      modulo [2^64] written out ([add64], [sub64], [mul64]).
    - [[]byte] is [list byte].
    - The two Merkle trees of the state ([accounts], [validatorInfos]) are
      finite maps from the address bytes to the stored record.
    - A Go method on [*State] that may write to the state is a function
      [State -> State * outcome A]: the state reached is returned also when
      the call ends in an error or in a panic, so that "the state is not
      altered on error" is a theorem and not a convention. *)

From Stdlib Require Import ZArith Bool DecimalString.
From Stdlib.Strings Require Import Byte.
From stdpp Require Import gmap strings list fin_maps.

Open Scope Z_scope.

(** ** Bytes and machine integers *)

Abbreviation bytes := (list byte).

#[global] Instance byte_eq_dec : EqDecision byte := Byte.byte_eq_dec.

#[global] Instance byte_countable : Countable byte :=
  inj_countable Byte.to_N Byte.of_N Byte.of_to_N.

(** [bytes.Equal]. *)
Definition bytes_eqb (a b : bytes) : bool := bool_decide (a = b).

(** [bytes.Compare a b < 0]: lexicographic order on the byte values. *)
Fixpoint bytes_ltb (a b : bytes) : bool :=
  match a, b with
  | [], [] => false
  | [], _ :: _ => true
  | _ :: _, [] => false
  | x :: a', y :: b' =>
      if (Byte.to_N x <? Byte.to_N y)%N then true
      else if (Byte.to_N y <? Byte.to_N x)%N then false
      else bytes_ltb a' b'
  end.

Definition wrap64 (x : Z) : Z := x mod 2 ^ 64.
Definition add64 (a b : Z) : Z := wrap64 (a + b).
Definition sub64 (a b : Z) : Z := wrap64 (a - b).
Definition mul64 (a b : Z) : Z := wrap64 (a * b).

(** Go's [int64] (the validator accumulator): two's complement wrap-around. *)
Definition wrapInt64 (x : Z) : Z := (x + 2 ^ 63) mod 2 ^ 64 - 2 ^ 63.

(** ** Formatted messages

    [%v] of an integer is its decimal numeral; [%X] of a byte slice is two
    upper-case hexadecimal digits for each byte. *)

Definition formatInt (n : Z) : string := NilZero.string_of_int (Z.to_int n).

Definition hexDigit (n : N) : string :=
  String.substring (N.to_nat n) 1 "0123456789ABCDEF".

Fixpoint formatHex (b : bytes) : string :=
  match b with
  | [] => EmptyString
  | x :: b' =>
      hexDigit (Byte.to_N x / 16) +:+ hexDigit (Byte.to_N x mod 16) +:+ formatHex b'
  end.

(** ** Constants of [state.go] *)

Definition minBondAmount : Z := 1.
Definition defaultAccountsCacheCapacity : Z := 1000.
Definition unbondingPeriodBlocks : Z := 60 * 24 * 365.
Definition validatorTimeoutBlocks : Z := 10.

(** ** Data model

    The packages [account] and [block] and the files of package [state]
    that declare [Validator], [ValidatorInfo] and [ValidatorSet] are not part
    of the sources at hand; their types are taken from the data model of the
    specification. *)

(** Modelled from the spec: [account.PubKey], "a tagged variant with at
    least two cases: Nil and Ed25519(bytes)". *)
Inductive PubKey : Type :=
  | PubKeyNil
  | PubKeyEd25519 (key : bytes).

#[global] Instance PubKey_eq_dec : EqDecision PubKey.
Proof. solve_decision. Defined.

Definition isPubKeyNil (pk : PubKey) : bool :=
  match pk with PubKeyNil => true | PubKeyEd25519 _ => false end.

(** Modelled from the spec: [account.Account],
    [{address, pub_key, sequence: u64, balance: u64}]. *)
Record Account : Type := mkAccount {
  Account_Address : bytes;
  Account_PubKey : PubKey;
  Account_Sequence : Z;
  Account_Balance : Z
}.

(** Modelled from the spec: [block.TxInput],
    [{address, amount, sequence, signature, pub_key}]. *)
Record TxInput : Type := mkTxInput {
  TxInput_Address : bytes;
  TxInput_Amount : Z;
  TxInput_Sequence : Z;
  TxInput_Signature : bytes;
  TxInput_PubKey : PubKey
}.

(** Modelled from the spec: [block.TxOutput], [{address, amount}]. *)
Record TxOutput : Type := mkTxOutput {
  TxOutput_Address : bytes;
  TxOutput_Amount : Z
}.

(** Modelled from the spec: the vote types [{Prevote, Precommit, Commit}]. *)
Inductive VoteType : Type := VoteTypePrevote | VoteTypePrecommit | VoteTypeCommit.

#[global] Instance VoteType_eq_dec : EqDecision VoteType.
Proof. solve_decision. Defined.

(** Modelled from the spec: [block.PartSetHeader]; the state only stores it
    and compares it. *)
Record PartSetHeader : Type := mkPartSetHeader {
  PartSetHeader_Total : Z;
  PartSetHeader_Hash : bytes
}.

#[global] Instance PartSetHeader_eq_dec : EqDecision PartSetHeader.
Proof. solve_decision. Defined.

(** Modelled from the spec: [block.Vote],
    [{height, round, type, block_hash, block_parts, signature}]. *)
Record Vote : Type := mkVote {
  Vote_Height : Z;
  Vote_Round : Z;
  Vote_Type : VoteType;
  Vote_BlockHash : bytes;
  Vote_BlockParts : PartSetHeader;
  Vote_Signature : bytes
}.

(** Modelled from the spec: [block.Tx], the five transaction kinds. *)
Inductive Tx : Type :=
  | SendTx (Inputs : list TxInput) (Outputs : list TxOutput)
  | BondTx (Inputs : list TxInput) (UnbondTo : list TxOutput) (PubKey_ : PubKey)
  | UnbondTx (Address : bytes) (Height : Z) (Signature : bytes)
  | RebondTx (Address : bytes) (Height : Z) (Signature : bytes)
  | DupeoutTx (Address : bytes) (VoteA VoteB : Vote).

(** Modelled from the spec: [block.Commit], [{round, signature}]. *)
Record Commit : Type := mkCommit {
  Commit_Round : Z;
  Commit_Signature : bytes
}.

(** Modelled from the spec: "IsZero() if signature empty". *)
Definition Commit_IsZero (c : Commit) : bool :=
  match Commit_Signature c with [] => true | _ :: _ => false end.

(** Modelled from the spec: [block.Block],
    [{height, time, last_block_hash, last_block_parts, state_hash,
      validation: {commits}, data: {txs}}].  [StateHash] is [None] for Go's
    [nil] slice, which [AppendBlock] tells apart from an empty one. *)
Record Block : Type := mkBlock {
  Block_Height : Z;
  Block_Time : Z;
  Block_LastBlockHash : bytes;
  Block_LastBlockParts : PartSetHeader;
  Block_StateHash : option bytes;
  Block_Commits : list Commit;
  Block_Txs : list Tx
}.

(** The errors of [block] and the ad-hoc [errors.New] values of [state.go]. *)
Inductive error : Type :=
  | ErrTxDuplicateAddress
  | ErrTxInvalidAddress
  | ErrTxInvalidPubKey
  | ErrTxUnknownPubKey
  | ErrTxInvalidSignature
  | ErrTxInvalidSequence
  | ErrTxInsufficientFunds
  | ErrNew (msg : string)
  | InvalidTxError (tx : Tx) (reason : error).

(** Modelled from the spec: [Validator],
    [{address, pub_key, bond_height, unbond_height, last_commit_height,
      voting_power: u64, accum: i64}]. *)
Record Validator : Type := mkValidator {
  Validator_Address : bytes;
  Validator_PubKey : PubKey;
  Validator_BondHeight : Z;
  Validator_UnbondHeight : Z;
  Validator_LastCommitHeight : Z;
  Validator_VotingPower : Z;
  Validator_Accum : Z
}.

(** Modelled from the spec: [ValidatorInfo], the permanent record
    [{address, pub_key, unbond_to, first_bond_height, first_bond_amount,
      released_height, destroyed_height, destroyed_amount}]. *)
Record ValidatorInfo : Type := mkValidatorInfo {
  ValidatorInfo_Address : bytes;
  ValidatorInfo_PubKey : PubKey;
  ValidatorInfo_UnbondTo : list TxOutput;
  ValidatorInfo_FirstBondHeight : Z;
  ValidatorInfo_FirstBondAmount : Z;
  ValidatorInfo_ReleasedHeight : Z;
  ValidatorInfo_DestroyedHeight : Z;
  ValidatorInfo_DestroyedAmount : Z
}.

(** ** Results of a call

    A Go call of this package ends in one of three ways: it returns
    normally, it returns an [error], or it panics. *)

Inductive outcome (A : Type) : Type :=
  | Ok (a : A)
  | Err (e : error)
  | Panic (msg : string).

Arguments Ok {A} a.
Arguments Err {A} e.
Arguments Panic {A} msg.

#[global] Instance outcome_ret : MRet outcome := @Ok.

#[global] Instance outcome_bind : MBind outcome := fun A B f r =>
  match r with
  | Ok a => f a
  | Err e => Err e
  | Panic m => Panic m
  end.

Definition isOk {A} (r : outcome A) : bool :=
  match r with Ok _ => true | _ => false end.

Definition isPanic {A} (r : outcome A) : bool :=
  match r with Panic _ => true | _ => false end.

(** [x, ok := m[k]; if x == nil { panic(msg) }] *)
Definition orPanic {A} (o : option A) (msg : string) : outcome A :=
  match o with Some a => Ok a | None => Panic msg end.

(** [if err := f(); err != nil { return err }] *)
Definition check (o : option error) : outcome unit :=
  match o with Some e => Err e | None => Ok tt end.

(** ** ValidatorSet *)

(** Modelled from the spec: [ValidatorSet], "stores validators sorted by
    address"; the list is kept in ascending address order and the position
    in it is the index used for commit alignment. *)
Abbreviation ValidatorSet := (list Validator).

(** Modelled from the spec: [get_by_address(addr)]; every caller in
    [state.go] drops the index, so only the validator is returned
    ([None] is Go's [nil]). *)
Fixpoint GetByAddress (addr : bytes) (vs : ValidatorSet) : option Validator :=
  match vs with
  | [] => None
  | v :: vs' =>
      if bytes_eqb (Validator_Address v) addr then Some v
      else GetByAddress addr vs'
  end.

(** Modelled from the spec: [get_by_index(i)]. *)
Definition GetByIndex (i : nat) (vs : ValidatorSet) : option Validator := vs !! i.

(** Modelled from the spec: [size()]. *)
Definition Size (vs : ValidatorSet) : Z := Z.of_nat (length vs).

(** Modelled from the spec: [total_voting_power() -> u64], the sum of the
    voting powers in 64-bit arithmetic. *)
Definition TotalVotingPower (vs : ValidatorSet) : Z :=
  foldl (fun t v => add64 t (Validator_VotingPower v)) 0 vs.

Fixpoint insertByAddress (v : Validator) (vs : ValidatorSet) : ValidatorSet :=
  match vs with
  | [] => [v]
  | w :: ws =>
      if bytes_ltb (Validator_Address v) (Validator_Address w) then v :: w :: ws
      else w :: insertByAddress v ws
  end.

(** Modelled from the spec: [add(v) -> bool], "false if address already
    present". *)
Definition ValidatorSet_Add (v : Validator) (vs : ValidatorSet) : ValidatorSet * bool :=
  match GetByAddress (Validator_Address v) vs with
  | Some _ => (vs, false)
  | None => (insertByAddress v vs, true)
  end.

Definition removeByAddress (addr : bytes) (vs : ValidatorSet) : ValidatorSet :=
  filter (fun v => Validator_Address v <> addr) vs.

(** Modelled from the spec: [remove(addr) -> (v?, bool)], "false if
    absent"; [Some v] stands for [(v, true)], [None] for [(nil, false)]. *)
Definition ValidatorSet_Remove (addr : bytes) (vs : ValidatorSet)
  : ValidatorSet * option Validator :=
  match GetByAddress addr vs with
  | Some v => (removeByAddress addr vs, Some v)
  | None => (vs, None)
  end.

Definition replaceByAddress (v : Validator) (vs : ValidatorSet) : ValidatorSet :=
  map (fun w => if bytes_eqb (Validator_Address w) (Validator_Address v) then v else w) vs.

(** Modelled from the spec: [update(v) -> bool], "false if absent; replaces
    in place". *)
Definition ValidatorSet_Update (v : Validator) (vs : ValidatorSet) : ValidatorSet * bool :=
  match GetByAddress (Validator_Address v) vs with
  | Some _ => (replaceByAddress v vs, true)
  | None => (vs, false)
  end.

Definition setAccum (a : Z) (v : Validator) : Validator :=
  mkValidator (Validator_Address v) (Validator_PubKey v) (Validator_BondHeight v)
    (Validator_UnbondHeight v) (Validator_LastCommitHeight v)
    (Validator_VotingPower v) a.

Definition setLastCommitHeight (h : Z) (v : Validator) : Validator :=
  mkValidator (Validator_Address v) (Validator_PubKey v) (Validator_BondHeight v)
    (Validator_UnbondHeight v) h (Validator_VotingPower v) (Validator_Accum v).

Definition setUnbondHeight (h : Z) (v : Validator) : Validator :=
  mkValidator (Validator_Address v) (Validator_PubKey v) (Validator_BondHeight v)
    h (Validator_LastCommitHeight v) (Validator_VotingPower v) (Validator_Accum v).

Definition setBondHeight (h : Z) (v : Validator) : Validator :=
  mkValidator (Validator_Address v) (Validator_PubKey v) h
    (Validator_UnbondHeight v) (Validator_LastCommitHeight v)
    (Validator_VotingPower v) (Validator_Accum v).

(** Index of the first validator (in address order) with the largest
    accumulator. *)
Fixpoint maxAccumIndex (vs : ValidatorSet) (i : nat) (best : option (nat * Z))
  : option (nat * Z) :=
  match vs with
  | [] => best
  | v :: vs' =>
      let best' :=
        match best with
        | None => Some (i, Validator_Accum v)
        | Some (_, a) =>
            if a <? Validator_Accum v then Some (i, Validator_Accum v) else best
        end in
      maxAccumIndex vs' (S i) best'
  end.

(** Modelled from the spec: one tick of [increment_accum], "for every
    validator add voting_power to accum; the validator with maximum accum
    has total_voting_power subtracted from its accum.  Ties broken by address
    ascending." *)
Definition accumTick (vs : ValidatorSet) : ValidatorSet :=
  let vs1 :=
    map (fun v => setAccum (wrapInt64 (Validator_Accum v + Validator_VotingPower v)) v) vs in
  match maxAccumIndex vs1 0%nat None with
  | None => vs1
  | Some (i, _) =>
      alter (fun v => setAccum (wrapInt64 (Validator_Accum v - TotalVotingPower vs)) v) i vs1
  end.

(** Modelled from the spec: [increment_accum(times)]. *)
Definition IncrementAccum (times : nat) (vs : ValidatorSet) : ValidatorSet :=
  Nat.iter times accumTick vs.

(** ** External primitives

    Signature verification, hashing, the canonical sign-bytes and the
    shape checks of package [block] are collaborators of the state machine;
    the development is parametric in them. *)
Record Primitives : Type := mkPrimitives {
  (** [PubKey.Address()] *)
  PubKey_Address : PubKey -> bytes;
  (** [PubKeyEd25519.VerifyBytes(msg, sig)] *)
  Ed25519_Verify : bytes -> bytes -> bytes -> bool;
  (** [PubKey.ValidateBasic()] *)
  PubKey_ValidateBasic : PubKey -> option error;
  (** [account.SignBytes(tx)] and [account.SignBytes(vote)] *)
  Tx_SignBytes : Tx -> bytes;
  Vote_SignBytes : Vote -> bytes;
  (** [TxInput.ValidateBasic()], [TxOutput.ValidateBasic()] *)
  TxInput_ValidateBasic : TxInput -> option error;
  TxOutput_ValidateBasic : TxOutput -> option error;
  (** the "internal block well-formedness" part of [Block.ValidateBasic] *)
  Block_WellFormed : Block -> option error;
  (** [Block.Hash()] *)
  Block_Hash : Block -> bytes;
  (** [ValidatorSet.Hash()], [merkle.Tree.Hash()], [merkle.HashFromHashables] *)
  ValidatorSet_Hash : ValidatorSet -> bytes;
  Accounts_Hash : gmap bytes Account -> bytes;
  ValidatorInfos_Hash : gmap bytes ValidatorInfo -> bytes;
  HashFromHashables : list bytes -> bytes
}.

(** Modelled from the spec: [PubKey.VerifyBytes], "Nil.verify always returns
    false". *)
Definition VerifyBytes (P : Primitives) (pk : PubKey) (msg sig : bytes) : bool :=
  match pk with
  | PubKeyNil => false
  | PubKeyEd25519 key => Ed25519_Verify P key msg sig
  end.

(** ** The state *)

Record State : Type := mkState {
  DB : gmap bytes bytes;
  LastBlockHeight : Z;
  LastBlockHash : bytes;
  LastBlockParts : PartSetHeader;
  LastBlockTime : Z;
  BondedValidators : ValidatorSet;
  UnbondingValidators : ValidatorSet;
  accounts : gmap bytes Account;
  validatorInfos : gmap bytes ValidatorInfo
}.

Definition setBondedValidators (vs : ValidatorSet) (s : State) : State :=
  mkState (DB s) (LastBlockHeight s) (LastBlockHash s) (LastBlockParts s)
    (LastBlockTime s) vs (UnbondingValidators s) (accounts s) (validatorInfos s).

Definition setUnbondingValidators (vs : ValidatorSet) (s : State) : State :=
  mkState (DB s) (LastBlockHeight s) (LastBlockHash s) (LastBlockParts s)
    (LastBlockTime s) (BondedValidators s) vs (accounts s) (validatorInfos s).

Definition setAccounts (t : gmap bytes Account) (s : State) : State :=
  mkState (DB s) (LastBlockHeight s) (LastBlockHash s) (LastBlockParts s)
    (LastBlockTime s) (BondedValidators s) (UnbondingValidators s) t (validatorInfos s).

Definition setValidatorInfos (t : gmap bytes ValidatorInfo) (s : State) : State :=
  mkState (DB s) (LastBlockHeight s) (LastBlockHash s) (LastBlockParts s)
    (LastBlockTime s) (BondedValidators s) (UnbondingValidators s) (accounts s) t.

Definition setLastBlock (h : Z) (hash : bytes) (parts : PartSetHeader) (time : Z)
  (s : State) : State :=
  mkState (DB s) h hash parts time (BondedValidators s) (UnbondingValidators s)
    (accounts s) (validatorInfos s).

(** A method that may write to the state. *)
Definition M (A : Type) : Type := State -> State * outcome A.

#[global] Instance M_ret : MRet M := fun A a s => (s, Ok a).

#[global] Instance M_bind : MBind M := fun A B f m s =>
  match m s with
  | (s', Ok a) => f a s'
  | (s', Err e) => (s', Err e)
  | (s', Panic msg) => (s', Panic msg)
  end.

(** A computation that only reads. *)
Definition pure {A} (r : outcome A) : M A := fun s => (s, r).

(** A write. *)
Definition modify (f : State -> State) : M unit := fun s => (f s, Ok tt).

Definition getState : M State := fun s => (s, Ok s).

Definition setPubKey (pk : PubKey) (acc : Account) : Account :=
  mkAccount (Account_Address acc) pk (Account_Sequence acc) (Account_Balance acc).

Definition setBalance (b : Z) (acc : Account) : Account :=
  mkAccount (Account_Address acc) (Account_PubKey acc) (Account_Sequence acc) b.

Definition setSequence (n : Z) (acc : Account) : Account :=
  mkAccount (Account_Address acc) (Account_PubKey acc) n (Account_Balance acc).

Definition clearInputPubKey (i : TxInput) : TxInput :=
  mkTxInput (TxInput_Address i) (TxInput_Amount i) (TxInput_Sequence i)
    (TxInput_Signature i) PubKeyNil.

Definition setReleasedHeight (h : Z) (vi : ValidatorInfo) : ValidatorInfo :=
  mkValidatorInfo (ValidatorInfo_Address vi) (ValidatorInfo_PubKey vi)
    (ValidatorInfo_UnbondTo vi) (ValidatorInfo_FirstBondHeight vi)
    (ValidatorInfo_FirstBondAmount vi) h (ValidatorInfo_DestroyedHeight vi)
    (ValidatorInfo_DestroyedAmount vi).

Definition setDestroyed (h amount : Z) (vi : ValidatorInfo) : ValidatorInfo :=
  mkValidatorInfo (ValidatorInfo_Address vi) (ValidatorInfo_PubKey vi)
    (ValidatorInfo_UnbondTo vi) (ValidatorInfo_FirstBondHeight vi)
    (ValidatorInfo_FirstBondAmount vi) (ValidatorInfo_ReleasedHeight vi) h amount.

(** ** Accessors of the two trees ([state.go], lines 603-648)

    [GetAccount] and [GetValidatorInfo] return copies; in a functional model
    every value is a copy. *)

Definition GetAccount (s : State) (address : bytes) : option Account :=
  accounts s !! address.

Definition UpdateAccount (account : Account) : M unit :=
  modify (fun s => setAccounts (<[Account_Address account := account]> (accounts s)) s).

(** [for _, acc := range accounts { s.accounts.Set(acc.Address, acc.Copy()) }] *)
Definition UpdateAccounts (accs : gmap bytes Account) : M unit :=
  modify (fun s =>
    setAccounts
      (map_fold (fun _ acc t => <[Account_Address acc := acc]> t) (accounts s) accs) s).

Definition GetValidatorInfo (s : State) (address : bytes) : option ValidatorInfo :=
  validatorInfos s !! address.

(** Returns [true] when an entry was replaced. *)
Definition SetValidatorInfo (valInfo : ValidatorInfo) : M bool := fun s =>
  (setValidatorInfos (<[ValidatorInfo_Address valInfo := valInfo]> (validatorInfos s)) s,
   Ok (bool_decide (is_Some (validatorInfos s !! ValidatorInfo_Address valInfo)))).

Section StateMachine.

Context (P : Primitives).

(** [State.Hash] *)
Definition Hash (s : State) : bytes :=
  HashFromHashables P
    [ ValidatorSet_Hash P (BondedValidators s);
      ValidatorSet_Hash P (UnbondingValidators s);
      Accounts_Hash P (accounts s);
      ValidatorInfos_Hash P (validatorInfos s) ].

(** ** Account management ([state.go], lines 111-222) *)

(** The loop of [GetOrMakeAccounts] over the inputs.  The inputs are
    pointers: the loop clears [in.PubKey] of an input whose account already
    has a key, and the inputs as they are left behind are returned next to
    the result, also when the loop stops with an error. *)
Fixpoint getOrMakeInputs (s : State) (ins : list TxInput) (accs : gmap bytes Account)
  : list TxInput * outcome (gmap bytes Account) :=
  match ins with
  | [] => ([], Ok accs)
  | i :: rest =>
      match accs !! TxInput_Address i with
      | Some _ => (i :: rest, Err ErrTxDuplicateAddress)
      | None =>
          match GetAccount s (TxInput_Address i) with
          | None => (i :: rest, Err ErrTxInvalidAddress)
          | Some acc =>
              if isPubKeyNil (Account_PubKey acc) then
                if isPubKeyNil (TxInput_PubKey i) then (i :: rest, Err ErrTxUnknownPubKey)
                else if negb (bytes_eqb (PubKey_Address P (TxInput_PubKey i))
                                        (Account_Address acc))
                then (i :: rest, Err ErrTxInvalidPubKey)
                else
                  let '(rest', r) :=
                    getOrMakeInputs s rest
                      (<[TxInput_Address i := setPubKey (TxInput_PubKey i) acc]> accs) in
                  (i :: rest', r)
              else
                let '(rest', r) :=
                  getOrMakeInputs s rest (<[TxInput_Address i := acc]> accs) in
                (clearInputPubKey i :: rest', r)
          end
      end
  end.

(** The loop of [GetOrMakeAccounts] over the outputs. *)
Fixpoint getOrMakeOutputs (s : State) (outs : list TxOutput) (accs : gmap bytes Account)
  : outcome (gmap bytes Account) :=
  match outs with
  | [] => Ok accs
  | o :: rest =>
      match accs !! TxOutput_Address o with
      | Some _ => Err ErrTxDuplicateAddress
      | None =>
          let acc :=
            match GetAccount s (TxOutput_Address o) with
            | Some acc => acc
            | None => mkAccount (TxOutput_Address o) PubKeyNil 0 0
            end in
          getOrMakeOutputs s rest (<[TxOutput_Address o := acc]> accs)
      end
  end.

Definition GetOrMakeAccounts (s : State) (ins : list TxInput) (outs : list TxOutput)
  : list TxInput * outcome (gmap bytes Account) :=
  let '(ins', r) := getOrMakeInputs s ins ∅ in
  (ins', r ≫= getOrMakeOutputs s outs).

Fixpoint validateInputsFrom (accs : gmap bytes Account) (signBytes : bytes)
  (ins : list TxInput) (total : Z) : outcome Z :=
  match ins with
  | [] => Ok total
  | i :: rest =>
      match accs !! TxInput_Address i with
      | None => Panic "ValidateInputs() expects account in accounts"
      | Some acc =>
          match TxInput_ValidateBasic P i with
          | Some e => Err e
          | None =>
              if negb (VerifyBytes P (Account_PubKey acc) signBytes (TxInput_Signature i))
              then Err ErrTxInvalidSignature
              else if negb (add64 (Account_Sequence acc) 1 =? TxInput_Sequence i)
              then Err ErrTxInvalidSequence
              else if Account_Balance acc <? TxInput_Amount i
              then Err ErrTxInsufficientFunds
              else validateInputsFrom accs signBytes rest (add64 total (TxInput_Amount i))
          end
      end
  end.

Definition ValidateInputs (accs : gmap bytes Account) (signBytes : bytes)
  (ins : list TxInput) : outcome Z :=
  validateInputsFrom accs signBytes ins 0.

Fixpoint validateOutputsFrom (outs : list TxOutput) (total : Z) : outcome Z :=
  match outs with
  | [] => Ok total
  | o :: rest =>
      match TxOutput_ValidateBasic P o with
      | Some e => Err e
      | None => validateOutputsFrom rest (add64 total (TxOutput_Amount o))
      end
  end.

Definition ValidateOutputs (outs : list TxOutput) : outcome Z :=
  validateOutputsFrom outs 0.

(** The accounts of the working map are pointers: adjusting one is an
    update of its entry. *)
Fixpoint AdjustByInputs (accs : gmap bytes Account) (ins : list TxInput)
  : outcome (gmap bytes Account) :=
  match ins with
  | [] => Ok accs
  | i :: rest =>
      match accs !! TxInput_Address i with
      | None => Panic "AdjustByInputs() expects account in accounts"
      | Some acc =>
          if Account_Balance acc <? TxInput_Amount i
          then Panic "AdjustByInputs() expects sufficient funds"
          else
            let acc' :=
              setSequence (add64 (Account_Sequence acc) 1)
                (setBalance (sub64 (Account_Balance acc) (TxInput_Amount i)) acc) in
            AdjustByInputs (<[TxInput_Address i := acc']> accs) rest
      end
  end.

Fixpoint AdjustByOutputs (accs : gmap bytes Account) (outs : list TxOutput)
  : outcome (gmap bytes Account) :=
  match outs with
  | [] => Ok accs
  | o :: rest =>
      match accs !! TxOutput_Address o with
      | None => Panic "AdjustByOutputs() expects account in accounts"
      | Some acc =>
          let acc' := setBalance (add64 (Account_Balance acc) (TxOutput_Amount o)) acc in
          AdjustByOutputs (<[TxOutput_Address o := acc']> accs) rest
      end
  end.

(** ** Validator transitions ([state.go], lines 404-473) *)

(** [s.BondedValidators.Remove(addr)] and its siblings, as writes. *)
Definition removeBonded (addr : bytes) : M (option Validator) := fun s =>
  let '(vs, r) := ValidatorSet_Remove addr (BondedValidators s) in
  (setBondedValidators vs s, Ok r).

Definition removeUnbonding (addr : bytes) : M (option Validator) := fun s =>
  let '(vs, r) := ValidatorSet_Remove addr (UnbondingValidators s) in
  (setUnbondingValidators vs s, Ok r).

Definition addBonded (val : Validator) : M bool := fun s =>
  let '(vs, added) := ValidatorSet_Add val (BondedValidators s) in
  (setBondedValidators vs s, Ok added).

Definition addUnbonding (val : Validator) : M bool := fun s =>
  let '(vs, added) := ValidatorSet_Add val (UnbondingValidators s) in
  (setUnbondingValidators vs s, Ok added).

Definition updateBonded (val : Validator) : M bool := fun s =>
  let '(vs, updated) := ValidatorSet_Update val (BondedValidators s) in
  (setBondedValidators vs s, Ok updated).

Definition panic {A} (msg : string) : M A := pure (Panic msg).

Definition unbondValidator (val : Validator) : M unit :=
  removed ← removeBonded (Validator_Address val);
  match removed with
  | None => panic "Couldn't remove validator for unbonding"
  | Some val =>
      s ← getState;
      let val := setUnbondHeight (add64 (LastBlockHeight s) 1) val in
      added ← addUnbonding val;
      if added : bool then mret tt
      else panic "Couldn't add validator for unbonding"
  end.

Definition rebondValidator (val : Validator) : M unit :=
  removed ← removeUnbonding (Validator_Address val);
  match removed with
  | None => panic "Couldn't remove validator for rebonding"
  | Some val =>
      s ← getState;
      let val := setBondHeight (add64 (LastBlockHeight s) 1) val in
      added ← addBonded val;
      if added : bool then mret tt
      else panic "Couldn't add validator for rebonding"
  end.

Definition releaseValidator (val : Validator) : M unit :=
  s ← getState;
  match GetValidatorInfo s (Validator_Address val) with
  | None => panic "Couldn't find validatorInfo for release"
  | Some valInfo =>
      let valInfo := setReleasedHeight (add64 (LastBlockHeight s) 1) valInfo in
      _ ← SetValidatorInfo valInfo;
      s ← getState;
      match snd (GetOrMakeAccounts s [] (ValidatorInfo_UnbondTo valInfo)) with
      | Err _ => panic "Couldn't get or make unbondTo accounts"
      | Panic msg => panic msg
      | Ok accs =>
          accs ← pure (AdjustByOutputs accs (ValidatorInfo_UnbondTo valInfo));
          _ ← UpdateAccounts accs;
          removed ← removeUnbonding (Validator_Address val);
          match removed with
          | None => panic "Couldn't remove validator for release"
          | Some _ => mret tt
          end
      end
  end.

Definition destroyValidator (val : Validator) : M unit :=
  s ← getState;
  match GetValidatorInfo s (Validator_Address val) with
  | None => panic "Couldn't find validatorInfo for release"
  | Some valInfo =>
      let valInfo :=
        setDestroyed (add64 (LastBlockHeight s) 1) (Validator_VotingPower val) valInfo in
      _ ← SetValidatorInfo valInfo;
      removed ← removeBonded (Validator_Address val);
      match removed with
      | Some _ => mret tt
      | None =>
          removed ← removeUnbonding (Validator_Address val);
          match removed with
          | Some _ => mret tt
          | None => panic "Couldn't remove validator for destruction"
          end
      end
  end.

(** ** ExecTx ([state.go], lines 224-402)

    The result carries the transaction as the call leaves it: its inputs
    are pointers and [GetOrMakeAccounts] may have cleared their [PubKey]. *)

Definition withTx (tx : Tx) (m : M unit) (s : State) : State * Tx * outcome unit :=
  let '(s', r) := m s in (s', tx, r).

Definition ExecTx (tx_ : Tx) (s : State) : State * Tx * outcome unit :=
  match tx_ with
  | SendTx ins outs =>
      let '(ins, r) := GetOrMakeAccounts s ins outs in
      let tx := SendTx ins outs in
      withTx tx (
        accs ← pure r;
        let signBytes := Tx_SignBytes P tx in
        inTotal ← pure (ValidateInputs accs signBytes ins);
        outTotal ← pure (ValidateOutputs outs);
        if inTotal <? outTotal then pure (Err ErrTxInsufficientFunds)
        else
          (* Good! Adjust accounts *)
          accs ← pure (AdjustByInputs accs ins);
          accs ← pure (AdjustByOutputs accs outs);
          UpdateAccounts accs) s

  | BondTx ins unbondTo pubKey =>
      match GetValidatorInfo s (PubKey_Address P pubKey) with
      | Some _ =>
          (s, tx_, Err (ErrNew "Adding coins to existing validators not yet supported"))
      | None =>
          let '(ins, r) := GetOrMakeAccounts s ins [] in
          let tx := BondTx ins unbondTo pubKey in
          withTx tx (
            accs ← pure r;
            let signBytes := Tx_SignBytes P tx in
            inTotal ← pure (ValidateInputs accs signBytes ins);
            _ ← pure (check (PubKey_ValidateBasic P pubKey));
            outTotal ← pure (ValidateOutputs unbondTo);
            if inTotal <? outTotal then pure (Err ErrTxInsufficientFunds)
            else
              (* Good! Adjust accounts *)
              accs ← pure (AdjustByInputs accs ins);
              _ ← UpdateAccounts accs;
              s1 ← getState;
              (* Add ValidatorInfo *)
              _ ← SetValidatorInfo
                    (mkValidatorInfo (PubKey_Address P pubKey) pubKey unbondTo
                       (add64 (LastBlockHeight s1) 1) outTotal 0 0 0);
              (* Add Validator *)
              added ← addBonded
                    (mkValidator (PubKey_Address P pubKey) pubKey
                       (add64 (LastBlockHeight s1) 1) 0 0 outTotal 0);
              if added : bool then mret tt else panic "Failed to add validator") s
      end

  | UnbondTx address height signature =>
      withTx tx_ (
        (* The validator must be active *)
        match GetByAddress address (BondedValidators s) with
        | None => pure (Err ErrTxInvalidAddress)
        | Some val =>
            (* Verify the signature *)
            let signBytes := Tx_SignBytes P tx_ in
            if negb (VerifyBytes P (Validator_PubKey val) signBytes signature)
            then pure (Err ErrTxInvalidSignature)
            (* tx.Height must be greater than val.LastCommitHeight *)
            else if height <=? Validator_LastCommitHeight val
            then pure (Err (ErrNew "Invalid unbond height"))
            else unbondValidator val
        end) s

  | RebondTx address height signature =>
      withTx tx_ (
        (* The validator must be inactive *)
        match GetByAddress address (UnbondingValidators s) with
        | None => pure (Err ErrTxInvalidAddress)
        | Some val =>
            let signBytes := Tx_SignBytes P tx_ in
            if negb (VerifyBytes P (Validator_PubKey val) signBytes signature)
            then pure (Err ErrTxInvalidSignature)
            (* tx.Height must be equal to the next height *)
            else if negb (height =? add64 (LastBlockHeight s) 1)
            then pure (Err (ErrNew "Invalid rebond height"))
            else rebondValidator val
        end) s

  | DupeoutTx address voteA voteB =>
      withTx tx_ (
        (* Verify the signatures *)
        let accused := GetByAddress address (BondedValidators s) in
        let voteASignBytes := Vote_SignBytes P voteA in
        let voteBSignBytes := Vote_SignBytes P voteB in
        (* [accused.PubKey] on a nil [accused] *)
        accused ← pure (orPanic accused
                          "runtime error: invalid memory address or nil pointer dereference");
        if negb (VerifyBytes P (Validator_PubKey accused) voteASignBytes (Vote_Signature voteA))
           || negb (VerifyBytes P (Validator_PubKey accused) voteBSignBytes (Vote_Signature voteB))
        then pure (Err ErrTxInvalidSignature)
        (* Verify equivocation *)
        else if negb (Vote_Height voteA =? Vote_Height voteB)
        then pure (Err (ErrNew "DupeoutTx heights don't match"))
        else
          _ ← pure (
            if bool_decide (Vote_Type voteA = VoteTypeCommit)
               && (Vote_Round voteA <? Vote_Round voteB)
            then Ok tt (* Check special case. *)
            else if negb (Vote_Round voteA =? Vote_Round voteB)
            then Err (ErrNew "DupeoutTx rounds don't match")
            else if negb (bool_decide (Vote_Type voteA = Vote_Type voteB))
            then Err (ErrNew "DupeoutTx types don't match")
            else if bytes_eqb (Vote_BlockHash voteA) (Vote_BlockHash voteB)
            then Err (ErrNew "DupeoutTx blockhashes shouldn't match")
            else Ok tt);
          (* Good! (Bad validator!) *)
          destroyValidator accused) s
  end.

(** ** AppendBlock ([state.go], lines 475-601) *)

(** Modelled from the spec: [Block.ValidateBasic], "verify
    [B.height == last_block_height + 1], [B.last_block_hash ==
    last_block_hash], [B.last_block_parts == last_block_parts],
    [B.time > last_block_time], plus internal block well-formedness". *)
Definition Block_ValidateBasic (b : Block) (lastBlockHeight : Z) (lastBlockHash : bytes)
  (lastBlockParts : PartSetHeader) (lastBlockTime : Z) : option error :=
  if negb (Block_Height b =? add64 lastBlockHeight 1)
  then Some (ErrNew "Wrong Block.Header.Height")
  else if negb (bytes_eqb (Block_LastBlockHash b) lastBlockHash)
  then Some (ErrNew "Wrong Block.Header.LastBlockHash")
  else if negb (bool_decide (Block_LastBlockParts b = lastBlockParts))
  then Some (ErrNew "Wrong Block.Header.LastBlockParts")
  else if negb (lastBlockTime <? Block_Time b)
  then Some (ErrNew "Wrong Block.Header.Time")
  else Block_WellFormed P b.

(** The callback of [s.BondedValidators.Iterate] in the validation of the
    commits: [vals] is what is left of the bonded set from [index] on,
    [sum] is [sumVotingPower]. *)
Fixpoint sumCommits (b : Block) (vals : list Validator) (index : nat) (sum : Z)
  : outcome Z :=
  match vals with
  | [] => Ok sum
  | val :: rest =>
      match Block_Commits b !! index with
      | None => Panic "runtime error: index out of range"
      | Some commit =>
          if Commit_IsZero commit then sumCommits b rest (S index) sum
          else
            let vote :=
              mkVote (sub64 (Block_Height b) 1) (Commit_Round commit) VoteTypeCommit
                (Block_LastBlockHash b) (Block_LastBlockParts b) [] in
            if VerifyBytes P (Validator_PubKey val) (Vote_SignBytes P vote)
                 (Commit_Signature commit)
            then sumCommits b rest (S index) (add64 sum (Validator_VotingPower val))
            else Err (ErrNew "Invalid validation signature")
      end
  end.

(** Validate block Validation. *)
Definition validateValidation (b : Block) (s : State) : outcome unit :=
  if Block_Height b =? 1 then
    if negb (Z.of_nat (length (Block_Commits b)) =? 0)
    then Err (ErrNew "Block at height 1 (first block) should have no Validation commits")
    else Ok tt
  else
    if negb (Z.of_nat (length (Block_Commits b)) =? Size (BondedValidators s))
    then Err (ErrNew "Invalid block validation size")
    else
      sumVotingPower ← sumCommits b (BondedValidators s) 0%nat 0;
      if sumVotingPower <=? mul64 (TotalVotingPower (BondedValidators s)) 2 / 3
      then Err (ErrNew "Insufficient validation voting power")
      else Ok tt.

(** Commit each tx.  The transactions are returned as [ExecTx] leaves
    them. *)
Fixpoint execTxs (txs : list Tx) (s : State) : State * list Tx * outcome unit :=
  match txs with
  | [] => (s, [], Ok tt)
  | tx :: rest =>
      match ExecTx tx s with
      | (s', tx', Ok _) =>
          let '(s'', rest', r) := execTxs rest s' in (s'', tx' :: rest', r)
      | (s', tx', Err e) => (s', tx' :: rest, Err (InvalidTxError tx' e))
      | (s', tx', Panic msg) => (s', tx' :: rest, Panic msg)
      end
  end.

(** Update Validator.LastCommitHeight as necessary. *)
Fixpoint updateLastCommitHeights (height : Z) (commits : list Commit) (i : nat)
  : M unit :=
  match commits with
  | [] => mret tt
  | commit :: rest =>
      if Commit_IsZero commit then updateLastCommitHeights height rest (S i)
      else
        s ← getState;
        match GetByIndex i (BondedValidators s) with
        | None =>
            panic ("Failed to fetch validator at index " +:+ formatInt (Z.of_nat i))
        | Some val =>
            let val := setLastCommitHeight (sub64 height 1) val in
            updated ← updateBonded val;
            if updated : bool then updateLastCommitHeights height rest (S i)
            else panic "Failed to update validator LastCommitHeight"
        end
  end.

(** [for _, val := range vals { f(val) }] *)
Fixpoint forEach {A} (f : A -> M unit) (l : list A) : M unit :=
  match l with
  | [] => mret tt
  | a :: l' => _ ← f a; forEach f l'
  end.

(** If any unbonding periods are over, reward account with bonded coins. *)
Definition toRelease (height : Z) (s : State) : list Validator :=
  filter (fun val => Is_true
            (add64 (Validator_UnbondHeight val) unbondingPeriodBlocks <? height))
         (UnbondingValidators s).

(** If any validators haven't signed in a while, unbond them, they have
    timed out. *)
Definition toTimeout (height : Z) (s : State) : list Validator :=
  filter (fun val => Is_true
            (add64 (Validator_LastCommitHeight val) validatorTimeoutBlocks <? height))
         (BondedValidators s).

Definition setStateHash (h : bytes) (b : Block) : Block :=
  mkBlock (Block_Height b) (Block_Time b) (Block_LastBlockHash b)
    (Block_LastBlockParts b) (Some h) (Block_Commits b) (Block_Txs b).

Definition setTxs (txs : list Tx) (b : Block) : Block :=
  mkBlock (Block_Height b) (Block_Time b) (Block_LastBlockHash b)
    (Block_LastBlockParts b) (Block_StateHash b) (Block_Commits b) txs.

(** The part of [AppendBlock] after the transactions: the commit heights,
    the release of unbonding validators, the timeouts and the accumulator. *)
Definition afterTxs (b : Block) : M unit :=
  _ ← updateLastCommitHeights (Block_Height b) (Block_Commits b) 0%nat;
  s ← getState;
  _ ← forEach releaseValidator (toRelease (Block_Height b) s);
  s ← getState;
  _ ← forEach unbondValidator (toTimeout (Block_Height b) s);
  (* Increment validator AccumPowers *)
  modify (fun s => setBondedValidators (IncrementAccum 1 (BondedValidators s)) s).

(** Check or set block.StateHash, then move the block tail. *)
Definition bindStateHash (b : Block) (blockPartsHeader : PartSetHeader)
  (checkStateHash : bool) (s : State) : State * Block * outcome unit :=
  let stateHash := Hash s in
  let finish b' :=
    (setLastBlock (Block_Height b') (Block_Hash P b') blockPartsHeader (Block_Time b') s,
     b', Ok tt) in
  if checkStateHash then
    if negb (bytes_eqb stateHash (default [] (Block_StateHash b)))
    then (s, b, Err (ErrNew ("Invalid state hash. Got " +:+ formatHex stateHash
                             +:+ ", block says "
                             +:+ formatHex (default [] (Block_StateHash b)))))
    else finish b
  else
    match Block_StateHash b with
    | Some _ => (s, b, Panic "Cannot overwrite block_.StateHash")
    | None => finish (setStateHash stateHash b)
    end.

(** The block is a pointer: it is returned as the call leaves it. *)
Definition AppendBlock (block_ : Block) (blockPartsHeader : PartSetHeader)
  (checkStateHash : bool) (s : State) : State * Block * outcome unit :=
  (* Basic block validation. *)
  match Block_ValidateBasic block_ (LastBlockHeight s) (LastBlockHash s)
          (LastBlockParts s) (LastBlockTime s) with
  | Some err => (s, block_, Err err)
  | None =>
      match validateValidation block_ s with
      | Err e => (s, block_, Err e)
      | Panic msg => (s, block_, Panic msg)
      | Ok _ =>
          let '(s1, txs, r) := execTxs (Block_Txs block_) s in
          let block_ := setTxs txs block_ in
          match r with
          | Err e => (s1, block_, Err e)
          | Panic msg => (s1, block_, Panic msg)
          | Ok _ =>
              match afterTxs block_ s1 with
              | (s2, Err e) => (s2, block_, Err e)
              | (s2, Panic msg) => (s2, block_, Panic msg)
              | (s2, Ok _) => bindStateHash block_ blockPartsHeader checkStateHash s2
              end
          end
      end
  end.

End StateMachine.

(** ** Persistence ([state.go], lines 51-95)

    [Save] and [LoadState] call into the packages [binary], [merkle] and
    [db], which are not part of the sources at hand.  Their operations are
    the fields of [Storage]; what the specification says of them ("Codec:
    deterministic binary encode/decode", "AuthMap: save() persists to
    KVStore, load(rootHash) hydrates the root") is [StorageLaws]. *)

Definition stateKey : bytes := [x73; x74; x61; x74; x65; x4b; x65; x79]%byte.

(** Modelled from the spec: the readers and writers of package [binary]
    for the fields of the state (a reader returns the value and the rest of
    the buffer, or [None] where the Go code sets [*err]), and [Save] and
    [Load] of the two Merkle trees over the KVStore. *)
Record Storage : Type := mkStorage {
  WriteUvarint : Z -> bytes;
  ReadUvarint : bytes -> option (Z * bytes);
  WriteByteSlice : bytes -> bytes;
  ReadByteSlice : bytes -> option (bytes * bytes);
  WritePartSetHeader : PartSetHeader -> bytes;
  ReadPartSetHeader : bytes -> option (PartSetHeader * bytes);
  WriteTime : Z -> bytes;
  ReadTime : bytes -> option (Z * bytes);
  WriteValidatorSet : ValidatorSet -> bytes;
  ReadValidatorSet : bytes -> option (ValidatorSet * bytes);
  Accounts_Save : gmap bytes Account -> gmap bytes bytes -> gmap bytes bytes;
  Accounts_Load : bytes -> gmap bytes bytes -> gmap bytes Account;
  ValidatorInfos_Save : gmap bytes ValidatorInfo -> gmap bytes bytes -> gmap bytes bytes;
  ValidatorInfos_Load : bytes -> gmap bytes bytes -> gmap bytes ValidatorInfo;
  (** the nodes of the tree are in the store *)
  Accounts_Stored : gmap bytes Account -> gmap bytes bytes -> Prop;
  ValidatorInfos_Stored : gmap bytes ValidatorInfo -> gmap bytes bytes -> Prop
}.

(** The values a Go [uint]/[uint64] and an [int64] can take. *)
Definition isUint64 (x : Z) : Prop := 0 <= x < 2 ^ 64.
Definition isInt64 (x : Z) : Prop := - 2 ^ 63 <= x < 2 ^ 63.

Definition Validator_wellTyped (v : Validator) : Prop :=
  isUint64 (Validator_BondHeight v) /\ isUint64 (Validator_UnbondHeight v)
  /\ isUint64 (Validator_LastCommitHeight v) /\ isUint64 (Validator_VotingPower v)
  /\ isInt64 (Validator_Accum v).

Definition Account_wellTyped (a : Account) : Prop :=
  isUint64 (Account_Sequence a) /\ isUint64 (Account_Balance a).

Definition ValidatorInfo_wellTyped (i : ValidatorInfo) : Prop :=
  Forall (fun o => isUint64 (TxOutput_Amount o)) (ValidatorInfo_UnbondTo i)
  /\ isUint64 (ValidatorInfo_FirstBondHeight i)
  /\ isUint64 (ValidatorInfo_FirstBondAmount i)
  /\ isUint64 (ValidatorInfo_ReleasedHeight i)
  /\ isUint64 (ValidatorInfo_DestroyedHeight i)
  /\ isUint64 (ValidatorInfo_DestroyedAmount i).

(** The numbers of the state are within the ranges of their Go types. *)
Definition State_wellTyped (s : State) : Prop :=
  isUint64 (LastBlockHeight s)
  /\ isUint64 (PartSetHeader_Total (LastBlockParts s))
  /\ isInt64 (LastBlockTime s)
  /\ Forall Validator_wellTyped (BondedValidators s)
  /\ Forall Validator_wellTyped (UnbondingValidators s)
  /\ map_Forall (fun _ => Account_wellTyped) (accounts s)
  /\ map_Forall (fun _ => ValidatorInfo_wellTyped) (validatorInfos s).

#[global] Instance State_wellTyped_dec s : Decision (State_wellTyped s).
Proof.
  unfold State_wellTyped, Validator_wellTyped, Account_wellTyped,
    ValidatorInfo_wellTyped, isUint64, isInt64.
  apply _.
Defined.

(** Modelled from the spec: the contract of the codec (decoding what was
    encoded gives the value back and leaves the rest of the buffer) and of
    the trees (a saved tree is in the store, stays there when the other
    tree is saved and when the state record is written, and a tree in the
    store is what [Load] of its root hash gives). *)
Record StorageLaws (P : Primitives) (St : Storage) : Prop := mkStorageLaws {
  uvarint_law : forall x rest,
    isUint64 x -> ReadUvarint St (WriteUvarint St x ++ rest) = Some (x, rest);
  byteSlice_law : forall b rest,
    ReadByteSlice St (WriteByteSlice St b ++ rest) = Some (b, rest);
  partSetHeader_law : forall p rest,
    isUint64 (PartSetHeader_Total p) ->
    ReadPartSetHeader St (WritePartSetHeader St p ++ rest) = Some (p, rest);
  time_law : forall t rest,
    isInt64 t -> ReadTime St (WriteTime St t ++ rest) = Some (t, rest);
  validatorSet_law : forall vs rest,
    Forall Validator_wellTyped vs ->
    ReadValidatorSet St (WriteValidatorSet St vs ++ rest) = Some (vs, rest);
  accounts_saved : forall t db,
    map_Forall (fun _ => Account_wellTyped) t ->
    Accounts_Stored St t (Accounts_Save St t db);
  accounts_kept_by_save : forall t t' db,
    Accounts_Stored St t db -> Accounts_Stored St t (ValidatorInfos_Save St t' db);
  accounts_kept_by_set : forall t db buf,
    Accounts_Stored St t db -> Accounts_Stored St t (<[stateKey := buf]> db);
  accounts_loaded : forall t db,
    Accounts_Stored St t db -> Accounts_Load St (Accounts_Hash P t) db = t;
  validatorInfos_saved : forall t db,
    map_Forall (fun _ => ValidatorInfo_wellTyped) t ->
    ValidatorInfos_Stored St t (ValidatorInfos_Save St t db);
  validatorInfos_kept_by_set : forall t db buf,
    ValidatorInfos_Stored St t db -> ValidatorInfos_Stored St t (<[stateKey := buf]> db);
  validatorInfos_loaded : forall t db,
    ValidatorInfos_Stored St t db ->
    ValidatorInfos_Load St (ValidatorInfos_Hash P t) db = t
}.

Section Persistence.

Context (P : Primitives) (St : Storage).

Definition setDB (db : gmap bytes bytes) (s : State) : State :=
  mkState db (LastBlockHeight s) (LastBlockHash s) (LastBlockParts s)
    (LastBlockTime s) (BondedValidators s) (UnbondingValidators s) (accounts s)
    (validatorInfos s).

(** The buffer [Save] writes under [stateKey]. *)
Definition stateRecord (s : State) : bytes :=
  WriteUvarint St (LastBlockHeight s)
  ++ WriteByteSlice St (LastBlockHash s)
  ++ WritePartSetHeader St (LastBlockParts s)
  ++ WriteTime St (LastBlockTime s)
  ++ WriteValidatorSet St (BondedValidators s)
  ++ WriteValidatorSet St (UnbondingValidators s)
  ++ WriteByteSlice St (Accounts_Hash P (accounts s))
  ++ WriteByteSlice St (ValidatorInfos_Hash P (validatorInfos s)).

(** Save this state into the db. *)
Definition Save (s : State) : State :=
  let db := Accounts_Save St (accounts s) (DB s) in
  let db := ValidatorInfos_Save St (validatorInfos s) db in
  let buf := stateRecord s in
  setDB (<[stateKey := buf]> db) s.

(** The reads of [LoadState], in the order of the source; [None] when one
    of them fails, which is the panic on [err] at the end. *)
Definition readState (db : gmap bytes bytes) (buf : bytes) : option State :=
  '(lastBlockHeight, r) ← ReadUvarint St buf;
  '(lastBlockHash, r) ← ReadByteSlice St r;
  '(lastBlockParts, r) ← ReadPartSetHeader St r;
  '(lastBlockTime, r) ← ReadTime St r;
  '(bondedValidators, r) ← ReadValidatorSet St r;
  '(unbondingValidators, r) ← ReadValidatorSet St r;
  '(accountsHash, r) ← ReadByteSlice St r;
  let accs := Accounts_Load St accountsHash db in
  '(validatorInfosHash, r) ← ReadByteSlice St r;
  let infos := ValidatorInfos_Load St validatorInfosHash db in
  Some (mkState db lastBlockHeight lastBlockHash lastBlockParts lastBlockTime
          bondedValidators unbondingValidators accs infos).

(** [Ok None] is the [nil] returned when there is no state record. *)
Definition LoadState (db : gmap bytes bytes) : outcome (option State) :=
  let buf := default [] (db !! stateKey) in
  match buf with
  | [] => Ok None
  | _ :: _ =>
      match readState db buf with
      | Some s => Ok (Some s)
      | None => Panic "binary: read error"
      end
  end.

End Persistence.

(** ** A concrete codec for the persistence scenario

    Every value is written as the bits of its code as a countable type, one
    byte per bit, closed by the byte [x02]. *)

#[global] Instance TxOutput_eq_dec : EqDecision TxOutput.
Proof. solve_decision. Defined.

#[global] Instance Account_eq_dec : EqDecision Account.
Proof. solve_decision. Defined.

#[global] Instance Validator_eq_dec : EqDecision Validator.
Proof. solve_decision. Defined.

#[global] Instance ValidatorInfo_eq_dec : EqDecision ValidatorInfo.
Proof. solve_decision. Defined.

#[global] Instance PubKey_countable : Countable PubKey.
Proof.
  refine (inj_countable'
            (fun pk => match pk with PubKeyNil => None | PubKeyEd25519 k => Some k end)
            (fun o => match o with None => PubKeyNil | Some k => PubKeyEd25519 k end) _).
  by intros [].
Defined.

#[global] Instance PartSetHeader_countable : Countable PartSetHeader.
Proof.
  refine (inj_countable'
            (fun p => (PartSetHeader_Total p, PartSetHeader_Hash p))
            (fun t => mkPartSetHeader t.1 t.2) _).
  by intros [].
Defined.

#[global] Instance TxOutput_countable : Countable TxOutput.
Proof.
  refine (inj_countable'
            (fun o => (TxOutput_Address o, TxOutput_Amount o))
            (fun t => mkTxOutput t.1 t.2) _).
  by intros [].
Defined.

#[global] Instance Account_countable : Countable Account.
Proof.
  refine (inj_countable'
            (fun a => (Account_Address a, Account_PubKey a, Account_Sequence a,
                       Account_Balance a))
            (fun t => mkAccount t.1.1.1 t.1.1.2 t.1.2 t.2) _).
  by intros [].
Defined.

#[global] Instance Validator_countable : Countable Validator.
Proof.
  refine (inj_countable'
            (fun v => (Validator_Address v, Validator_PubKey v, Validator_BondHeight v,
                       Validator_UnbondHeight v, Validator_LastCommitHeight v,
                       Validator_VotingPower v, Validator_Accum v))
            (fun t => mkValidator t.1.1.1.1.1.1 t.1.1.1.1.1.2 t.1.1.1.1.2 t.1.1.1.2
                        t.1.1.2 t.1.2 t.2) _).
  by intros [].
Defined.

#[global] Instance ValidatorInfo_countable : Countable ValidatorInfo.
Proof.
  refine (inj_countable'
            (fun i => (ValidatorInfo_Address i, ValidatorInfo_PubKey i,
                       ValidatorInfo_UnbondTo i, ValidatorInfo_FirstBondHeight i,
                       ValidatorInfo_FirstBondAmount i, ValidatorInfo_ReleasedHeight i,
                       ValidatorInfo_DestroyedHeight i, ValidatorInfo_DestroyedAmount i))
            (fun t => mkValidatorInfo t.1.1.1.1.1.1.1 t.1.1.1.1.1.1.2 t.1.1.1.1.1.2
                        t.1.1.1.1.2 t.1.1.1.2 t.1.1.2 t.1.2 t.2) _).
  by intros [].
Defined.

Fixpoint encPos (p : positive) : bytes :=
  match p with
  | xH => [x02]
  | xO q => x00 :: encPos q
  | xI q => x01 :: encPos q
  end%byte.

Fixpoint decPos (b : bytes) : option (positive * bytes) :=
  match b with
  | [] => None
  | x :: b' =>
      if decide (x = x02) then Some (xH, b')
      else if decide (x = x00) then '(p, r) ← decPos b'; Some (xO p, r)
      else if decide (x = x01) then '(p, r) ← decPos b'; Some (xI p, r)
      else None
  end.

Definition encodeVia `{Countable A} (x : A) : bytes := encPos (encode x).

Definition decodeVia `{Countable A} (b : bytes) : option (A * bytes) :=
  '(p, r) ← decPos b; x ← decode p; Some (x, r).

(** The sum of all balances, as a mathematical integer. *)
Definition totalBalance (t : gmap bytes Account) : Z :=
  map_fold (fun _ acc sum => sum + Account_Balance acc) 0 t.

(** ** Shapes of stateful computations used in the proofs *)

(** The computation never returns an [error] (it returns normally or
    panics). *)
Definition neverErr {A} (m : M A) : Prop := forall s e, snd (m s) <> Err e.

(** When the computation returns an [error], the state is the one it
    started from. *)
Definition errKeeps {A} (m : M A) : Prop :=
  forall s s' e, m s = (s', Err e) -> s' = s.

(** A partial-correctness triple for the normal return: when [m] starts in
    a state satisfying [Pre] and returns [a] normally, [Post a] holds of the
    state it leaves. *)
Definition hoare {A} (Pre : State -> Prop) (m : M A) (Post : A -> State -> Prop) : Prop :=
  forall s s' a, Pre s -> m s = (s', Ok a) -> Post a s'.

(** Every validator of the set has a strictly positive voting power. *)
Definition allPositive (vs : ValidatorSet) : Prop :=
  Forall (fun v => 0 < Validator_VotingPower v) vs.

Definition positivePowers (s : State) : Prop :=
  allPositive (BondedValidators s) /\ allPositive (UnbondingValidators s).

Abbreviation keepsPositive m := (hoare positivePowers m (fun _ => positivePowers)).

(** The transaction is not a bond whose [unbond_to] amounts total 0 (in
    64 bits). *)
Definition bondsSomething (P : Primitives) (tx : Tx) : Prop :=
  match tx with
  | BondTx _ unbondTo _ => ValidateOutputs P unbondTo <> Ok 0
  | _ => True
  end.

(** Every record of [validatorInfos] is stored under its own address (the
    tree is only written by [SetValidatorInfo], at [valInfo.Address]). *)
Definition infosWf (s : State) : Prop :=
  map_Forall (fun k i => ValidatorInfo_Address i = k) (validatorInfos s).

#[global] Instance infosWf_dec s : Decision (infosWf s).
Proof. unfold infosWf. apply _. Defined.

(** The record at [address] lists some address twice in its [UnbondTo]. *)
Definition duplicateUnbondTo (address : bytes) (s : State) : Prop :=
  exists i, validatorInfos s !! address = Some i
            /\ ~ NoDup (map TxOutput_Address (ValidatorInfo_UnbondTo i)).

(** The reasons for which [ExecTx] rejects a [BondTx] with error [e]: the
    validator exists already, [GetOrMakeAccounts] fails on the inputs, an
    input is invalid, the key is invalid, one output fails its own shape
    check, or the funds are insufficient. *)
Definition bondRejection (P : Primitives) (s : State) (ins : list TxInput)
  (unbondTo : list TxOutput) (pubKey : PubKey) (e : error) : Prop :=
  let ins' := fst (GetOrMakeAccounts P s ins []) in
  let signBytes := Tx_SignBytes P (BondTx ins' unbondTo pubKey) in
  is_Some (GetValidatorInfo s (PubKey_Address P pubKey))
  \/ snd (GetOrMakeAccounts P s ins []) = Err e
  \/ (exists accs, snd (GetOrMakeAccounts P s ins []) = Ok accs
                   /\ ValidateInputs P accs signBytes ins' = Err e)
  \/ PubKey_ValidateBasic P pubKey = Some e
  \/ (exists o, o ∈ unbondTo /\ TxOutput_ValidateBasic P o = Some e)
  \/ (e = ErrTxInsufficientFunds
      /\ exists accs inTotal outTotal,
           snd (GetOrMakeAccounts P s ins []) = Ok accs
           /\ ValidateInputs P accs signBytes ins' = Ok inTotal
           /\ ValidateOutputs P unbondTo = Ok outTotal
           /\ inTotal < outTotal).

(** Every account of the tree is stored under its own address (the tree is
    only written by [UpdateAccount] and [UpdateAccounts], at
    [acc.Address]). *)
Definition accountsWf (s : State) : Prop :=
  map_Forall (fun k acc => Account_Address acc = k) (accounts s).

#[global] Instance accountsWf_dec s : Decision (accountsWf s).
Proof. unfold accountsWf. apply _. Defined.

(** The effect on the accounts of crediting one output: the account at the
    output's address, made anew when there is none, receives the amount (in
    64 bits). *)
Definition creditOutput (t : gmap bytes Account) (o : TxOutput) : gmap bytes Account :=
  let acc := default (mkAccount (TxOutput_Address o) PubKeyNil 0 0)
                     (t !! TxOutput_Address o) in
  <[TxOutput_Address o := setBalance (add64 (Account_Balance acc) (TxOutput_Amount o)) acc]> t.

Definition creditOutputs (outs : list TxOutput) (t : gmap bytes Account)
  : gmap bytes Account :=
  foldl creditOutput t outs.

(** A fresh account, an account credited with [amount], and the amount of
    the first output of [outs] that goes to [k]. *)
Definition newAccount (k : bytes) : Account := mkAccount k PubKeyNil 0 0.
Definition credit (amount : Z) (acc : Account) : Account :=
  setBalance (add64 (Account_Balance acc) amount) acc.

Fixpoint amountTo (k : bytes) (outs : list TxOutput) : Z :=
  match outs with
  | [] => 0
  | o :: rest => if decide (TxOutput_Address o = k) then TxOutput_Amount o else amountTo k rest
  end.

(** The [UnbondTo] outputs recorded for a validator. *)
Definition unbondToOf (s : State) (val : Validator) : list TxOutput :=
  match validatorInfos s !! Validator_Address val with
  | Some valInfo => ValidatorInfo_UnbondTo valInfo
  | None => []
  end.

(** The computation leaves [LastBlockHeight] alone, however it ends. *)
Definition keepsHeight {A} (m : M A) : Prop :=
  forall s s' r, m s = (s', r) -> LastBlockHeight s' = LastBlockHeight s.

(** ** A concrete instance

    A small instantiation of the primitives on which the state machine can
    be run: the address of a key is the key itself, a signature of [msg]
    under [key] is [key ++ msg], addresses are 20 bytes long and amounts are
    non-zero. *)
Module Scenario.

Definition primitives : Primitives := {|
  PubKey_Address := fun pk => match pk with PubKeyNil => [] | PubKeyEd25519 k => k end;
  Ed25519_Verify := fun key msg sig => bytes_eqb sig (key ++ msg);
  PubKey_ValidateBasic := fun _ => None;
  Tx_SignBytes := fun tx =>
    match tx with
    | SendTx _ _ => [x01]
    | BondTx _ _ _ => [x02]
    | UnbondTx _ _ _ => [x03]
    | RebondTx _ _ _ => [x04]
    | DupeoutTx _ _ _ => [x05]
    end%byte;
  Vote_SignBytes := fun v => Vote_BlockHash v;
  TxInput_ValidateBasic := fun i =>
    if negb (length (TxInput_Address i) =? 20)%nat then Some ErrTxInvalidAddress
    else if TxInput_Amount i =? 0 then Some (ErrNew "invalid amount")
    else None;
  TxOutput_ValidateBasic := fun o =>
    if negb (length (TxOutput_Address o) =? 20)%nat then Some ErrTxInvalidAddress
    else if TxOutput_Amount o =? 0 then Some (ErrNew "invalid amount")
    else None;
  Block_WellFormed := fun _ => None;
  Block_Hash := fun b => Block_LastBlockHash b ++ [x0b]%byte;
  ValidatorSet_Hash := fun vs => concat (map Validator_Address vs);
  Accounts_Hash := fun t => concat (map fst (map_to_list t));
  ValidatorInfos_Hash := fun t => concat (map fst (map_to_list t));
  HashFromHashables := fun l => concat l
|}.

(** The 20-byte address made of the byte [b], and the key that has it. *)
Definition addr (b : byte) : bytes := repeat b 20.
Definition key (b : byte) : PubKey := PubKeyEd25519 (addr b).

(** The signature of [msg] under [key b]. *)
Definition sign (b : byte) (msg : bytes) : bytes := addr b ++ msg.

(** A validator bonded at height 1 with the given power and last commit
    height, and its permanent record. *)
Definition validator (b : byte) (power lastCommitHeight : Z) : Validator :=
  mkValidator (addr b) (key b) 1 0 lastCommitHeight power 0.

Definition validatorInfo (b : byte) (unbondTo : list TxOutput) : ValidatorInfo :=
  mkValidatorInfo (addr b) (key b) unbondTo 1 0 0 0 0.

Definition noParts : PartSetHeader := mkPartSetHeader 0 [].

(** A state with last block at [height], the given validator sets, accounts
    and validator records. *)
Definition state (height : Z) (bonded unbonding : ValidatorSet)
  (accs : list Account) (infos : list ValidatorInfo) : State :=
  mkState ∅ height [] noParts 0 bonded unbonding
    (list_to_map (map (fun a => (Account_Address a, a)) accs))
    (list_to_map (map (fun i => (ValidatorInfo_Address i, i)) infos)).

(** The block at [height] that follows such a state. *)
Definition block (height : Z) (commits : list Commit) (txs : list Tx) : Block :=
  mkBlock height 1 [] noParts None commits txs.

(** The commit of validator [b] for the block before [block h _ _]. *)
Definition commit (b : byte) : Commit := mkCommit 0 (sign b []).
Definition noCommit : Commit := mkCommit 0 [].

(** An account whose key is known. *)
Definition account (b : byte) (sequence balance : Z) : Account :=
  mkAccount (addr b) (key b) sequence balance.

(** An input of [amount] from the account of [b], signed for a transaction
    whose sign-bytes are [msg]. *)
Definition input (b : byte) (amount sequence : Z) (msg : bytes) : TxInput :=
  mkTxInput (addr b) amount sequence (sign b msg) PubKeyNil.

Definition output (b : byte) (amount : Z) : TxOutput := mkTxOutput (addr b) amount.

(** Two bonded validators of powers 60 and 40 with their records. *)
Definition twoValidators (height : Z) : State :=
  state height [validator x01 60 0; validator x02 40 0] [] []
    [validatorInfo x01 []; validatorInfo x02 []].

(** Scenario C of the specification: a send whose input sequence is
    [sequence + 2]. *)
Definition replayState : State := state 1 [] [] [account x0a 0 100] [].
Definition replayTx : Tx := SendTx [input x0a 10 2 [x01]] [output x0b 10].

(** Two votes of validator [x01] at height 3: a commit at round 0 and a
    prevote at round 1 for the same block hash. *)
Definition commitVote : Vote :=
  mkVote 3 0 VoteTypeCommit [x0a] noParts (sign x01 [x0a]).
Definition laterVote : Vote :=
  mkVote 3 1 VoteTypePrevote [x0a] noParts (sign x01 [x0a]).

(** The bonded powers are 1 and [2^63 - 1]; only the first signs. *)
Definition hugePowerState : State :=
  state 1 [validator x01 1 0; validator x02 (2 ^ 63 - 1) 0] [] []
    [validatorInfo x01 []; validatorInfo x02 []].
Definition hugePowerBlock : Block := block 2 [commit x01; noCommit] [].

(** One account holding one coin, and a send of that coin to three outputs
    of [2^63], [2^63] and [1] coins. *)
Definition oneCoinState : State := state 1 [] [] [account x0a 0 1] [].
Definition mintingTx : Tx :=
  SendTx [input x0a 1 1 [x01]]
         [output x0b (2 ^ 63); output x0c (2 ^ 63); output x0d 1].

(** Validators [x02] (last commit at 10) and [x03] (last commit at 1) are
    bonded at height 11; block 12 carries the commits of both and a bond
    of a new validator [x01], whose address sorts first. *)
Definition shiftState : State :=
  state 11 [validator x02 60 10; validator x03 40 1] [] [account x0a 0 100]
    [validatorInfo x02 []; validatorInfo x03 []].
Definition shiftBlock : Block :=
  block 12 [commit x02; commit x03]
    [BondTx [input x0a 10 1 [x02]] [output x0b 10] (key x01)].

(** Validator [x02] was unbonded at height [H = 0], so that its unbond
    height is 1; [x01] stays bonded and signs every block. *)
Definition unbondedState (height : Z) : State :=
  state height [validator x01 60 (height - 1)]
    [setUnbondHeight 1 (validator x02 40 0)] []
    [validatorInfo x01 []; validatorInfo x02 [output x0b 40]].
Definition nextBlock (height : Z) : Block := block height [commit x01] [].

(** A bond with no [unbond_to] outputs. *)
Definition emptyBondState : State := state 1 [] [] [account x0a 0 100] [].
Definition emptyBondTx : Tx := BondTx [input x0a 10 1 [x02]] [] (key x01).

(** A bond whose two [unbond_to] outputs name the same address, and the
    state in which the validator so bonded has been unbonding for longer
    than the unbonding period. *)
Definition dupBondTx : Tx :=
  BondTx [input x0a 40 1 [x02]] [output x0b 20; output x0b 20] (key x02).
Definition dupUnbondedState (height : Z) : State :=
  state height [validator x01 60 (height - 1)]
    [setUnbondHeight 1 (validator x02 40 0)] []
    [validatorInfo x01 []; validatorInfo x02 [output x0b 20; output x0b 20]].

(** The persistence scenario: the codec above for every field, the root
    hash of a tree is its encoding, and a tree is kept in the store under
    its root hash behind a one-byte tag. *)
Definition storage : Storage := {|
  WriteUvarint := encodeVia;
  ReadUvarint := decodeVia;
  WriteByteSlice := encodeVia;
  ReadByteSlice := decodeVia;
  WritePartSetHeader := encodeVia;
  ReadPartSetHeader := decodeVia;
  WriteTime := encodeVia;
  ReadTime := decodeVia;
  WriteValidatorSet := encodeVia;
  ReadValidatorSet := decodeVia;
  Accounts_Save := fun t db => <[(x61 :: encodeVia t)%byte := encodeVia t]> db;
  Accounts_Load := fun h db =>
    match db !! (x61 :: h)%byte ≫= decodeVia with
    | Some (t, _) => t
    | None => ∅
    end;
  ValidatorInfos_Save := fun t db => <[(x76 :: encodeVia t)%byte := encodeVia t]> db;
  ValidatorInfos_Load := fun h db =>
    match db !! (x76 :: h)%byte ≫= decodeVia with
    | Some (t, _) => t
    | None => ∅
    end;
  Accounts_Stored := fun t db => db !! (x61 :: encodeVia t)%byte = Some (encodeVia t);
  ValidatorInfos_Stored := fun t db => db !! (x76 :: encodeVia t)%byte = Some (encodeVia t)
|}.

Definition storagePrimitives : Primitives := {|
  PubKey_Address := PubKey_Address primitives;
  Ed25519_Verify := Ed25519_Verify primitives;
  PubKey_ValidateBasic := PubKey_ValidateBasic primitives;
  Tx_SignBytes := Tx_SignBytes primitives;
  Vote_SignBytes := Vote_SignBytes primitives;
  TxInput_ValidateBasic := TxInput_ValidateBasic primitives;
  TxOutput_ValidateBasic := TxOutput_ValidateBasic primitives;
  Block_WellFormed := Block_WellFormed primitives;
  Block_Hash := Block_Hash primitives;
  ValidatorSet_Hash := ValidatorSet_Hash primitives;
  Accounts_Hash := encodeVia;
  ValidatorInfos_Hash := encodeVia;
  HashFromHashables := HashFromHashables primitives
|}.

(** Two bonded validators, one unbonding, two accounts. *)
Definition savedState : State :=
  state 7 [validator x01 60 6; validator x02 40 5]
    [setUnbondHeight 3 (validator x03 10 2)]
    [account x0a 4 100; account x0b 0 7]
    [validatorInfo x01 [output x0a 60]; validatorInfo x02 [output x0b 40];
     validatorInfo x03 [output x0b 10]].

(** A send of 7 coins out of an input of 10 from the account of
    [replayState], with the right sequence number. *)
Definition sendInputs : list TxInput := [input x0a 10 1 [x01]].
Definition sendOutputs : list TxOutput := [output x0b 7].

(** A bond of 10 coins by the account of [x0a] for a new validator [x01],
    in [shiftState]. *)
Definition bondInputs : list TxInput := [input x0a 10 1 [x02]].
Definition bondUnbondTo : list TxOutput := [output x0b 10].

(** Two precommits of validator [x01] at height 3, round 0, for different
    block hashes (scenario F of the specification). *)
Definition precommitA : Vote :=
  mkVote 3 0 VoteTypePrecommit [x0a] noParts (sign x01 [x0a]).
Definition precommitB : Vote :=
  mkVote 3 0 VoteTypePrecommit [x0b] noParts (sign x01 [x0b]).

(** Block 2 on [twoValidators 1]: signed by both validators, and signed by
    none. *)
Definition signedBlock (txs : list Tx) : Block :=
  block 2 [commit x01; commit x02] txs.
Definition unsignedBlock : Block := block 2 [noCommit; noCommit] [].

(** Validator [x02] unbonds at height 1. *)
Definition unbondTx : Tx := UnbondTx (addr x02) 1 (sign x02 [x03]).

End Scenario.

(** ** Descriptions used by the further properties *)

(** The account an input works on: the stored account, with the key of the
    input when the stored account has none yet. *)
Definition inputAccount (acc : Account) (i : TxInput) : Account :=
  if isPubKeyNil (Account_PubKey acc) then setPubKey (TxInput_PubKey i) acc else acc.

(** The input as [GetOrMakeAccounts] leaves it: its key is [PubKeyNil]
    when the stored account has a key, and the input is as it came
    otherwise. *)
Definition canonicalInput (s : State) (i : TxInput) : TxInput :=
  match accounts s !! TxInput_Address i with
  | Some acc =>
      if isPubKeyNil (Account_PubKey acc) then i
      else mkTxInput (TxInput_Address i) (TxInput_Amount i) (TxInput_Sequence i)
             (TxInput_Signature i) PubKeyNil
  | None => i
  end.

(** An account debited by [amount]: the balance goes down and the sequence
    number goes up by one (both in 64 bits). *)
Definition debit (amount : Z) (acc : Account) : Account :=
  setSequence (add64 (Account_Sequence acc) 1)
    (setBalance (sub64 (Account_Balance acc) amount) acc).

(** The effect on the accounts of one input, and of the inputs in order. *)
Definition debitInput (t : gmap bytes Account) (i : TxInput) : gmap bytes Account :=
  match t !! TxInput_Address i with
  | Some acc => <[TxInput_Address i := debit (TxInput_Amount i) (inputAccount acc i)]> t
  | None => t
  end.

Definition debitInputs (ins : list TxInput) (t : gmap bytes Account)
  : gmap bytes Account :=
  foldl debitInput t ins.

(** The sums of the amounts, as mathematical integers. *)
Definition sumInputs (ins : list TxInput) : Z :=
  foldr (fun i sum => TxInput_Amount i + sum) 0 ins.

Definition sumOutputs (outs : list TxOutput) : Z :=
  foldr (fun o sum => TxOutput_Amount o + sum) 0 outs.

(** What [ValidateInputs] asks of one input, given the working accounts. *)
Definition inputValid (P : Primitives) (accs : gmap bytes Account) (signBytes : bytes)
  (i : TxInput) : Prop :=
  exists acc, accs !! TxInput_Address i = Some acc
    /\ TxInput_ValidateBasic P i = None
    /\ VerifyBytes P (Account_PubKey acc) signBytes (TxInput_Signature i) = true
    /\ add64 (Account_Sequence acc) 1 = TxInput_Sequence i
    /\ TxInput_Amount i <= Account_Balance acc.

(** The computation keeps [I], however it ends. *)
Definition preserves {A} (I : State -> Prop) (m : M A) : Prop :=
  forall s s' r, I s -> m s = (s', r) -> I s'.

(** The store and the description of the last block. *)
Definition blockTail (s : State) : gmap bytes bytes * Z * bytes * PartSetHeader * Z :=
  (DB s, LastBlockHeight s, LastBlockHash s, LastBlockParts s, LastBlockTime s).

(** Every validator of either set has its permanent record. *)
Definition haveInfos (s : State) : Prop :=
  Forall (fun a => is_Some (validatorInfos s !! a))
    (map Validator_Address (BondedValidators s ++ UnbondingValidators s)).

(** No address is in both validator sets. *)
Definition disjointSets (s : State) : Prop :=
  Forall (fun a => a ∉ map Validator_Address (UnbondingValidators s))
    (map Validator_Address (BondedValidators s)).

#[global] Instance haveInfos_dec s : Decision (haveInfos s).
Proof. unfold haveInfos. apply _. Defined.

#[global] Instance disjointSets_dec s : Decision (disjointSets s).
Proof. unfold disjointSets. apply _. Defined.

(** Both properties of the validator sets. *)
Abbreviation validatorsOk := (fun s => haveInfos s /\ disjointSets s).

(** The vote that a commit carried by block [b] stands for. *)
Definition voteOfCommit (b : Block) (c : Commit) : Vote :=
  mkVote (sub64 (Block_Height b) 1) (Commit_Round c) VoteTypeCommit
    (Block_LastBlockHash b) (Block_LastBlockParts b) [].

(** A commit is acceptable for the validator at its index when it is zero
    or carries the validator's signature of that vote. *)
Definition commitValid (P : Primitives) (b : Block) (v : Validator) (c : Commit) : Prop :=
  Commit_IsZero c = true
  \/ VerifyBytes P (Validator_PubKey v) (Vote_SignBytes P (voteOfCommit b c))
       (Commit_Signature c) = true.

(** The voting power behind the commits: the sum, as a mathematical
    integer, of the powers of the validators whose commit is not zero. *)
Fixpoint signedPower (vals : list Validator) (commits : list Commit) : Z :=
  match vals, commits with
  | v :: vals', c :: commits' =>
      (if Commit_IsZero c then 0 else Validator_VotingPower v) + signedPower vals' commits'
  | _, _ => 0
  end.

(** * Alerts ([alert/alert.go])

    [Alert] reads the clock and the configuration, keeps two package
    variables, writes to the log and starts goroutines that talk to Twilio
    and to the mail server.  The clock is an argument, the package
    variables are a record that is passed and returned, the log lines and
    the requests are values, and a goroutine is returned as the call it will
    make.  A Go [string] is a sequence of bytes, as a [string] is here;
    [int] is taken to be 64 bits wide. *)

(** The fields of [Config] that [alert.go] reads. *)
Record AlertConfig : Type := mkAlertConfig {
  Config_Network : string;
  Config_Alert_MinInterval : Z;
  Config_Alert_TwilioSid : string;
  Config_Alert_TwilioToken : string;
  Config_Alert_TwilioFrom : string;
  Config_Alert_TwilioTo : string;
  Config_Alert_EmailRecipients : list string
}.

(** [var lastAlertUnix int64 = 0] and [var alertCountSince int = 0] *)
Record AlertVars : Type := mkAlertVars {
  lastAlertUnix : Z;
  alertCountSince : Z
}.

Definition initialAlertVars : AlertVars := mkAlertVars 0 0.

(** A call started with [go]. *)
Inductive Goroutine : Type :=
  | go_sendTwilio (message : string)
  | go_sendEmail (message : string).

(** What reaches the log, Twilio and the mail server:
    [log.Error(text)], [NewTwilioClient(sid, token).SendSMS(from, to, body,
    statusCallback, applicationSid)] and [SendEmail(subject, body,
    recipients)]. *)
Inductive AlertEffect : Type :=
  | LogError (text : string)
  | SendSMS (sid token from to body statusCallback applicationSid : string)
  | SendEmail (subject body : string) (recipients : list string).

(** How a request ends: it returns without an error, it returns an error
    (with its text as [%v] prints it), or it panics (with the text of the
    recovered value). *)
Inductive Reply : Type :=
  | Delivered
  | Failed (text : string)
  | Panicked (text : string).

(** [len(s)] and [s[:n]] *)
Definition len (s : string) : Z := Z.of_nat (String.length s).
Definition upTo (n : nat) (s : string) : string := String.substring 0 n s.

Definition newline : string := String (Ascii.ascii_of_nat 10) EmptyString.

(** Sends a critical alert message to administrators. *)
Definition Alert (Config : AlertConfig) (now : Z) (message : string) (vars : AlertVars)
  : AlertVars * list AlertEffect * list Goroutine :=
  let logged := [LogError ("<!> ALERT <!>" +:+ newline +:+ message)] in
  if wrapInt64 (Config_Alert_MinInterval Config) <? wrapInt64 (now - lastAlertUnix vars)
  then
    let message := Config_Network Config +:+ ":" +:+ message in
    let '(message, vars) :=
      if 0 <? alertCountSince vars
      then (message +:+ " (+" +:+ formatInt (alertCountSince vars) +:+ " more since)",
            mkAlertVars (lastAlertUnix vars) 0)
      else (message, vars) in
    let twilio :=
      if 0 <? len (Config_Alert_TwilioSid Config) then [go_sendTwilio message] else [] in
    let email :=
      if 0 <? Z.of_nat (length (Config_Alert_EmailRecipients Config))
      then [go_sendEmail message] else [] in
    (vars, logged, twilio ++ email)
  else
    (mkAlertVars (lastAlertUnix vars) (wrapInt64 (alertCountSince vars + 1)), logged, []).

Definition sendTwilio (Config : AlertConfig) (reply : Reply) (message : string)
  : list AlertEffect :=
  let message := if 50 <? len message then upTo 50 message else message in
  SendSMS (Config_Alert_TwilioSid Config) (Config_Alert_TwilioToken Config)
    (Config_Alert_TwilioFrom Config) (Config_Alert_TwilioTo Config) message "" ""
  :: match reply with
     | Delivered => []
     | Failed text => [LogError ("sendTwilio error: " +:+ text)]
     | Panicked text => [LogError ("sendTwilio error: " +:+ text)]
     end.

Definition sendEmail (Config : AlertConfig) (reply : Reply) (message : string)
  : list AlertEffect :=
  let subject := message in
  let subject := if 80 <? len subject then upTo 80 subject else subject in
  SendEmail subject message (Config_Alert_EmailRecipients Config)
  :: match reply with
     | Delivered => []
     | Failed text => [LogError ("sendEmail error: " +:+ text +:+ newline +:+ message)]
     | Panicked text => [LogError ("sendEmail error: " +:+ text)]
     end.

(** The goroutines that a dispatched alert starts. *)
Definition dispatched (Config : AlertConfig) (message : string) : list Goroutine :=
  (if 0 <? len (Config_Alert_TwilioSid Config) then [go_sendTwilio message] else [])
  ++ (if 0 <? Z.of_nat (length (Config_Alert_EmailRecipients Config))
      then [go_sendEmail message] else []).

(** A sequence of calls of [Alert], each at its time: the package variables
    at the end and the goroutines each call has started. *)
Fixpoint alerts (Config : AlertConfig) (calls : list (Z * string)) (vars : AlertVars)
  : AlertVars * list (list Goroutine) :=
  match calls with
  | [] => (vars, [])
  | (now, message) :: rest =>
      let '(vars, _, started) := Alert Config now message vars in
      let '(vars, l) := alerts Config rest vars in
      (vars, started :: l)
  end.

(** What a goroutine does when it runs. *)
Definition runGoroutine (Config : AlertConfig) (reply : Reply) (g : Goroutine)
  : list AlertEffect :=
  match g with
  | go_sendTwilio message => sendTwilio Config reply message
  | go_sendEmail message => sendEmail Config reply message
  end.

(** The request is cut from [text]: an SMS carries the first 50 bytes of
    it (all of it when it is shorter), a mail carries it whole, under its
    first 80 bytes as subject. *)
Definition cutFrom (text : string) (e : AlertEffect) : Prop :=
  match e with
  | LogError _ => True
  | SendSMS _ _ _ _ body _ _ =>
      String.prefix body text = true /\ len body = Z.min 50 (len text)
  | SendEmail subject body _ =>
      body = text /\ String.prefix subject text = true
      /\ len subject = Z.min 80 (len text)
  end.

(** * Properties *)

(** ** Bytes and validator sets *)

Lemma bytes_eqb_eq (a b : bytes) : bytes_eqb a b = true <-> a = b.
Proof. unfold bytes_eqb. apply bool_decide_eq_true. Qed.

Lemma bytes_eqb_neq (a b : bytes) : bytes_eqb a b = false <-> a <> b.
Proof. unfold bytes_eqb. apply bool_decide_eq_false. Qed.

Lemma bytes_eqb_refl (a : bytes) : bytes_eqb a a = true.
Proof. by apply bytes_eqb_eq. Qed.

Lemma GetByAddress_Some addr vs v :
  GetByAddress addr vs = Some v -> Validator_Address v = addr /\ v ∈ vs.
Proof.
  induction vs as [|w ws IH]; simpl; [done|].
  destruct (bytes_eqb (Validator_Address w) addr) eqn:E.
  - intros [= ->]. apply bytes_eqb_eq in E. split; [done | left].
  - intros H. destruct (IH H). split; [done | by right].
Qed.

(** ** Errors and writes *)

Section ErrorsAndWrites.

Context (P : Primitives).

Lemma errKeeps_pure {A} (r : outcome A) : errKeeps (pure r).
Proof. intros s s' e [= <- _]. done. Qed.

Lemma errKeeps_neverErr {A} (m : M A) : neverErr m -> errKeeps m.
Proof. intros H s s' e E. specialize (H s e). rewrite E in H. done. Qed.

Lemma errKeeps_bind_pure {A B} (r : outcome A) (f : A -> M B) :
  (forall a, r = Ok a -> errKeeps (f a)) -> errKeeps (pure r ≫= f).
Proof.
  intros H s s' e. unfold mbind, M_bind, pure. destruct r; simpl.
  - apply H. done.
  - by intros [= <- _].
  - done.
Qed.

Lemma errKeeps_bind_get {B} (f : State -> M B) :
  (forall a, errKeeps (f a)) -> errKeeps (getState ≫= f).
Proof. intros H s s' e. unfold mbind, M_bind, getState. simpl. apply H. Qed.

Lemma neverErr_bind {A B} (m : M A) (f : A -> M B) :
  neverErr m -> (forall a, neverErr (f a)) -> neverErr (m ≫= f).
Proof.
  intros Hm Hf s e. unfold mbind, M_bind. specialize (Hm s).
  destruct (m s) as [s1 [a|e1|msg]]; simpl in *.
  - apply Hf.
  - by destruct (Hm e1).
  - done.
Qed.

Lemma neverErr_ret {A} (a : A) : neverErr (mret a : M A).
Proof. done. Qed.

Lemma neverErr_panic {A} msg : neverErr (panic msg : M A).
Proof. done. Qed.

Lemma neverErr_get : neverErr getState.
Proof. done. Qed.

Lemma neverErr_modify f : neverErr (modify f).
Proof. done. Qed.

Lemma neverErr_removeBonded a : neverErr (removeBonded a).
Proof. intros s e. unfold removeBonded. by destruct ValidatorSet_Remove. Qed.

Lemma neverErr_removeUnbonding a : neverErr (removeUnbonding a).
Proof. intros s e. unfold removeUnbonding. by destruct ValidatorSet_Remove. Qed.

Lemma neverErr_addBonded a : neverErr (addBonded a).
Proof. intros s e. unfold addBonded. by destruct ValidatorSet_Add. Qed.

Lemma neverErr_addUnbonding a : neverErr (addUnbonding a).
Proof. intros s e. unfold addUnbonding. by destruct ValidatorSet_Add. Qed.

Lemma neverErr_updateBonded a : neverErr (updateBonded a).
Proof. intros s e. unfold updateBonded. by destruct ValidatorSet_Update. Qed.

Lemma neverErr_SetValidatorInfo a : neverErr (SetValidatorInfo a).
Proof. done. Qed.

Lemma neverErr_UpdateAccounts a : neverErr (UpdateAccounts a).
Proof. done. Qed.

Lemma AdjustByInputs_neverErr accs ins e : AdjustByInputs accs ins <> Err e.
Proof.
  revert accs. induction ins as [|i ins IH]; intros accs; simpl; [done|].
  repeat case_match; first [done | apply IH].
Qed.

Lemma AdjustByOutputs_neverErr accs outs e : AdjustByOutputs accs outs <> Err e.
Proof.
  revert accs. induction outs as [|i ins IH]; intros accs; simpl; [done|].
  repeat case_match; first [done | apply IH].
Qed.

Lemma neverErr_pure {A} (r : outcome A) : (forall e, r <> Err e) -> neverErr (pure r).
Proof. intros H s e. simpl. apply H. Qed.

Lemma neverErr_AdjustByInputs accs ins : neverErr (pure (AdjustByInputs accs ins)).
Proof. apply neverErr_pure. intros e. apply AdjustByInputs_neverErr. Qed.

Lemma neverErr_AdjustByOutputs accs outs : neverErr (pure (AdjustByOutputs accs outs)).
Proof. apply neverErr_pure. intros e. apply AdjustByOutputs_neverErr. Qed.

Create HintDb never_err.

#[local] Hint Resolve neverErr_ret neverErr_panic neverErr_get neverErr_modify
  neverErr_removeBonded neverErr_removeUnbonding neverErr_addBonded
  neverErr_addUnbonding neverErr_updateBonded neverErr_SetValidatorInfo
  neverErr_UpdateAccounts neverErr_AdjustByInputs neverErr_AdjustByOutputs : never_err.

Ltac never_err :=
  repeat match goal with
    | |- neverErr (_ ≫= _) => apply neverErr_bind; [ | intros ? ]
    | |- neverErr (match ?x with _ => _ end) => destruct x
    | |- neverErr (if ?x then _ else _) => destruct x
    | |- neverErr _ => solve [ auto with never_err ]
    end.

Ltac err_keeps :=
  repeat match goal with
    | |- errKeeps (pure _ ≫= _) => apply errKeeps_bind_pure; intros ? ?
    | |- errKeeps (getState ≫= _) => apply errKeeps_bind_get; intros ?
    | |- errKeeps (pure _) => apply errKeeps_pure
    | |- errKeeps (match ?x with _ => _ end) => destruct x
    | |- errKeeps (if ?x then _ else _) => destruct x
    end.

Lemma neverErr_unbondValidator v : neverErr (unbondValidator v).
Proof. unfold unbondValidator. never_err. Qed.

Lemma neverErr_rebondValidator v : neverErr (rebondValidator v).
Proof. unfold rebondValidator. never_err. Qed.

Lemma neverErr_destroyValidator v : neverErr (destroyValidator v).
Proof. unfold destroyValidator. never_err. Qed.

Lemma neverErr_releaseValidator v : neverErr (releaseValidator P v).
Proof. unfold releaseValidator. never_err. Qed.

Lemma errKeeps_withTx (m : M unit) tx s s' tx' e :
  errKeeps m -> withTx tx m s = (s', tx', Err e) -> s' = s.
Proof.
  intros Hm. unfold withTx. destruct (m s) as [s1 r] eqn:E.
  intros [= -> _ ->]. by apply Hm in E.
Qed.

(** C3. Whenever [ExecTx] returns an error, for a transaction of any of the
    five kinds, the state it leaves is the state it was called on: the
    accounts, both validator sets and the validator records are unchanged
    (only the transaction may have been canonicalized). *)
Theorem ExecTx_error_state_unchanged tx s s' tx' e :
  ExecTx P tx s = (s', tx', Err e) -> s' = s.
Proof.
  destruct tx as [ins outs|ins outs pk|a h sg|a h sg|a va vb]; simpl.
  - destruct (GetOrMakeAccounts P s ins outs) as [ins' r].
    apply errKeeps_withTx. err_keeps. apply errKeeps_neverErr. never_err.
  - destruct (GetValidatorInfo s (PubKey_Address P pk)); [by intros [= <- _]|].
    destruct (GetOrMakeAccounts P s ins []) as [ins' r].
    apply errKeeps_withTx. err_keeps. apply errKeeps_neverErr. never_err.
  - apply errKeeps_withTx. err_keeps. apply errKeeps_neverErr, neverErr_unbondValidator.
  - apply errKeeps_withTx. err_keeps. apply errKeeps_neverErr, neverErr_rebondValidator.
  - apply errKeeps_withTx. err_keeps. apply errKeeps_neverErr, neverErr_destroyValidator.
Qed.

End ErrorsAndWrites.

(** A transaction that is rejected (scenario C of the specification, a send
    with a sequence number two ahead) leaves the state as it was. *)
Lemma ExecTx_error_state_unchanged_witness :
  fst (fst (ExecTx Scenario.primitives Scenario.replayTx Scenario.replayState))
  = Scenario.replayState.
Proof.
  apply (ExecTx_error_state_unchanged Scenario.primitives Scenario.replayTx
           Scenario.replayState _
           (snd (fst (ExecTx Scenario.primitives Scenario.replayTx Scenario.replayState)))
           ErrTxInvalidSequence).
  vm_compute. reflexivity.
Defined.

(** ** Lookups in validator sets *)

Lemma GetByAddress_removeByAddress addr vs :
  GetByAddress addr (removeByAddress addr vs) = None.
Proof.
  unfold removeByAddress. induction vs as [|w ws IH]; [done|].
  rewrite filter_cons. case_decide as E; simpl; [|done].
  rewrite (proj2 (bytes_eqb_neq _ _) E). done.
Qed.

Lemma GetByAddress_removeByAddress_ne a b vs :
  a <> b -> GetByAddress a (removeByAddress b vs) = GetByAddress a vs.
Proof.
  intros Hab. unfold removeByAddress. induction vs as [|w ws IH]; [done|].
  rewrite filter_cons. case_decide as E; simpl.
  - by rewrite IH.
  - rewrite IH. subst b. by rewrite (proj2 (bytes_eqb_neq _ _) (not_eq_sym Hab)).
Qed.

(** ** DupeoutTx *)

#[local] Arguments VerifyBytes : simpl never.

Ltac msimpl :=
  repeat (progress (unfold mbind, M_bind, mret, M_ret, pure, getState, modify, panic
                      in *; simpl in *)).

Section Dupeout.

Context (P : Primitives).

(** C9. When the bonded set has no validator at the address a [DupeoutTx]
    names, [ExecTx] returns no rejection error: the lookup yields [nil], the
    signature check dereferences it, and the call ends in the nil-pointer
    panic with the state untouched. *)
Theorem Dupeout_unknown_address_panics s address voteA voteB :
  GetByAddress address (BondedValidators s) = None ->
  ExecTx P (DupeoutTx address voteA voteB) s =
    (s, DupeoutTx address voteA voteB,
     Panic "runtime error: invalid memory address or nil pointer dereference").
Proof. intros H. unfold ExecTx, withTx. simpl. rewrite H. done. Qed.

(** C4. For a [DupeoutTx] whose accused is bonded (and, as every validator
    of a state, has its record in [validatorInfos]), whose two votes verify
    under the accused's key and have equal heights: if vote A is a commit
    and its round is below the round of vote B, [ExecTx] accepts, whatever
    the types, rounds and block hashes otherwise are; the record of the
    accused is stamped with [DestroyedHeight = LastBlockHeight + 1] and
    [DestroyedAmount = VotingPower], and the accused leaves the bonded set,
    which held it. *)
Theorem Dupeout_commit_special_case s address voteA voteB accused valInfo :
  GetByAddress address (BondedValidators s) = Some accused ->
  validatorInfos s !! address = Some valInfo ->
  ValidatorInfo_Address valInfo = address ->
  VerifyBytes P (Validator_PubKey accused) (Vote_SignBytes P voteA)
    (Vote_Signature voteA) = true ->
  VerifyBytes P (Validator_PubKey accused) (Vote_SignBytes P voteB)
    (Vote_Signature voteB) = true ->
  Vote_Height voteA = Vote_Height voteB ->
  Vote_Type voteA = VoteTypeCommit ->
  Vote_Round voteA < Vote_Round voteB ->
  exists s',
    ExecTx P (DupeoutTx address voteA voteB) s = (s', DupeoutTx address voteA voteB, Ok tt)
    /\ validatorInfos s' !! address =
         Some (setDestroyed (add64 (LastBlockHeight s) 1)
                 (Validator_VotingPower accused) valInfo)
    /\ (ValidatorInfo_DestroyedHeight <$> validatorInfos s' !! address)
       = Some (add64 (LastBlockHeight s) 1)
    /\ (ValidatorInfo_DestroyedAmount <$> validatorInfos s' !! address)
       = Some (Validator_VotingPower accused)
    /\ GetByAddress address (BondedValidators s') = None
    /\ UnbondingValidators s' = UnbondingValidators s
    /\ accounts s' = accounts s.
Proof.
  intros Hacc Hinfo Haddr HA HB Hh Ht Hr.
  destruct (GetByAddress_Some _ _ _ Hacc) as [Hva _].
  unfold ExecTx, withTx, destroyValidator. msimpl.
  rewrite Hacc. msimpl. rewrite HA, HB. msimpl.
  rewrite Hh, Z.eqb_refl. msimpl.
  rewrite Ht. rewrite bool_decide_eq_true_2 by done.
  rewrite (proj2 (Z.ltb_lt _ _) Hr). msimpl.
  unfold GetValidatorInfo. rewrite Hva, Hinfo. msimpl.
  unfold SetValidatorInfo, removeBonded, ValidatorSet_Remove. msimpl.
  rewrite Hacc. msimpl.
  eexists. split; [reflexivity|]. simpl.
  rewrite Haddr. rewrite lookup_insert_eq.
  split; [done|]. split; [done|]. split; [done|].
  split; [apply GetByAddress_removeByAddress|done].
Qed.

End Dupeout.

(** A dupeout that names an address outside the bonded set. *)
Lemma Dupeout_unknown_address_panics_witness :
  ExecTx Scenario.primitives
    (DupeoutTx (Scenario.addr x09) Scenario.commitVote Scenario.laterVote)
    (Scenario.twoValidators 5)
  = (Scenario.twoValidators 5,
     DupeoutTx (Scenario.addr x09) Scenario.commitVote Scenario.laterVote,
     Panic "runtime error: invalid memory address or nil pointer dereference").
Proof. apply Dupeout_unknown_address_panics. vm_compute. reflexivity. Defined.

(** A commit at round 0 and a prevote at round 1 for the same block hash
    destroy the validator that signed them: its record gets destroyed
    height 6 and destroyed amount 60. *)
Lemma Dupeout_commit_special_case_witness :
  exists s',
    ExecTx Scenario.primitives
      (DupeoutTx (Scenario.addr x01) Scenario.commitVote Scenario.laterVote)
      (Scenario.twoValidators 5)
    = (s', DupeoutTx (Scenario.addr x01) Scenario.commitVote Scenario.laterVote, Ok tt)
    /\ validatorInfos s' !! Scenario.addr x01 =
         Some (setDestroyed (add64 (LastBlockHeight (Scenario.twoValidators 5)) 1)
                 (Validator_VotingPower (Scenario.validator x01 60 0))
                 (Scenario.validatorInfo x01 []))
    /\ (ValidatorInfo_DestroyedHeight <$> validatorInfos s' !! Scenario.addr x01) = Some 6
    /\ (ValidatorInfo_DestroyedAmount <$> validatorInfos s' !! Scenario.addr x01) = Some 60
    /\ GetByAddress (Scenario.addr x01) (BondedValidators s') = None
    /\ UnbondingValidators s' = UnbondingValidators (Scenario.twoValidators 5)
    /\ accounts s' = accounts (Scenario.twoValidators 5).
Proof.
  apply (Dupeout_commit_special_case Scenario.primitives (Scenario.twoValidators 5)
           (Scenario.addr x01) Scenario.commitVote Scenario.laterVote
           (Scenario.validator x01 60 0) (Scenario.validatorInfo x01 []));
    vm_compute; reflexivity.
Defined.

(** ** The voting-power threshold of [AppendBlock] *)

Lemma wrap64_small x : 0 <= x < 2 ^ 64 -> wrap64 x = x.
Proof. intros H. unfold wrap64. by apply Z.mod_small. Qed.

Lemma wrap64_range x : 0 <= wrap64 x < 2 ^ 64.
Proof. unfold wrap64. apply Z.mod_pos_bound. done. Qed.

(** Where [TotalVotingPower * 2] does not overflow, the integer test of the
    code is the rational strict two-thirds threshold. *)
Lemma threshold_exact_without_overflow (sum total : Z) :
  0 <= 2 * total < 2 ^ 64 ->
  (sum <=? mul64 total 2 / 3) = false <-> 3 * sum > 2 * total.
Proof.
  intros H. unfold mul64. rewrite wrap64_small by lia.
  rewrite Z.leb_gt. split; intros K.
  - assert (total * 2 / 3 + 1 <= sum) by lia.
    pose proof (Z.mul_succ_div_gt (total * 2) 3 ltac:(lia)). lia.
  - apply Z.div_lt_upper_bound; lia.
Qed.

Lemma TotalVotingPower_range vs : 0 <= TotalVotingPower vs < 2 ^ 64.
Proof.
  unfold TotalVotingPower.
  assert (H : forall t0, 0 <= t0 < 2 ^ 64 ->
            0 <= foldl (fun t v => add64 t (Validator_VotingPower v)) t0 vs < 2 ^ 64).
  { induction vs as [|v vs IH]; intros t0 Ht; simpl; [done|].
    apply IH. unfold add64. apply wrap64_range. }
  apply H. lia.
Qed.

Section Threshold.
Context (P : Primitives).

(** Where twice the total voting power fits in 64 bits, a block above
    height 1 passes the validation of its commits only with more than two
    thirds of the total, and fails with the dedicated error otherwise. *)
Lemma validateValidation_two_thirds b s sum :
  Block_Height b <> 1 ->
  Z.of_nat (length (Block_Commits b)) = Size (BondedValidators s) ->
  sumCommits P b (BondedValidators s) 0 0 = Ok sum ->
  2 * TotalVotingPower (BondedValidators s) < 2 ^ 64 ->
  (validateValidation P b s = Ok tt
     <-> 3 * sum > 2 * TotalVotingPower (BondedValidators s))
  /\ (validateValidation P b s = Err (ErrNew "Insufficient validation voting power")
     <-> 3 * sum <= 2 * TotalVotingPower (BondedValidators s)).
Proof.
  intros Hh Hl Hs Ht. unfold validateValidation.
  rewrite (proj2 (Z.eqb_neq _ _) Hh). rewrite Hl, Z.eqb_refl. simpl.
  rewrite Hs. simpl.
  pose proof (TotalVotingPower_range (BondedValidators s)) as Hr.
  pose proof (threshold_exact_without_overflow sum (TotalVotingPower (BondedValidators s))
                ltac:(lia)) as Hx.
  destruct (sum <=? mul64 (TotalVotingPower (BondedValidators s)) 2 / 3).
  - assert (~ 3 * sum > 2 * TotalVotingPower (BondedValidators s)) as Hn
      by (intros H; by apply Hx in H).
    split; split; try done; intros; lia.
  - assert (3 * sum > 2 * TotalVotingPower (BondedValidators s)) as Hy by (by apply Hx).
    split; split; try done; intros; lia.
Qed.
End Threshold.

(** C1. The bonded powers are 1 and [2^63 - 1], and block 2 carries the
    commit of the first validator only.  The signed power 1 is not above
    two thirds of the total [2^63], yet [TotalVotingPower()*2] wraps around
    to 0 in 64 bits, the test [sum <= 0/3] fails and [AppendBlock] accepts
    the block. *)
Theorem AppendBlock_threshold_overflow :
  sumCommits Scenario.primitives Scenario.hugePowerBlock
    (BondedValidators Scenario.hugePowerState) 0%nat 0 = Ok 1
  /\ TotalVotingPower (BondedValidators Scenario.hugePowerState) = 2 ^ 63
  /\ ~ (3 * 1 > 2 * 2 ^ 63)
  /\ mul64 (TotalVotingPower (BondedValidators Scenario.hugePowerState)) 2 / 3 = 0
  /\ snd (AppendBlock Scenario.primitives Scenario.hugePowerBlock Scenario.noParts
            false Scenario.hugePowerState) = Ok tt.
Proof. repeat split; try (vm_compute; reflexivity). lia. Qed.

(** ** Conservation in [SendTx] *)

(** C7. One account holds the only coin.  A send of that coin to three
    outputs of [2^63], [2^63] and 1 coins is accepted: the output total
    wraps around to 1 in 64 bits and passes the test against the input
    total 1.  Afterwards the balances sum to [2^64 + 1]: the sum of all
    balances has grown by [2^64] instead of decreasing by
    [in_total - out_total]. *)
Theorem SendTx_output_total_overflow :
  ValidateOutputs Scenario.primitives
    [Scenario.output x0b (2 ^ 63); Scenario.output x0c (2 ^ 63); Scenario.output x0d 1]
    = Ok 1
  /\ snd (ExecTx Scenario.primitives Scenario.mintingTx Scenario.oneCoinState) = Ok tt
  /\ totalBalance (accounts Scenario.oneCoinState) = 1
  /\ totalBalance
       (accounts (fst (fst (ExecTx Scenario.primitives Scenario.mintingTx
                              Scenario.oneCoinState)))) = 2 ^ 64 + 1.
Proof. repeat split; vm_compute; reflexivity. Qed.

(** ** Commits and timeouts *)

Lemma replaceByAddress_lookup v vs (j : nat) :
  replaceByAddress v vs !! j =
    (fun w => if bytes_eqb (Validator_Address w) (Validator_Address v) then v else w)
      <$> vs !! j.
Proof. unfold replaceByAddress. apply list_lookup_fmap. Qed.

Lemma updateLastCommitHeights_keeps_marks h commits k s s' :
  updateLastCommitHeights h commits k s = (s', Ok tt) ->
  forall (j : nat) v,
    BondedValidators s !! j = Some v ->
    Validator_LastCommitHeight v = sub64 h 1 ->
    exists v', BondedValidators s' !! j = Some v'
               /\ Validator_LastCommitHeight v' = sub64 h 1.
Proof.
  revert k s. induction commits as [|c commits IH]; intros k s; simpl.
  - intros [= <-]. eauto.
  - destruct (Commit_IsZero c); [apply IH|]. msimpl.
    destruct (GetByIndex k (BondedValidators s)) as [val|] eqn:Ek; msimpl; [|done].
    unfold updateBonded, ValidatorSet_Update. simpl.
    destruct (GetByAddress (Validator_Address val) (BondedValidators s)) as [found|]; msimpl; [|done].
    intros H j v Hj Hv. eapply IH; [exact H| |].
    + simpl. rewrite replaceByAddress_lookup, Hj. simpl. reflexivity.
    + simpl. by destruct (bytes_eqb _ _).
Qed.

(** After the update of the commit heights, the validator found at the
    index of a non-zero commit has last commit height [height - 1]. *)
Lemma updateLastCommitHeights_marks h commits k s s' :
  updateLastCommitHeights h commits k s = (s', Ok tt) ->
  forall (i : nat) c,
    commits !! i = Some c -> Commit_IsZero c = false ->
    exists v, BondedValidators s' !! (k + i)%nat = Some v
              /\ Validator_LastCommitHeight v = sub64 h 1.
Proof.
  revert k s. induction commits as [|c0 commits IH]; intros k s H i c Hi Hc.
  - by rewrite lookup_nil in Hi.
  - simpl in H. destruct i as [|i]; simpl in Hi.
    + injection Hi as ->. rewrite Hc in H. msimpl.
      destruct (GetByIndex k (BondedValidators s)) as [val|] eqn:Ek; msimpl; [|done].
      unfold updateBonded, ValidatorSet_Update in H. simpl in H.
      destruct (GetByAddress (Validator_Address val) (BondedValidators s)) as [found|]; msimpl; [|done].
      rewrite Nat.add_0_r.
      eapply (updateLastCommitHeights_keeps_marks _ _ _ _ _ H k).
      * simpl. rewrite replaceByAddress_lookup. unfold GetByIndex in Ek. rewrite Ek. simpl.
        rewrite bytes_eqb_refl. reflexivity.
      * done.
    + replace (k + S i)%nat with (S k + i)%nat by lia.
      destruct (Commit_IsZero c0); [exact (IH (S k) _ H i c Hi Hc)|]. msimpl.
      destruct (GetByIndex k (BondedValidators s)) as [val|] eqn:Ek; msimpl; [|done].
      unfold updateBonded, ValidatorSet_Update in H. simpl in H.
      destruct (GetByAddress (Validator_Address val) (BondedValidators s)) as [found|]; msimpl; [|done].
      exact (IH (S k) _ H i c Hi Hc).
Qed.

(** Such a validator does not pass the timeout test of the same block, as
    long as the heights are far from the end of the 64-bit range. *)
Lemma marked_validator_not_timed_out h v :
  1 <= h -> h + validatorTimeoutBlocks <= 2 ^ 64 ->
  Validator_LastCommitHeight v = sub64 h 1 ->
  (add64 (Validator_LastCommitHeight v) validatorTimeoutBlocks <? h) = false.
Proof.
  unfold validatorTimeoutBlocks. intros H1 H2 ->. unfold sub64, add64.
  rewrite (wrap64_small (h - 1)) by lia. rewrite wrap64_small by lia.
  apply Z.ltb_ge. lia.
Qed.

(** C8. Validators [x02] and [x03] are bonded and both sign block 12:
    [AppendBlock] verifies the commit in slot 1 against [x03].  The block
    also bonds a new validator whose address sorts before both, so that when
    the commit heights are updated slot 0 is the new validator and slot 1 is
    [x02]: the last commit height of [x03] stays 1, and the timeout pass of
    the same [AppendBlock], which succeeds, moves [x03] to the unbonding
    set.  (The same block without the bond leaves [x03] bonded, with last
    commit height 11.) *)
Theorem AppendBlock_timeout_of_a_signer :
  let s := Scenario.shiftState in
  let b := Scenario.shiftBlock in
  let r := AppendBlock Scenario.primitives b Scenario.noParts false s in
  let r0 := AppendBlock Scenario.primitives (setTxs [] b) Scenario.noParts false s in
  GetByIndex 1 (BondedValidators s) = Some (Scenario.validator x03 40 1)
  /\ (Commit_IsZero <$> Block_Commits b !! 1%nat) = Some false
  /\ validateValidation Scenario.primitives b s = Ok tt
  /\ snd r = Ok tt
  /\ GetByAddress (Scenario.addr x03) (BondedValidators (fst (fst r))) = None
  /\ GetByAddress (Scenario.addr x03) (UnbondingValidators (fst (fst r)))
     = Some (setUnbondHeight 12 (Scenario.validator x03 40 1))
  /\ snd r0 = Ok tt
  /\ (Validator_LastCommitHeight
        <$> GetByAddress (Scenario.addr x03) (BondedValidators (fst (fst r0))))
     = Some 11.
Proof. repeat split; vm_compute; reflexivity. Qed.

(** ** Rules for the triples *)

Lemma hoare_bind {A B} Pre (m : M A) Mid (f : A -> M B) Post :
  hoare Pre m Mid -> (forall a, hoare (Mid a) (f a) Post) -> hoare Pre (m ≫= f) Post.
Proof.
  intros Hm Hf s s' b HP. unfold mbind, M_bind.
  destruct (m s) as [s1 [a|e|msg]] eqn:E; try done.
  intros H. eapply Hf; [|exact H]. eapply Hm; eauto.
Qed.

Lemma hoare_bind_pure {A B} Pre (r : outcome A) (f : A -> M B) Post :
  (forall a, r = Ok a -> hoare Pre (f a) Post) -> hoare Pre (pure r ≫= f) Post.
Proof.
  intros Hf s s' b HP. unfold mbind, M_bind, pure. destruct r; try done.
  intros H. eapply Hf; eauto.
Qed.

Lemma hoare_bind_get {B} Pre (f : State -> M B) Post :
  (forall s0, hoare (fun s => Pre s /\ s = s0) (f s0) Post) ->
  hoare Pre (getState ≫= f) Post.
Proof.
  intros Hf s s' b HP. unfold mbind, M_bind, getState. intros H.
  eapply Hf; eauto.
Qed.

Lemma hoare_bind_read {B} Pre (f : State -> M B) Post :
  (forall s0, Pre s0 -> hoare Pre (f s0) Post) -> hoare Pre (getState ≫= f) Post.
Proof.
  intros Hf s s' b HP. unfold mbind, M_bind, getState. intros H.
  eapply Hf; eauto.
Qed.

Lemma hoare_ret {A} (Pre : State -> Prop) (a : A) (Post : A -> State -> Prop) :
  (forall s, Pre s -> Post a s) -> hoare Pre (mret a) Post.
Proof. intros H s s' b HP [= <- <-]. by apply H. Qed.

Lemma hoare_panic {A} Pre msg (Post : A -> State -> Prop) : hoare Pre (panic msg) Post.
Proof. by intros s s' b HP. Qed.

Lemma hoare_pure_fail {A} Pre r (Post : A -> State -> Prop) :
  (forall a, r <> Ok a) -> hoare Pre (pure r) Post.
Proof. intros H s s' b HP [= _ ->]. by destruct (H b). Qed.

Lemma hoare_modify Pre f (Post : unit -> State -> Prop) :
  (forall s, Pre s -> Post tt (f s)) -> hoare Pre (modify f) Post.
Proof. intros H s s' [] HP [= <-]. by apply H. Qed.

Lemma hoare_weaken {A} (Pre Pre' : State -> Prop) (m : M A) (Post Post' : A -> State -> Prop) :
  hoare Pre' m Post' -> (forall s, Pre s -> Pre' s) ->
  (forall a s, Post' a s -> Post a s) -> hoare Pre m Post.
Proof. intros H H1 H2 s s' a HP E. eapply H2, H; eauto. Qed.

Lemma hoare_pre_fact {A} (Q : Prop) (Pre : State -> Prop) (m : M A) Post :
  (Q -> hoare Pre m Post) -> hoare (fun s => Pre s /\ Q) m Post.
Proof. intros H s s' a [HP HQ]. by apply H. Qed.

(** ** Voting powers stay positive *)
Lemma allPositive_remove a vs : allPositive vs -> allPositive (removeByAddress a vs).
Proof.
  unfold allPositive, removeByAddress. intros H.
  induction H; [constructor|]. rewrite filter_cons. case_decide; [constructor|]; done.
Qed.

Lemma allPositive_insert v vs :
  0 < Validator_VotingPower v -> allPositive vs -> allPositive (insertByAddress v vs).
Proof.
  unfold allPositive. intros Hv H. induction H; simpl; [by repeat constructor|].
  case_match; repeat constructor; done.
Qed.

Lemma allPositive_replace v vs :
  0 < Validator_VotingPower v -> allPositive vs -> allPositive (replaceByAddress v vs).
Proof.
  unfold allPositive, replaceByAddress. intros Hv H.
  apply Forall_fmap. eapply Forall_impl; [exact H|]. intros w Hw. simpl. by case_match.
Qed.

Lemma allPositive_GetByAddress a vs v :
  allPositive vs -> GetByAddress a vs = Some v -> 0 < Validator_VotingPower v.
Proof.
  intros H E. apply GetByAddress_Some in E as [_ E].
  unfold allPositive in H. rewrite Forall_forall in H. by apply H.
Qed.

Lemma allPositive_accumTick vs : allPositive vs -> allPositive (accumTick vs).
Proof.
  intros H. unfold accumTick.
  assert (K : allPositive
    (map (fun v => setAccum (wrapInt64 (Validator_Accum v + Validator_VotingPower v)) v) vs)).
  { unfold allPositive in *. apply Forall_fmap. eapply Forall_impl; [exact H|]. done. }
  destruct maxAccumIndex as [[i ?]|]; [|done].
  unfold allPositive in *. apply Forall_alter; [done|]. done.
Qed.

Lemma validateOutputsFrom_nonneg P outs t0 t :
  0 <= t0 -> validateOutputsFrom P outs t0 = Ok t -> 0 <= t.
Proof.
  revert t0. induction outs as [|o outs IH]; simpl; intros t0 H0.
  - by intros [= <-].
  - destruct TxOutput_ValidateBasic; [done|]. apply IH.
    unfold add64. apply wrap64_range.
Qed.

Section PositivePowers.
Context (P : Primitives).

Lemma pos_removeBonded a :
  hoare positivePowers (removeBonded a)
    (fun r s => positivePowers s /\ forall v, r = Some v -> 0 < Validator_VotingPower v).
Proof.
  intros s s' r [Hb Hu]. unfold removeBonded, ValidatorSet_Remove.
  destruct (GetByAddress a (BondedValidators s)) eqn:E; intros [= <- <-]; simpl.
  - split; [split; [by apply allPositive_remove|done]|].
    intros w [= <-]. exact (allPositive_GetByAddress _ _ _ Hb E).
  - split; [by split|done].
Qed.

Lemma pos_removeUnbonding a :
  hoare positivePowers (removeUnbonding a)
    (fun r s => positivePowers s /\ forall v, r = Some v -> 0 < Validator_VotingPower v).
Proof.
  intros s s' r [Hb Hu]. unfold removeUnbonding, ValidatorSet_Remove.
  destruct (GetByAddress a (UnbondingValidators s)) eqn:E; intros [= <- <-]; simpl.
  - split; [split; [done|by apply allPositive_remove]|].
    intros w [= <-]. exact (allPositive_GetByAddress _ _ _ Hu E).
  - split; [by split|done].
Qed.

Lemma pos_addBonded v :
  0 < Validator_VotingPower v -> keepsPositive (addBonded v).
Proof.
  intros Hv s s' r [Hb Hu]. unfold addBonded, ValidatorSet_Add.
  destruct GetByAddress; intros [= <- <-]; split; simpl; try done.
  by apply allPositive_insert.
Qed.

Lemma pos_addUnbonding v :
  0 < Validator_VotingPower v -> keepsPositive (addUnbonding v).
Proof.
  intros Hv s s' r [Hb Hu]. unfold addUnbonding, ValidatorSet_Add.
  destruct GetByAddress; intros [= <- <-]; split; simpl; try done.
  by apply allPositive_insert.
Qed.

Lemma pos_updateBonded v :
  0 < Validator_VotingPower v -> keepsPositive (updateBonded v).
Proof.
  intros Hv s s' r [Hb Hu]. unfold updateBonded, ValidatorSet_Update.
  destruct GetByAddress; intros [= <- <-]; split; simpl; try done.
  by apply allPositive_replace.
Qed.

Lemma pos_SetValidatorInfo i : keepsPositive (SetValidatorInfo i).
Proof. by intros s s' r H [= <- _]. Qed.

Lemma pos_UpdateAccounts a : keepsPositive (UpdateAccounts a).
Proof. by intros s s' r H [= <-]. Qed.

Lemma pos_unbondValidator v : keepsPositive (unbondValidator v).
Proof.
  unfold unbondValidator.
  eapply hoare_bind; [apply pos_removeBonded|]. intros [val|]; [|apply hoare_panic].
  apply hoare_pre_fact. intros Hv.
  apply hoare_bind_read. intros s0 _.
  eapply hoare_bind; [apply pos_addUnbonding; simpl; by apply Hv|].
  intros []; [|apply hoare_panic]. by apply hoare_ret.
Qed.

Lemma pos_rebondValidator v : keepsPositive (rebondValidator v).
Proof.
  unfold rebondValidator.
  eapply hoare_bind; [apply pos_removeUnbonding|]. intros [val|]; [|apply hoare_panic].
  apply hoare_pre_fact. intros Hv.
  apply hoare_bind_read. intros s0 _.
  eapply hoare_bind; [apply pos_addBonded; simpl; by apply Hv|].
  intros []; [|apply hoare_panic]. by apply hoare_ret.
Qed.

Lemma pos_forget {A} (m : M A) (Q : A -> Prop) :
  hoare positivePowers m (fun r s => positivePowers s /\ Q r) -> keepsPositive m.
Proof. intros H. eapply hoare_weaken; [exact H|done|]. by intros ? ? [? _]. Qed.

Lemma pos_destroyValidator v : keepsPositive (destroyValidator v).
Proof.
  unfold destroyValidator. apply hoare_bind_read. intros s0 _.
  destruct GetValidatorInfo; [|apply hoare_panic].
  eapply hoare_bind; [apply pos_SetValidatorInfo|]. intros ?.
  eapply hoare_bind; [eapply pos_forget, pos_removeBonded|]. intros [?|]; [by apply hoare_ret|].
  eapply hoare_bind; [eapply pos_forget, pos_removeUnbonding|].
  intros [?|]; [by apply hoare_ret|apply hoare_panic].
Qed.

Lemma pos_releaseValidator v : keepsPositive (releaseValidator P v).
Proof.
  unfold releaseValidator. apply hoare_bind_read. intros s0 _.
  destruct GetValidatorInfo; [|apply hoare_panic].
  eapply hoare_bind; [apply pos_SetValidatorInfo|]. intros ?.
  apply hoare_bind_read. intros s1 _.
  destruct (GetOrMakeAccounts _ _ _ _).2; try apply hoare_panic.
  apply hoare_bind_pure. intros accs _.
  eapply hoare_bind; [apply pos_UpdateAccounts|]. intros ?.
  eapply hoare_bind; [eapply pos_forget, pos_removeUnbonding|].
  intros [?|]; [by apply hoare_ret|apply hoare_panic].
Qed.

Lemma hoare_withTx Pre (m : M unit) Post tx s s' tx' :
  hoare Pre m (fun _ => Post) -> Pre s -> withTx tx m s = (s', tx', Ok tt) -> Post s'.
Proof.
  intros H HP. unfold withTx. destruct (m s) as [s1 r] eqn:E. intros [= -> _ ->].
  eapply H; eauto.
Qed.

Lemma ExecTx_positivePowers tx s s' tx' :
  positivePowers s -> bondsSomething P tx ->
  ExecTx P tx s = (s', tx', Ok tt) -> positivePowers s'.
Proof.
  intros Hs Hb.
  destruct tx as [ins outs|ins outs pk|a h sg|a h sg|a va vb]; simpl.
  - destruct (GetOrMakeAccounts P s ins outs) as [ins' r].
    apply hoare_withTx with (Pre := positivePowers); [|done].
    do 3 (apply hoare_bind_pure; intros ? _).
    case_match; [by apply hoare_pure_fail|].
    do 2 (apply hoare_bind_pure; intros ? _). apply pos_UpdateAccounts.
  - destruct (GetValidatorInfo s (PubKey_Address P pk)); [done|].
    destruct (GetOrMakeAccounts P s ins []) as [ins' r].
    apply hoare_withTx with (Pre := positivePowers); [|done].
    do 3 (apply hoare_bind_pure; intros ? _).
    apply hoare_bind_pure; intros outTotal Hout.
    case_match; [by apply hoare_pure_fail|].
    apply hoare_bind_pure; intros ? _.
    eapply hoare_bind; [apply pos_UpdateAccounts|]. intros ?.
    apply hoare_bind_read. intros s1 _.
    eapply hoare_bind; [apply pos_SetValidatorInfo|]. intros ?.
    eapply hoare_bind.
    + apply pos_addBonded. simpl. simpl in Hb.
      assert (0 <= outTotal) by (eapply validateOutputsFrom_nonneg; [|exact Hout]; done).
      assert (outTotal <> 0) by (intros ->; done). lia.
    + intros []; [by apply hoare_ret|apply hoare_panic].
  - apply hoare_withTx with (Pre := positivePowers); [|done].
    repeat case_match; try (by apply hoare_pure_fail). apply pos_unbondValidator.
  - apply hoare_withTx with (Pre := positivePowers); [|done].
    repeat case_match; try (by apply hoare_pure_fail). apply pos_rebondValidator.
  - apply hoare_withTx with (Pre := positivePowers); [|done].
    apply hoare_bind_pure; intros ? _.
    do 2 (case_match; [by apply hoare_pure_fail|]).
    apply hoare_bind_pure; intros ? _. apply pos_destroyValidator.
Qed.

Lemma execTxs_positivePowers txs s s' txs' :
  positivePowers s -> Forall (bondsSomething P) txs ->
  execTxs P txs s = (s', txs', Ok tt) -> positivePowers s'.
Proof.
  revert s txs'. induction txs as [|tx txs IH]; intros s txs' Hs Hb; simpl.
  - by intros [= <- _].
  - inversion_clear Hb as [|? ? Hb1 Hb2].
    destruct (ExecTx P tx s) as [[s1 tx1] [[]|e|msg]] eqn:E; try done.
    destruct (execTxs P txs s1) as [[s2 txs2] r] eqn:E2. intros [= <- _ ->].
    eapply IH; [|done|exact E2]. eapply ExecTx_positivePowers; eauto.
Qed.

Lemma pos_updateLastCommitHeights h commits i :
  keepsPositive (updateLastCommitHeights h commits i).
Proof.
  revert i. induction commits as [|c commits IH]; intros i; simpl.
  - by apply hoare_ret.
  - destruct (Commit_IsZero c); [apply IH|].
    apply hoare_bind_read. intros s0 Hs.
    destruct (GetByIndex i (BondedValidators s0)) as [val|] eqn:E; [|apply hoare_panic].
    assert (Hv : 0 < Validator_VotingPower val).
    { destruct Hs as [Hb _]. unfold allPositive in Hb. rewrite Forall_forall in Hb.
      apply Hb. eapply list_elem_of_lookup_2. exact E. }
    eapply hoare_bind; [by apply pos_updateBonded|].
    intros []; [apply IH|apply hoare_panic].
Qed.

Lemma pos_forEach {A} (f : A -> M unit) l :
  (forall a, keepsPositive (f a)) -> keepsPositive (forEach f l).
Proof.
  intros Hf. induction l as [|a l IH]; simpl; [by apply hoare_ret|].
  eapply hoare_bind; [apply Hf|]. intros ?. apply IH.
Qed.

Lemma allPositive_IncrementAccum n vs : allPositive vs -> allPositive (IncrementAccum n vs).
Proof. intros H. induction n; simpl; [done|]. by apply allPositive_accumTick. Qed.

Lemma pos_afterTxs b : keepsPositive (afterTxs P b).
Proof.
  unfold afterTxs.
  eapply hoare_bind; [apply pos_updateLastCommitHeights|]. intros ?.
  apply hoare_bind_read. intros s0 _.
  eapply hoare_bind; [apply pos_forEach, pos_releaseValidator|]. intros ?.
  apply hoare_bind_read. intros s1 _.
  eapply hoare_bind; [apply pos_forEach, pos_unbondValidator|]. intros ?.
  apply hoare_modify. intros s [Hb Hu]. split; simpl; [|done].
  by apply allPositive_accumTick.
Qed.

Lemma bindStateHash_validators b ph chk s s' b' r :
  bindStateHash P b ph chk s = (s', b', r) ->
  BondedValidators s' = BondedValidators s /\
  UnbondingValidators s' = UnbondingValidators s /\
  accounts s' = accounts s /\ validatorInfos s' = validatorInfos s.
Proof.
  unfold bindStateHash. repeat case_match; intros [= <- _ _]; done.
Qed.

Lemma AppendBlock_positivePowers b ph chk s s' b' :
  positivePowers s -> Forall (bondsSomething P) (Block_Txs b) ->
  AppendBlock P b ph chk s = (s', b', Ok tt) -> positivePowers s'.
Proof.
  intros Hs Hb. unfold AppendBlock.
  destruct Block_ValidateBasic; [done|].
  destruct validateValidation; try done.
  destruct (execTxs P (Block_Txs b) s) as [[s1 txs] [[]|e|msg]] eqn:E1; try done.
  destruct (afterTxs P (setTxs txs b) s1) as [s2 [[]|e|msg]] eqn:E2; try done.
  intros E3. apply bindStateHash_validators in E3 as (Hb3 & Hu3 & _).
  assert (positivePowers s2) as [? ?].
  { eapply pos_afterTxs; [|exact E2]. eapply execTxs_positivePowers; eauto. }
  split; congruence.
Qed.

Lemma GetByAddress_insertByAddress_eq v vs :
  GetByAddress (Validator_Address v) vs = None ->
  GetByAddress (Validator_Address v) (insertByAddress v vs) = Some v.
Proof.
  induction vs as [|w ws IH]; simpl.
  - by rewrite bytes_eqb_refl.
  - destruct (bytes_eqb (Validator_Address w) (Validator_Address v)) eqn:E; [done|].
    intros H. destruct (bytes_ltb (Validator_Address v) (Validator_Address w)); simpl.
    + by rewrite bytes_eqb_refl.
    + rewrite E. by apply IH.
Qed.

Lemma BondTx_voting_power ins unbondTo pubKey s s' tx' :
  ExecTx P (BondTx ins unbondTo pubKey) s = (s', tx', Ok tt) ->
  exists v,
    GetByAddress (PubKey_Address P pubKey) (BondedValidators s') = Some v
    /\ ValidateOutputs P unbondTo = Ok (Validator_VotingPower v).
Proof.
  simpl. destruct (GetValidatorInfo s (PubKey_Address P pubKey)); [done|].
  destruct (GetOrMakeAccounts P s ins []) as [ins' r].
  unfold withTx. msimpl.
  destruct r as [accs| |]; msimpl; try done.
  destruct (ValidateInputs P accs _ ins') as [inTotal| |]; msimpl; try done.
  destruct (PubKey_ValidateBasic P pubKey); msimpl; try done.
  destruct (ValidateOutputs P unbondTo) as [outTotal| |]; msimpl; try done.
  destruct (inTotal <? outTotal); msimpl; try done.
  destruct (AdjustByInputs accs ins') as [accs'| |]; msimpl; try done.
  unfold addBonded, ValidatorSet_Add. simpl.
  destruct (GetByAddress (PubKey_Address P pubKey) (BondedValidators s)) eqn:E;
    msimpl; [done|].
  intros [= <- _]. simpl.
  exists (mkValidator (PubKey_Address P pubKey) pubKey
            (add64 (LastBlockHeight s) 1) 0 0 outTotal 0).
  split; [|reflexivity].
  by apply (GetByAddress_insertByAddress_eq
              (mkValidator (PubKey_Address P pubKey) pubKey
                 (add64 (LastBlockHeight s) 1) 0 0 outTotal 0)).
Qed.
(** C5 (as amended). The validator that an accepted [BondTx] inserts has
    as voting power the total of the [unbond_to] amounts in 64 bits.  In a
    state all of whose validators, bonded and unbonding, have a strictly
    positive voting power, [ExecTx] and [AppendBlock] lead, when they
    succeed, to a state with the same property, provided no transaction
    executed is a [BondTx] whose [unbond_to] amounts total 0 in 64 bits. *)
Theorem positivePowers_preserved s :
  positivePowers s ->
  (forall ins unbondTo pubKey s' tx',
      ExecTx P (BondTx ins unbondTo pubKey) s = (s', tx', Ok tt) ->
      exists v,
        GetByAddress (PubKey_Address P pubKey) (BondedValidators s') = Some v
        /\ ValidateOutputs P unbondTo = Ok (Validator_VotingPower v))
  /\ (forall tx s' tx',
      bondsSomething P tx ->
      ExecTx P tx s = (s', tx', Ok tt) -> positivePowers s')
  /\ (forall b blockPartsHeader checkStateHash s' b',
      Forall (bondsSomething P) (Block_Txs b) ->
      AppendBlock P b blockPartsHeader checkStateHash s = (s', b', Ok tt) ->
      positivePowers s').
Proof.
  intros Hs. split; [|split].
  - intros ins unbondTo pubKey s' tx' E. eapply BondTx_voting_power; eauto.
  - intros tx s' tx' Hb E. eapply ExecTx_positivePowers; eauto.
  - intros b ph chk s' b' Hb E. eapply AppendBlock_positivePowers; eauto.
Qed.

End PositivePowers.

(** Block 12 of the scenario of C8 bonds a validator with 10 coins: all
    voting powers are positive afterwards. *)
Lemma positivePowers_preserved_witness :
  positivePowers
    (fst (fst (AppendBlock Scenario.primitives Scenario.shiftBlock Scenario.noParts
                 false Scenario.shiftState))).
Proof.
  assert (Hs : positivePowers Scenario.shiftState).
  { split; repeat constructor. }
  apply (proj2 (proj2 (positivePowers_preserved Scenario.primitives Scenario.shiftState Hs))
           Scenario.shiftBlock Scenario.noParts false _
           (snd (fst (AppendBlock Scenario.primitives Scenario.shiftBlock
                        Scenario.noParts false Scenario.shiftState)))).
  - repeat constructor. simpl. vm_compute. discriminate.
  - vm_compute. reflexivity.
Defined.

(** C5 (as stated) fails: a [BondTx] with an empty [unbond_to] list is
    accepted in a state without validators and bonds a validator of voting
    power 0. *)
Lemma BondTx_zero_voting_power :
  ~ (forall (P : Primitives) tx s s' tx',
       positivePowers s -> ExecTx P tx s = (s', tx', Ok tt) -> positivePowers s').
Proof.
  intros H.
  pose proof (H Scenario.primitives Scenario.emptyBondTx Scenario.emptyBondState
                (fst (fst (ExecTx Scenario.primitives Scenario.emptyBondTx
                             Scenario.emptyBondState)))
                (snd (fst (ExecTx Scenario.primitives Scenario.emptyBondTx
                             Scenario.emptyBondState)))
                ltac:(split; constructor) ltac:(vm_compute; reflexivity)) as [Hb _].
  vm_compute in Hb. inversion Hb as [|? ? Hv _]. discriminate Hv.
Qed.

(** ** Duplicate addresses in [UnbondTo] *)

Lemma getOrMakeOutputs_no_panic s outs accs msg :
  getOrMakeOutputs s outs accs <> Panic msg.
Proof.
  revert accs. induction outs as [|o outs IH]; intros accs; simpl; [done|].
  destruct (accs !! TxOutput_Address o); [done|apply IH].
Qed.

Lemma getOrMakeOutputs_duplicate s outs accs :
  (exists o, o ∈ outs /\ is_Some (accs !! TxOutput_Address o))
  \/ ~ NoDup (map TxOutput_Address outs) ->
  getOrMakeOutputs s outs accs = Err ErrTxDuplicateAddress.
Proof.
  revert accs. induction outs as [|o outs IH]; intros accs H; simpl.
  - destruct H as [(o & Ho & _)|H]; [by apply elem_of_nil in Ho|].
    destruct H. constructor.
  - destruct (accs !! TxOutput_Address o) eqn:E; [done|].
    apply IH. destruct H as [(o' & Ho' & Hs)|H].
    + apply elem_of_cons in Ho' as [->|Ho'].
      * rewrite E in Hs. by destruct Hs.
      * left. exists o'. split; [done|].
        destruct (decide (TxOutput_Address o = TxOutput_Address o')) as [Heq|Hne].
        -- rewrite <- Heq, lookup_insert_eq. done.
        -- by rewrite lookup_insert_ne.
    + destruct (decide (TxOutput_Address o ∈ map TxOutput_Address outs)) as [Hin|Hnin].
      * left. apply list_elem_of_fmap in Hin as (o' & Heq & Ho').
        exists o'. split; [done|]. rewrite <- Heq, lookup_insert_eq. done.
      * right. intros Hnd. apply H. simpl. by constructor.
Qed.

Section DuplicateUnbondTo.

Context (P : Primitives).

Lemma releaseValidator_duplicate val s info :
  validatorInfos s !! Validator_Address val = Some info ->
  ~ NoDup (map TxOutput_Address (ValidatorInfo_UnbondTo info)) ->
  exists s', releaseValidator P val s
             = (s', Panic "Couldn't get or make unbondTo accounts")
             /\ accounts s' = accounts s
             /\ UnbondingValidators s' = UnbondingValidators s.
Proof.
  intros Hi Hd. unfold releaseValidator, GetValidatorInfo. msimpl. rewrite Hi. msimpl.
  unfold GetOrMakeAccounts. simpl. msimpl.
  rewrite getOrMakeOutputs_duplicate by (right; exact Hd). msimpl.
  eexists. split; [reflexivity|]. done.
Qed.

Lemma releaseValidator_keeps_duplicate a w :
  hoare (fun s => infosWf s /\ duplicateUnbondTo a s) (releaseValidator P w)
        (fun _ s => infosWf s /\ duplicateUnbondTo a s).
Proof.
  intros s s' [] [Hwf (i & Hi & Hd)].
  unfold releaseValidator, GetValidatorInfo. msimpl.
  destruct (validatorInfos s !! Validator_Address w) as [iw|] eqn:Ew; msimpl; [|done].
  unfold GetOrMakeAccounts. simpl. msimpl.
  destruct (getOrMakeOutputs _ (ValidatorInfo_UnbondTo iw) ∅) as [accs| |] eqn:Eg; msimpl;
    try done.
  destruct (AdjustByOutputs accs (ValidatorInfo_UnbondTo iw)); msimpl; try done.
  unfold removeUnbonding. destruct ValidatorSet_Remove as [vs [v|]]; msimpl; [|done].
  intros [= <-].
  assert (Hne : Validator_Address w <> a).
  { intros Heq. rewrite Heq, Hi in Ew. injection Ew as <-.
    rewrite getOrMakeOutputs_duplicate in Eg by (right; exact Hd). done. }
  pose proof (Hwf _ _ Ew) as Haw.
  split.
  - intros k j. simpl. rewrite Haw.
    destruct (decide (Validator_Address w = k)) as [<-|Hk].
    + rewrite lookup_insert_eq. intros [= <-]. done.
    + rewrite lookup_insert_ne by done. apply Hwf.
  - exists i. simpl. rewrite Haw. rewrite lookup_insert_ne by done. done.
Qed.

Lemma forEach_cons {A} (f : A -> M unit) a l s :
  forEach f (a :: l) s =
    match f a s with
    | (s1, Ok _) => forEach f l s1
    | (s1, Err e) => (s1, Err e)
    | (s1, Panic msg) => (s1, Panic msg)
    end.
Proof. reflexivity. Qed.

Lemma forEach_release_panics l val s :
  val ∈ l -> infosWf s -> duplicateUnbondTo (Validator_Address val) s ->
  exists s' msg, forEach (releaseValidator P) l s = (s', Panic msg).
Proof.
  revert s. induction l as [|w l IH]; intros s Hin Hwf Hd.
  - by apply elem_of_nil in Hin.
  - rewrite forEach_cons.
    destruct (releaseValidator P w s) as [s1 [[]|e|msg]] eqn:E.
    + apply elem_of_cons in Hin as [->|Hin].
      * destruct Hd as (i & Hi & Hd).
        destruct (releaseValidator_duplicate _ _ _ Hi Hd) as (s2 & E2 & _).
        rewrite E2 in E. done.
      * destruct (releaseValidator_keeps_duplicate (Validator_Address val) w s s1 tt)
          as [Hwf1 Hd1]; [done|done|].
        by apply IH.
    + pose proof (neverErr_releaseValidator P w s e) as H. rewrite E in H. done.
    + eauto.
Qed.

Lemma updateLastCommitHeights_frame h commits i s s' r :
  updateLastCommitHeights h commits i s = (s', r) ->
  UnbondingValidators s' = UnbondingValidators s
  /\ validatorInfos s' = validatorInfos s
  /\ accounts s' = accounts s
  /\ LastBlockHeight s' = LastBlockHeight s.
Proof.
  revert i s. induction commits as [|c commits IH]; intros i s; simpl.
  - by intros [= <- _].
  - destruct (Commit_IsZero c); [apply IH|]. msimpl.
    destruct (GetByIndex i (BondedValidators s)) as [val|]; msimpl; [|by intros [= <- _]].
    unfold updateBonded. destruct ValidatorSet_Update as [vs []]; msimpl.
    + intros E. apply IH in E. done.
    + by intros [= <- _].
Qed.

Lemma neverErr_updateLastCommitHeights h commits i :
  neverErr (updateLastCommitHeights h commits i).
Proof.
  revert i. induction commits as [|c cs IH]; intros i; simpl.
  - apply neverErr_ret.
  - destruct (Commit_IsZero c); [apply IH|].
    apply neverErr_bind; [apply neverErr_get|]. intros s0.
    destruct GetByIndex; [|apply neverErr_panic].
    apply neverErr_bind; [apply neverErr_updateBonded|].
    intros []; [apply IH|apply neverErr_panic].
Qed.

Lemma afterTxs_duplicate_panics b s val :
  infosWf s ->
  val ∈ UnbondingValidators s ->
  add64 (Validator_UnbondHeight val) unbondingPeriodBlocks < Block_Height b ->
  duplicateUnbondTo (Validator_Address val) s ->
  exists s' msg, afterTxs P b s = (s', Panic msg).
Proof.
  intros Hwf Hin Hg Hd. unfold afterTxs. msimpl.
  destruct (updateLastCommitHeights (Block_Height b) (Block_Commits b) 0 s)
    as [s1 [[]|e|msg]] eqn:E1.
  - apply updateLastCommitHeights_frame in E1 as (Hu & Hi & _).
    destruct (forEach_release_panics (toRelease (Block_Height b) s1) val s1)
      as (s2 & msg & E2).
    + unfold toRelease. rewrite Hu. apply list_elem_of_filter. split; [|done].
      apply Is_true_true, Z.ltb_lt. done.
    + unfold infosWf. by rewrite Hi.
    + unfold duplicateUnbondTo. by rewrite Hi.
    + rewrite E2. eauto.
  - pose proof (neverErr_updateLastCommitHeights (Block_Height b) (Block_Commits b) 0) as Hn.
    specialize (Hn s e). rewrite E1 in Hn. done.
  - eauto.
Qed.

Lemma AppendBlock_duplicate_panics b ph chk s s1 txs val :
  Block_ValidateBasic P b (LastBlockHeight s) (LastBlockHash s) (LastBlockParts s)
    (LastBlockTime s) = None ->
  validateValidation P b s = Ok tt ->
  execTxs P (Block_Txs b) s = (s1, txs, Ok tt) ->
  infosWf s1 ->
  val ∈ UnbondingValidators s1 ->
  add64 (Validator_UnbondHeight val) unbondingPeriodBlocks < Block_Height b ->
  duplicateUnbondTo (Validator_Address val) s1 ->
  exists s' b' msg, AppendBlock P b ph chk s = (s', b', Panic msg).
Proof.
  intros Hvb Hvv Htx Hwf Hin Hg Hd. unfold AppendBlock. rewrite Hvb, Hvv, Htx.
  destruct (afterTxs_duplicate_panics (setTxs txs b) s1 val Hwf Hin Hg Hd)
    as (s2 & msg & E).
  rewrite E. eauto.
Qed.

Lemma validateOutputsFrom_Err outs t e :
  validateOutputsFrom P outs t = Err e ->
  exists o, o ∈ outs /\ TxOutput_ValidateBasic P o = Some e.
Proof.
  revert t. induction outs as [|o outs IH]; intros t; simpl; [done|].
  destruct (TxOutput_ValidateBasic P o) as [e'|] eqn:E.
  - intros [= <-]. exists o. split; [left|done].
  - intros H. destruct (IH _ H) as (o' & Ho' & He). exists o'. split; [by right|done].
Qed.

Lemma validateOutputsFrom_no_panic outs t msg :
  validateOutputsFrom P outs t <> Panic msg.
Proof.
  revert t. induction outs as [|o outs IH]; intros t; simpl; [done|].
  destruct (TxOutput_ValidateBasic P o); [done|apply IH].
Qed.

Lemma BondTx_rejections s ins unbondTo pubKey s' tx' e :
  ExecTx P (BondTx ins unbondTo pubKey) s = (s', tx', Err e) ->
  bondRejection P s ins unbondTo pubKey e.
Proof.
  unfold bondRejection. simpl.
  destruct (GetValidatorInfo s (PubKey_Address P pubKey)) eqn:Ei; [by left|].
  destruct (GetOrMakeAccounts P s ins []) as [ins' r] eqn:Eg. simpl.
  unfold withTx. msimpl.
  destruct r as [accs|e0|msg]; msimpl; [|intros [= _ _ <-]; by right; left|done].
  destruct (ValidateInputs P accs _ ins') as [inTotal|e0|msg] eqn:Ev; msimpl;
    [|intros [= _ _ <-]; right; right; left; eauto|done].
  destruct (PubKey_ValidateBasic P pubKey) as [e0|] eqn:Ep; msimpl;
    [intros [= _ _ <-]; by right; right; right; left|].
  destruct (ValidateOutputs P unbondTo) as [outTotal|e0|msg] eqn:Eo; msimpl;
    [| |done].
  - destruct (inTotal <? outTotal) eqn:El; msimpl.
    + intros [= _ _ <-]. do 5 right. split; [done|].
      exists accs, inTotal, outTotal. apply Z.ltb_lt in El. done.
    + destruct (AdjustByInputs accs ins') as [accs'|e0|msg] eqn:Ea; msimpl;
        [|by apply AdjustByInputs_neverErr in Ea|done].
      unfold addBonded. destruct ValidatorSet_Add as [vs []]; msimpl; done.
  - intros [= _ _ <-]. do 4 right. left. by apply validateOutputsFrom_Err in Eo.
Qed.

(** C10. (i) [ExecTx] rejects a [BondTx] only for one of the reasons of
    [bondRejection], none of which compares the addresses of two
    [unbond_to] outputs: the outputs are checked one by one and
    [GetOrMakeAccounts] sees the inputs only.  (ii) [releaseValidator]
    panics with "Couldn't get or make unbondTo accounts" for a validator
    whose record lists an address twice in [UnbondTo].  (iii) So
    [AppendBlock] panics, and returns no error, when its release pass is
    reached with such a validator due for release. *)
Theorem duplicate_unbond_to_release_panics :
  (forall s ins unbondTo pubKey s' tx' e,
      ExecTx P (BondTx ins unbondTo pubKey) s = (s', tx', Err e) ->
      bondRejection P s ins unbondTo pubKey e)
  /\ (forall val s,
      duplicateUnbondTo (Validator_Address val) s ->
      exists s', releaseValidator P val s
                 = (s', Panic "Couldn't get or make unbondTo accounts"))
  /\ (forall b blockPartsHeader checkStateHash s s1 txs val,
      Block_ValidateBasic P b (LastBlockHeight s) (LastBlockHash s) (LastBlockParts s)
        (LastBlockTime s) = None ->
      validateValidation P b s = Ok tt ->
      execTxs P (Block_Txs b) s = (s1, txs, Ok tt) ->
      infosWf s1 ->
      val ∈ UnbondingValidators s1 ->
      add64 (Validator_UnbondHeight val) unbondingPeriodBlocks < Block_Height b ->
      duplicateUnbondTo (Validator_Address val) s1 ->
      exists s' b' msg,
        AppendBlock P b blockPartsHeader checkStateHash s = (s', b', Panic msg)).
Proof.
  split; [|split].
  - apply BondTx_rejections.
  - intros val s (i & Hi & Hd).
    destruct (releaseValidator_duplicate val s i Hi Hd) as (s' & E & _). eauto.
  - intros. eapply AppendBlock_duplicate_panics; eauto.
Qed.

End DuplicateUnbondTo.

(** A bond with twice the same [unbond_to] address is accepted, and the
    block in which the validator so bonded is due for release makes
    [AppendBlock] panic. *)
Lemma duplicate_unbond_to_release_panics_witness :
  snd (ExecTx Scenario.primitives Scenario.dupBondTx
         (Scenario.state 1 [] [] [Scenario.account x0a 0 100] [])) = Ok tt
  /\ exists s' b' msg,
       AppendBlock Scenario.primitives (Scenario.nextBlock 525602) Scenario.noParts false
         (Scenario.dupUnbondedState 525601) = (s', b', Panic msg).
Proof.
  split; [vm_compute; reflexivity|].
  apply (proj2 (proj2 (duplicate_unbond_to_release_panics Scenario.primitives))
           (Scenario.nextBlock 525602) Scenario.noParts false
           (Scenario.dupUnbondedState 525601) (Scenario.dupUnbondedState 525601) []
           (setUnbondHeight 1 (Scenario.validator x02 40 0))).
  - vm_compute. reflexivity.
  - vm_compute. reflexivity.
  - reflexivity.
  - apply (bool_decide_unpack _). vm_compute. exact I.
  - left.
  - vm_compute. reflexivity.
  - eexists. split; [vm_compute; reflexivity|].
    apply (bool_decide_unpack _). vm_compute. exact I.
Defined.

(** ** The accounts after a release *)

Lemma getOrMakeOutputs_lookup s outs accs0 accs :
  getOrMakeOutputs s outs accs0 = Ok accs ->
  NoDup (map TxOutput_Address outs)
  /\ forall k : bytes, accs !! k =
       if decide (k ∈ map TxOutput_Address outs)
       then Some (default (newAccount k) (accounts s !! k))
       else accs0 !! k.
Proof.
  revert accs0. induction outs as [|o outs IH]; intros accs0 H; simpl in H.
  - injection H as <-. split; [constructor|]. intros k.
    rewrite decide_False; [done|]. apply not_elem_of_nil.
  - destruct (accs0 !! TxOutput_Address o) eqn:E0; [done|]. rewrite fmap_cons.
    destruct (decide (TxOutput_Address o ∈ map TxOutput_Address outs)) as [Hin|Hnin].
    { rewrite getOrMakeOutputs_duplicate in H; [done|]. left.
      apply list_elem_of_fmap in Hin as (o' & Heq & Ho').
      exists o'. split; [done|]. rewrite <- Heq, lookup_insert_eq. done. }
    apply IH in H as [Hnd Hl]. split; [by constructor|].
    intros k. rewrite Hl. unfold GetAccount, newAccount.
    destruct (decide (k = TxOutput_Address o)) as [->|Hne].
    + rewrite decide_False by done. rewrite decide_True by left.
      rewrite lookup_insert_eq. by destruct (accounts s !! TxOutput_Address o).
    + rewrite lookup_insert_ne by done.
      destruct (decide (k ∈ map TxOutput_Address outs)) as [Hk|Hk].
      * rewrite decide_True by (by right). done.
      * rewrite decide_False; [done|]. intros Hk'. apply elem_of_cons in Hk' as [?|?]; done.
Qed.

Lemma AdjustByOutputs_lookup accs outs accs' :
  AdjustByOutputs accs outs = Ok accs' ->
  NoDup (map TxOutput_Address outs) ->
  forall k : bytes, accs' !! k =
    if decide (k ∈ map TxOutput_Address outs)
    then credit (amountTo k outs) <$> accs !! k
    else accs !! k.
Proof.
  revert accs. induction outs as [|o outs IH]; intros accs H Hnd; simpl in H.
  - injection H as <-. intros k. rewrite decide_False; [done|]. apply not_elem_of_nil.
  - destruct (accs !! TxOutput_Address o) as [acc|] eqn:E; [|done].
    rewrite fmap_cons in *. apply NoDup_cons in Hnd as [Hnin Hnd].
    intros k. rewrite (IH _ H Hnd k). cbn [amountTo].
    destruct (decide (k = TxOutput_Address o)) as [->|Hne].
    + rewrite decide_False by done. rewrite decide_True by left.
      rewrite lookup_insert_eq, E. rewrite (decide_True (P := _ = _)) by done. done.
    + rewrite lookup_insert_ne by done. rewrite (decide_False (P := _ = k)) by done.
      destruct (decide (k ∈ map TxOutput_Address outs)) as [Hk|Hk].
      * rewrite decide_True by (by right). done.
      * rewrite decide_False; [done|]. intros Hk'. apply elem_of_cons in Hk' as [?|?]; done.
Qed.

Lemma creditOutputs_lookup outs t :
  NoDup (map TxOutput_Address outs) ->
  forall k : bytes, creditOutputs outs t !! k =
    if decide (k ∈ map TxOutput_Address outs)
    then Some (credit (amountTo k outs) (default (newAccount k) (t !! k)))
    else t !! k.
Proof.
  unfold creditOutputs. revert t. induction outs as [|o outs IH]; intros t Hnd.
  - intros k. rewrite decide_False; [done|]. apply not_elem_of_nil.
  - rewrite fmap_cons in *. apply NoDup_cons in Hnd as [Hnin Hnd]. intros k.
    cbn [foldl]. rewrite (IH _ Hnd k).
    unfold creditOutput. cbn [amountTo].
    destruct (decide (k = TxOutput_Address o)) as [->|Hne].
    + rewrite decide_False by done. rewrite decide_True by left.
      rewrite lookup_insert_eq. rewrite (decide_True (P := _ = _)) by done. done.
    + rewrite lookup_insert_ne by done. rewrite (decide_False (P := _ = k)) by done.
      destruct (decide (k ∈ map TxOutput_Address outs)) as [Hk|Hk].
      * rewrite decide_True by (by right). done.
      * rewrite decide_False; [done|]. intros Hk'. apply elem_of_cons in Hk' as [?|?]; done.
Qed.

Lemma UpdateAccounts_union (accs t : gmap bytes Account) :
  map_Forall (fun k acc => Account_Address acc = k) accs ->
  map_fold (fun _ acc t => <[Account_Address acc := acc]> t) t accs = accs ∪ t.
Proof.
  revert accs.
  apply (map_fold_weak_ind
           (fun r m => map_Forall (fun k acc => Account_Address acc = k) m -> r = m ∪ t)).
  - intros _. by rewrite (left_id_L ∅ (∪)).
  - intros i x m r Hi IH Hwf.
    rewrite (Hwf i x) by apply lookup_insert_eq.
    rewrite IH.
    + by rewrite insert_union_l.
    + intros k acc Hk. apply Hwf. rewrite lookup_insert_ne; [done|]. by intros ->; rewrite Hi in Hk.
Qed.

Lemma release_accounts s outs accs accs' :
  accountsWf s ->
  getOrMakeOutputs s outs ∅ = Ok accs ->
  AdjustByOutputs accs outs = Ok accs' ->
  map_fold (fun _ acc t => <[Account_Address acc := acc]> t) (accounts s) accs'
  = creditOutputs outs (accounts s)
  /\ map_Forall (fun k acc => Account_Address acc = k) (creditOutputs outs (accounts s)).
Proof.
  intros Hwf Hg Ha. apply getOrMakeOutputs_lookup in Hg as [Hnd Hg].
  pose proof (AdjustByOutputs_lookup _ _ _ Ha Hnd) as Hl.
  assert (Hwf' : map_Forall (fun k acc => Account_Address acc = k) accs').
  { intros k acc. rewrite Hl, Hg. case_decide; [|by rewrite lookup_empty].
    simpl. intros [= <-]. simpl.
    destruct (accounts s !! k) eqn:E; simpl; [by apply Hwf in E|done]. }
  rewrite UpdateAccounts_union by done.
  assert (Heq : accs' ∪ accounts s = creditOutputs outs (accounts s)).
  { apply map_eq. intros k. rewrite creditOutputs_lookup by done.
    rewrite lookup_union, Hl, Hg. case_decide; simpl.
    - by destruct (accounts s !! k).
    - rewrite lookup_empty. by destruct (accounts s !! k). }
  split; [done|]. rewrite <- Heq.
  intros k acc Hk. apply lookup_union_Some_raw in Hk as [Hk|[_ Hk]].
  - by apply Hwf' in Hk.
  - by apply Hwf in Hk.
Qed.

(** ** The release of unbonding validators *)

Lemma GetByAddress_None a vs :
  GetByAddress a vs = None <-> forall w, w ∈ vs -> Validator_Address w <> a.
Proof.
  induction vs as [|v vs IH]; simpl.
  - split; [|done]. intros _ w Hw. by apply elem_of_nil in Hw.
  - destruct (bytes_eqb (Validator_Address v) a) eqn:E.
    + apply bytes_eqb_eq in E. split; [done|]. intros H. destruct (H v); [left|done].
    + apply bytes_eqb_neq in E. rewrite IH. split.
      * intros H w Hw. apply elem_of_cons in Hw as [->|Hw]; [done|by apply H].
      * intros H w Hw. apply H. by right.
Qed.

Lemma GetByAddress_insertByAddress_ne a v vs :
  Validator_Address v <> a ->
  GetByAddress a (insertByAddress v vs) = GetByAddress a vs.
Proof.
  intros Hne. induction vs as [|w ws IH]; simpl.
  - by rewrite (proj2 (bytes_eqb_neq _ _) Hne).
  - destruct (bytes_ltb (Validator_Address v) (Validator_Address w)); simpl.
    + by rewrite (proj2 (bytes_eqb_neq _ _) Hne).
    + by rewrite IH.
Qed.

Lemma GetByAddress_replaceByAddress_None a v vs :
  Validator_Address v <> a ->
  GetByAddress a vs = None -> GetByAddress a (replaceByAddress v vs) = None.
Proof.
  intros Hne. rewrite !GetByAddress_None. intros H w Hw.
  unfold replaceByAddress in Hw. apply list_elem_of_fmap in Hw as (u & -> & Hu).
  destruct (bytes_eqb (Validator_Address u) (Validator_Address v)); [done|by apply H].
Qed.

Section ReleasePass.
Context (P : Primitives).

Lemma releaseValidator_Ok w s s' :
  infosWf s -> accountsWf s -> releaseValidator P w s = (s', Ok tt) ->
  exists iw v,
    validatorInfos s !! Validator_Address w = Some iw
    /\ GetByAddress (Validator_Address w) (UnbondingValidators s) = Some v
    /\ s' = mkState (DB s) (LastBlockHeight s) (LastBlockHash s) (LastBlockParts s)
              (LastBlockTime s) (BondedValidators s)
              (removeByAddress (Validator_Address w) (UnbondingValidators s))
              (creditOutputs (ValidatorInfo_UnbondTo iw) (accounts s))
              (<[Validator_Address w :=
                   setReleasedHeight (add64 (LastBlockHeight s) 1) iw]> (validatorInfos s)).
Proof.
  intros Hwf Hawf. unfold releaseValidator, GetValidatorInfo. msimpl.
  destruct (validatorInfos s !! Validator_Address w) as [iw|] eqn:Ew; msimpl; [|done].
  unfold GetOrMakeAccounts. simpl. msimpl.
  destruct (getOrMakeOutputs _ (ValidatorInfo_UnbondTo iw) ∅) as [accs| |] eqn:Eg; msimpl;
    try done.
  destruct (AdjustByOutputs accs (ValidatorInfo_UnbondTo iw)) as [accs'| |] eqn:Ea; msimpl;
    try done.
  unfold removeUnbonding, ValidatorSet_Remove. simpl.
  destruct (GetByAddress (Validator_Address w) (UnbondingValidators s)) as [v|] eqn:Ev;
    msimpl; [|done].
  intros [= <-]. exists iw, v. split; [done|]. split; [done|].
  pose proof (Hwf _ _ Ew) as Haw. simpl in Haw. rewrite Haw.
  destruct (release_accounts
              (setValidatorInfos
                 (<[Validator_Address w :=
                      setReleasedHeight (add64 (LastBlockHeight s) 1) iw]> (validatorInfos s)) s)
              (ValidatorInfo_UnbondTo iw) accs accs') as [Heq _]; [done| |done|].
  - by rewrite <- Haw.
  - simpl in Heq. unfold setUnbondingValidators, setAccounts, setValidatorInfos. simpl.
    by rewrite Heq.
Qed.

Lemma unbondValidator_Ok w s s' :
  unbondValidator w s = (s', Ok tt) ->
  exists v,
    GetByAddress (Validator_Address w) (BondedValidators s) = Some v
    /\ GetByAddress (Validator_Address w) (UnbondingValidators s) = None
    /\ s' = mkState (DB s) (LastBlockHeight s) (LastBlockHash s) (LastBlockParts s)
              (LastBlockTime s)
              (removeByAddress (Validator_Address w) (BondedValidators s))
              (insertByAddress (setUnbondHeight (add64 (LastBlockHeight s) 1) v)
                 (UnbondingValidators s))
              (accounts s) (validatorInfos s).
Proof.
  unfold unbondValidator, removeBonded, ValidatorSet_Remove. msimpl.
  destruct (GetByAddress (Validator_Address w) (BondedValidators s)) as [v|] eqn:Ev;
    msimpl; [|done].
  unfold addUnbonding, ValidatorSet_Add. simpl.
  destruct (GetByAddress_Some _ _ _ Ev) as [Hv _]. rewrite Hv.
  destruct (GetByAddress (Validator_Address w) (UnbondingValidators s)) eqn:Eu;
    msimpl; [done|].
  intros [= <-]. exists v. done.
Qed.

Lemma creditOutputs_wf (outs : list TxOutput) (t : gmap bytes Account) :
  map_Forall (fun k acc => Account_Address acc = k) t ->
  map_Forall (fun k acc => Account_Address acc = k) (creditOutputs outs t).
Proof.
  unfold creditOutputs. revert t. induction outs as [|o outs IH]; intros t Hwf; [done|].
  cbn [foldl]. apply IH. unfold creditOutput. apply map_Forall_insert_2; [|done].
  destruct (t !! TxOutput_Address o) eqn:E; simpl; [by apply Hwf in E|done].
Qed.

Lemma forEach_release_Ok l s s' :
  infosWf s -> accountsWf s ->
  forEach (releaseValidator P) l s = (s', Ok tt) ->
  infosWf s' /\ accountsWf s'
  /\ BondedValidators s' = BondedValidators s
  /\ LastBlockHeight s' = LastBlockHeight s
  /\ accounts s' = foldl (fun t outs => creditOutputs outs t) (accounts s)
                     (map (unbondToOf s) l)
  /\ (forall a : bytes,
        GetByAddress a (UnbondingValidators s') =
          if decide (a ∈ map Validator_Address l) then None
          else GetByAddress a (UnbondingValidators s))
  /\ (forall a : bytes,
        validatorInfos s' !! a =
          if decide (a ∈ map Validator_Address l)
          then setReleasedHeight (add64 (LastBlockHeight s) 1) <$> validatorInfos s !! a
          else validatorInfos s !! a).
Proof.
  revert s. induction l as [|w l IH]; intros s Hwf Hawf.
  - intros [= <-].
    repeat split; try done;
      try (intros a; rewrite decide_False; [done|apply not_elem_of_nil]).
  - rewrite forEach_cons.
    destruct (releaseValidator P w s) as [s1 [[]|e|msg]] eqn:E; try done.
    destruct (releaseValidator_Ok w s s1 Hwf Hawf E) as (iw & v & Hiw & Hv & ->).
    pose proof (Hwf _ _ Hiw) as Haw. simpl in Haw.
    intros H. apply IH in H; clear IH.
    + destruct H as (Hwf' & Hawf' & Hb & Hh & Hacc & Hu & Hi). simpl in *.
      repeat split; try done.
      * rewrite Hacc. cbn [map foldl].
        assert (unbondToOf s w = ValidatorInfo_UnbondTo iw) as ->
          by (unfold unbondToOf; by rewrite Hiw).
        f_equal. apply map_ext. intros u. unfold unbondToOf. simpl.
        destruct (decide (Validator_Address w = Validator_Address u)) as [Heq|Hne].
        -- rewrite <- Heq, lookup_insert_eq, Hiw. done.
        -- by rewrite lookup_insert_ne.
      * intros a. rewrite Hu.
        destruct (decide (a = Validator_Address w)) as [->|Hne].
        -- rewrite (decide_True (P := _ ∈ _ :: _)) by left.
           rewrite GetByAddress_removeByAddress. by case_decide.
        -- rewrite GetByAddress_removeByAddress_ne by done.
           destruct (decide (a ∈ map Validator_Address l)) as [Hk|Hk].
           ++ rewrite decide_True by (by right). done.
           ++ rewrite decide_False; [done|].
              intros Hk'. apply elem_of_cons in Hk' as [?|?]; done.
      * intros a. rewrite Hi.
        destruct (decide (a = Validator_Address w)) as [->|Hne].
        -- rewrite (decide_True (P := _ ∈ _ :: _)) by left.
           rewrite lookup_insert_eq, Hiw. by case_decide.
        -- rewrite lookup_insert_ne by done.
           destruct (decide (a ∈ map Validator_Address l)) as [Hk|Hk].
           ++ rewrite decide_True by (by right). done.
           ++ rewrite decide_False; [done|].
              intros Hk'. apply elem_of_cons in Hk' as [?|?]; done.
    + unfold infosWf. simpl. apply map_Forall_insert_2; [done|exact Hwf].
    + unfold accountsWf. simpl. by apply creditOutputs_wf.
Qed.

Lemma forEach_unbond_Ok l s s' :
  forEach unbondValidator l s = (s', Ok tt) ->
  accounts s' = accounts s
  /\ validatorInfos s' = validatorInfos s
  /\ LastBlockHeight s' = LastBlockHeight s
  /\ forall a,
       GetByAddress a (BondedValidators s) = None ->
       GetByAddress a (BondedValidators s') = None
       /\ GetByAddress a (UnbondingValidators s') = GetByAddress a (UnbondingValidators s).
Proof.
  revert s. induction l as [|w l IH]; intros s.
  - by intros [= <-].
  - rewrite forEach_cons.
    destruct (unbondValidator w s) as [s1 [[]|e|msg]] eqn:E; try done.
    destruct (unbondValidator_Ok w s s1 E) as (v & Hv & Hu & ->).
    intros H. apply IH in H as (Hacc & Hi & Hh & Hb). simpl in *.
    repeat split; try done.
    + apply Hb. 
      destruct (decide (a = Validator_Address w)) as [->|Hne];
        [apply GetByAddress_removeByAddress|by rewrite GetByAddress_removeByAddress_ne].
    + assert (Hne : a <> Validator_Address w) by (intros ->; congruence).
      destruct (Hb a) as [_ ->]; [by rewrite GetByAddress_removeByAddress_ne|].
      apply GetByAddress_insertByAddress_ne. simpl.
      destruct (GetByAddress_Some _ _ _ Hv) as [-> _]. done.
Qed.

Lemma updateLastCommitHeights_not_bonded h commits i s s' r a :
  GetByAddress a (BondedValidators s) = None ->
  updateLastCommitHeights h commits i s = (s', r) ->
  GetByAddress a (BondedValidators s') = None.
Proof.
  revert i s. induction commits as [|c commits IH]; intros i s Hn; simpl.
  - by intros [= <- _].
  - destruct (Commit_IsZero c); [by apply IH|]. msimpl.
    destruct (GetByIndex i (BondedValidators s)) as [val|] eqn:Ei; msimpl;
      [|by intros [= <- _]].
    unfold updateBonded, ValidatorSet_Update. simpl.
    destruct (GetByAddress (Validator_Address val) (BondedValidators s)); msimpl.
    + apply IH. simpl. apply GetByAddress_replaceByAddress_None; [|done].
      simpl. rewrite GetByAddress_None in Hn. apply Hn.
      eapply list_elem_of_lookup_2. exact Ei.
    + by intros [= <- _].
Qed.
End ReleasePass.

Lemma keepsHeight_bind {A B} (m : M A) (f : A -> M B) :
  keepsHeight m -> (forall a, keepsHeight (f a)) -> keepsHeight (m ≫= f).
Proof.
  intros Hm Hf s s' r. unfold mbind, M_bind.
  destruct (m s) as [s1 [a|e|msg]] eqn:E.
  - intros H. apply Hf in H. apply Hm in E. congruence.
  - intros [= <- _]. by apply Hm in E.
  - intros [= <- _]. by apply Hm in E.
Qed.

Lemma keepsHeight_pure {A} (r : outcome A) : keepsHeight (pure r).
Proof. by intros s s' r' [= <- _]. Qed.

Lemma keepsHeight_ret {A} (a : A) : keepsHeight (mret a : M A).
Proof. by intros s s' r' [= <- _]. Qed.

Lemma keepsHeight_panic {A} msg : keepsHeight (panic msg : M A).
Proof. by intros s s' r' [= <- _]. Qed.

Lemma keepsHeight_get : keepsHeight getState.
Proof. by intros s s' r' [= <- _]. Qed.

Lemma keepsHeight_removeBonded a : keepsHeight (removeBonded a).
Proof. intros s s' r. unfold removeBonded. destruct ValidatorSet_Remove. by intros [= <- _]. Qed.

Lemma keepsHeight_removeUnbonding a : keepsHeight (removeUnbonding a).
Proof. intros s s' r. unfold removeUnbonding. destruct ValidatorSet_Remove. by intros [= <- _]. Qed.

Lemma keepsHeight_addBonded a : keepsHeight (addBonded a).
Proof. intros s s' r. unfold addBonded. destruct ValidatorSet_Add. by intros [= <- _]. Qed.

Lemma keepsHeight_addUnbonding a : keepsHeight (addUnbonding a).
Proof. intros s s' r. unfold addUnbonding. destruct ValidatorSet_Add. by intros [= <- _]. Qed.

Lemma keepsHeight_SetValidatorInfo a : keepsHeight (SetValidatorInfo a).
Proof. by intros s s' r [= <- _]. Qed.

Lemma keepsHeight_UpdateAccounts a : keepsHeight (UpdateAccounts a).
Proof. by intros s s' r [= <- _]. Qed.

Create HintDb keeps_height.

#[local] Hint Resolve keepsHeight_pure keepsHeight_ret keepsHeight_panic keepsHeight_get
  keepsHeight_removeBonded keepsHeight_removeUnbonding keepsHeight_addBonded
  keepsHeight_addUnbonding keepsHeight_SetValidatorInfo keepsHeight_UpdateAccounts
  : keeps_height.

Ltac keeps_height :=
  repeat match goal with
    | |- keepsHeight (_ ≫= _) => apply keepsHeight_bind; [ | intros ? ]
    | |- keepsHeight (match ?x with _ => _ end) => destruct x
    | |- keepsHeight (if ?x then _ else _) => destruct x
    | |- keepsHeight _ => solve [ auto with keeps_height ]
    end.

Section Release.
Context (P : Primitives).

Lemma keepsHeight_withTx (m : M unit) tx s s' tx' r :
  keepsHeight m -> withTx tx m s = (s', tx', r) -> LastBlockHeight s' = LastBlockHeight s.
Proof.
  intros Hm. unfold withTx. destruct (m s) as [s1 r1] eqn:E.
  intros [= <- _ _]. by apply Hm in E.
Qed.

Lemma ExecTx_height tx s s' tx' r :
  ExecTx P tx s = (s', tx', r) -> LastBlockHeight s' = LastBlockHeight s.
Proof.
  destruct tx as [ins outs|ins outs pk|a h sg|a h sg|a va vb]; simpl.
  - destruct (GetOrMakeAccounts P s ins outs) as [ins' r0].
    apply keepsHeight_withTx. keeps_height.
  - destruct (GetValidatorInfo s (PubKey_Address P pk)); [by intros [= <- _ _]|].
    destruct (GetOrMakeAccounts P s ins []) as [ins' r0].
    apply keepsHeight_withTx. keeps_height.
  - apply keepsHeight_withTx. unfold unbondValidator. keeps_height.
  - apply keepsHeight_withTx. unfold rebondValidator. keeps_height.
  - apply keepsHeight_withTx. unfold destroyValidator. keeps_height.
Qed.

Lemma execTxs_height txs s s' txs' r :
  execTxs P txs s = (s', txs', r) -> LastBlockHeight s' = LastBlockHeight s.
Proof.
  revert s s' txs' r. induction txs as [|tx txs IH]; intros s s' txs' r; simpl.
  - by intros [= <- _ _].
  - destruct (ExecTx P tx s) as [[s1 tx1] [[]|e|msg]] eqn:E; apply ExecTx_height in E.
    + destruct (execTxs P txs s1) as [[s2 txs2] r2] eqn:E2. apply IH in E2.
      intros [= <- _ _]. congruence.
    + by intros [= <- _ _].
    + by intros [= <- _ _].
Qed.

Lemma Block_ValidateBasic_height b h hash parts time :
  Block_ValidateBasic P b h hash parts time = None -> Block_Height b = add64 h 1.
Proof.
  unfold Block_ValidateBasic. destruct (Block_Height b =? add64 h 1) eqn:E; [|done].
  intros _. by apply Z.eqb_eq.
Qed.

Lemma afterTxs_Ok b s s' :
  afterTxs P b s = (s', Ok tt) ->
  exists s1 s2 s3,
    updateLastCommitHeights (Block_Height b) (Block_Commits b) 0 s = (s1, Ok tt)
    /\ forEach (releaseValidator P) (toRelease (Block_Height b) s1) s1 = (s2, Ok tt)
    /\ forEach unbondValidator (toTimeout (Block_Height b) s2) s2 = (s3, Ok tt)
    /\ s' = setBondedValidators (IncrementAccum 1 (BondedValidators s3)) s3.
Proof.
  unfold afterTxs. msimpl.
  destruct (updateLastCommitHeights _ _ _ s) as [s1 [[]|e|msg]] eqn:E1; try done.
  destruct (forEach (releaseValidator P) _ s1) as [s2 [[]|e|msg]] eqn:E2; try done.
  destruct (forEach unbondValidator _ s2) as [s3 [[]|e|msg]] eqn:E3; try done.
  intros [= <-]. by exists s1, s2, s3.
Qed.

(** In a set that holds one validator for each address, the validator found
    at an address is the only one with that address. *)
Lemma GetByAddress_only a vs v w :
  NoDup (map Validator_Address vs) ->
  GetByAddress a vs = Some v -> w ∈ vs -> Validator_Address w = a -> w = v.
Proof.
  induction vs as [|u vs IH]; simpl; [done|].
  rewrite NoDup_cons. intros [Hnin Hnd].
  destruct (bytes_eqb (Validator_Address u) a) eqn:E.
  - apply bytes_eqb_eq in E. intros [= <-] Hw Ha.
    apply elem_of_cons in Hw as [->|Hw]; [done|].
    destruct Hnin. apply list_elem_of_fmap. exists w. split; [congruence|done].
  - apply bytes_eqb_neq in E. intros Hv Hw Ha.
    apply elem_of_cons in Hw as [->|Hw]; [done|]. by apply IH.
Qed.

(** C2 (as amended). Take a validator that is still in the unbonding set
    when the transactions of block [B] have run, and a successful
    [AppendBlock] of [B].

    - If [UnbondHeight + unbondingPeriodBlocks < B.Height] (in 64 bits),
      the validator is released: it is among the validators to release, it
      is absent from the unbonding set afterwards, its record is the former
      one with [ReleasedHeight = B.Height], and the accounts are those after
      the transactions credited with the recorded [UnbondTo] outputs of the
      validators released by the block, this one among them.
    - If [B.Height <= UnbondHeight + unbondingPeriodBlocks] (in 64 bits),
      and the unbonding set holds one validator for each address, the
      validator is not released: it is not among the validators to release,
      it is in the unbonding set afterwards as it was, its record is
      untouched, and the accounts are credited with the outputs of the other
      validators released by the block only.
    - With [UnbondHeight = H + 1] and heights within 64 bits, the first case
      is [H + 2 + unbondingPeriodBlocks <= B.Height], so that the second
      case holds at [B.Height = H + 1 + unbondingPeriodBlocks]. *)
Theorem release_when_period_is_over b blockPartsHeader checkStateHash s s1 txs s' b'
    val valInfo :
  AppendBlock P b blockPartsHeader checkStateHash s = (s', b', Ok tt) ->
  execTxs P (Block_Txs b) s = (s1, txs, Ok tt) ->
  infosWf s1 -> accountsWf s1 ->
  GetByAddress (Validator_Address val) (UnbondingValidators s1) = Some val ->
  GetByAddress (Validator_Address val) (BondedValidators s1) = None ->
  validatorInfos s1 !! Validator_Address val = Some valInfo ->
  (add64 (Validator_UnbondHeight val) unbondingPeriodBlocks < Block_Height b ->
     val ∈ toRelease (Block_Height b) s1
     /\ GetByAddress (Validator_Address val) (UnbondingValidators s') = None
     /\ validatorInfos s' !! Validator_Address val
        = Some (setReleasedHeight (Block_Height b) valInfo)
     /\ (ValidatorInfo_ReleasedHeight <$> validatorInfos s' !! Validator_Address val)
        = Some (Block_Height b)
     /\ (ValidatorInfo_UnbondTo <$> validatorInfos s' !! Validator_Address val)
        = Some (ValidatorInfo_UnbondTo valInfo)
     /\ accounts s'
        = foldl (fun t outs => creditOutputs outs t) (accounts s1)
            (map (unbondToOf s1) (toRelease (Block_Height b) s1)))
  /\ (Block_Height b <= add64 (Validator_UnbondHeight val) unbondingPeriodBlocks ->
      NoDup (map Validator_Address (UnbondingValidators s1)) ->
      (val ∉ toRelease (Block_Height b) s1)
      /\ (Validator_Address val
            ∉ map Validator_Address (toRelease (Block_Height b) s1))
      /\ GetByAddress (Validator_Address val) (UnbondingValidators s') = Some val
      /\ validatorInfos s' !! Validator_Address val = Some valInfo
      /\ accounts s'
         = foldl (fun t outs => creditOutputs outs t) (accounts s1)
             (map (unbondToOf s1) (toRelease (Block_Height b) s1)))
  /\ (forall H : Z,
        0 <= H -> H + 2 + unbondingPeriodBlocks < 2 ^ 64 ->
        Validator_UnbondHeight val = H + 1 ->
        (add64 (Validator_UnbondHeight val) unbondingPeriodBlocks < Block_Height b
         <-> H + 2 + unbondingPeriodBlocks <= Block_Height b)
        /\ (Block_Height b = H + 1 + unbondingPeriodBlocks ->
            Block_Height b
            <= add64 (Validator_UnbondHeight val) unbondingPeriodBlocks)).
Proof.
  intros HA Htx Hwf Hawf Hu Hb Hi.
  unfold AppendBlock in HA.
  destruct Block_ValidateBasic eqn:Evb; [done|].
  apply Block_ValidateBasic_height in Evb.
  destruct validateValidation; try done. rewrite Htx in HA.
  apply execTxs_height in Htx.
  destruct (afterTxs P (setTxs txs b) s1) as [s2 [[]|e|msg]] eqn:E2; try done.
  apply bindStateHash_validators in HA as (_ & Hu' & Ha' & Hi').
  apply afterTxs_Ok in E2 as (sa & sb & sc & E1 & Er & Et & ->). simpl in *.
  pose proof (updateLastCommitHeights_not_bonded _ _ _ _ _ _ _ Hb E1) as Hba.
  apply updateLastCommitHeights_frame in E1 as (Hua & Hia & Haa & Hha).
  assert (Htr : toRelease (Block_Height b) sa = toRelease (Block_Height b) s1).
  { unfold toRelease. by rewrite Hua. }
  assert (Hun : forall w, unbondToOf sa w = unbondToOf s1 w).
  { intros w. unfold unbondToOf. by rewrite Hia. }
  rewrite Htr in Er.
  apply forEach_release_Ok in Er as (_ & _ & Hbb & Hhb & Hab & Hub & Hib);
    [|unfold infosWf; by rewrite Hia|unfold accountsWf; by rewrite Haa].
  apply forEach_unbond_Ok in Et as (Hac & Hic & Hhc & Hbc).
  destruct (Hbc (Validator_Address val)) as [_ Huc]; [by rewrite Hbb|].
  assert (Hacc : accounts sc
                 = foldl (fun t outs => creditOutputs outs t) (accounts s1)
                     (map (unbondToOf s1) (toRelease (Block_Height b) s1))).
  { rewrite Hac, Hab, Haa. f_equal. apply map_ext. exact Hun. }
  split; [|split].
  - intros Hg.
    assert (Hin : val ∈ toRelease (Block_Height b) s1).
    { unfold toRelease. apply list_elem_of_filter. split.
      - apply Is_true_true, Z.ltb_lt. done.
      - by apply GetByAddress_Some in Hu as [_ ?]. }
    assert (Hmem : Validator_Address val
                   ∈ map Validator_Address (toRelease (Block_Height b) s1)).
    { apply list_elem_of_fmap. eauto. }
    assert (Hrec : validatorInfos s' !! Validator_Address val
                   = Some (setReleasedHeight (Block_Height b) valInfo)).
    { rewrite Hi', Hic, Hib. rewrite decide_True by done.
      rewrite Hia, Hi. simpl. rewrite Hha, Htx, <- Evb. done. }
    split; [done|]. split; [|split; [done|]].
    + rewrite Hu', Huc, Hub. by rewrite decide_True.
    + rewrite Hrec. split; [done|]. split; [done|]. by rewrite Ha'.
  - intros Hle Hnd.
    assert (Hmem : Validator_Address val
                   ∉ map Validator_Address (toRelease (Block_Height b) s1)).
    { intros Hmem. apply list_elem_of_fmap in Hmem as (w & Haw & Hw).
      unfold toRelease in Hw. apply list_elem_of_filter in Hw as [Ht Hw].
      assert (w = val) as -> by (by apply (GetByAddress_only _ _ _ _ Hnd Hu)).
      apply Is_true_true, Z.ltb_lt in Ht. lia. }
    split.
    { intros Hin. apply Hmem, list_elem_of_fmap. eauto. }
    split; [done|]. split; [|split].
    + rewrite Hu', Huc, Hub. rewrite decide_False by done. by rewrite Hua.
    + rewrite Hi', Hic, Hib. rewrite decide_False by done. by rewrite Hia.
    + by rewrite Ha'.
  - intros H H0 Hmax HH. rewrite HH. unfold add64.
    rewrite wrap64_small by (unfold unbondingPeriodBlocks in *; lia).
    split; lia.
Qed.
End Release.

(** Validator [x02] has unbond height 1 ([H = 0]).  The block at height
    [H + 2 + unbondingPeriodBlocks = 525602] releases it: its record gets
    released height 525602 and the account of its [UnbondTo] output receives
    the 40 coins.  The block at height [H + 1 + unbondingPeriodBlocks =
    525601] does not: the validator is still unbonding and its record is
    the former one. *)
Lemma release_when_period_is_over_witness :
  (let s := Scenario.unbondedState 525601 in
   let b := Scenario.nextBlock 525602 in
   let val := setUnbondHeight 1 (Scenario.validator x02 40 0) in
   let s' := fst (fst (AppendBlock Scenario.primitives b Scenario.noParts false s)) in
   val ∈ toRelease (Block_Height b) s
   /\ GetByAddress (Validator_Address val) (UnbondingValidators s') = None
   /\ validatorInfos s' !! Validator_Address val
      = Some (setReleasedHeight (Block_Height b)
                (Scenario.validatorInfo x02 [Scenario.output x0b 40]))
   /\ (ValidatorInfo_ReleasedHeight <$> validatorInfos s' !! Scenario.addr x02)
      = Some 525602
   /\ (ValidatorInfo_UnbondTo <$> validatorInfos s' !! Scenario.addr x02)
      = Some [Scenario.output x0b 40]
   /\ accounts s'
      = foldl (fun t outs => creditOutputs outs t) (accounts s)
          (map (unbondToOf s) (toRelease (Block_Height b) s)))
  /\ (let s := Scenario.unbondedState 525600 in
      let b := Scenario.nextBlock 525601 in
      let val := setUnbondHeight 1 (Scenario.validator x02 40 0) in
      let s' := fst (fst (AppendBlock Scenario.primitives b Scenario.noParts false s)) in
      (val ∉ toRelease (Block_Height b) s)
      /\ (Validator_Address val ∉ map Validator_Address (toRelease (Block_Height b) s))
      /\ GetByAddress (Validator_Address val) (UnbondingValidators s') = Some val
      /\ validatorInfos s' !! Validator_Address val
         = Some (Scenario.validatorInfo x02 [Scenario.output x0b 40])
      /\ accounts s'
         = foldl (fun t outs => creditOutputs outs t) (accounts s)
             (map (unbondToOf s) (toRelease (Block_Height b) s))).
Proof.
  split.
  - intros s b val s'.
    destruct (release_when_period_is_over Scenario.primitives b Scenario.noParts false
                s s [] s'
                (snd (fst (AppendBlock Scenario.primitives b Scenario.noParts false s)))
                val (Scenario.validatorInfo x02 [Scenario.output x0b 40]))
      as (Hrel & _).
    + vm_compute. reflexivity.
    + reflexivity.
    + apply (bool_decide_unpack _). vm_compute. exact I.
    + apply (bool_decide_unpack _). vm_compute. exact I.
    + vm_compute. reflexivity.
    + vm_compute. reflexivity.
    + vm_compute. reflexivity.
    + apply Hrel. vm_compute. reflexivity.
  - intros s b val s'.
    destruct (release_when_period_is_over Scenario.primitives b Scenario.noParts false
                s s [] s'
                (snd (fst (AppendBlock Scenario.primitives b Scenario.noParts false s)))
                val (Scenario.validatorInfo x02 [Scenario.output x0b 40]))
      as (_ & Hnot & _).
    + vm_compute. reflexivity.
    + reflexivity.
    + apply (bool_decide_unpack _). vm_compute. exact I.
    + apply (bool_decide_unpack _). vm_compute. exact I.
    + vm_compute. reflexivity.
    + vm_compute. reflexivity.
    + vm_compute. reflexivity.
    + apply Hnot.
      * apply Z.leb_le. vm_compute. reflexivity.
      * apply (bool_decide_unpack _). vm_compute. exact I.
Defined.

(** C2 (as stated) fails: with unbond height [H + 1] for [H = 0], the
    block at height [H + 1 + unbondingPeriodBlocks] is appended with success
    and the validator is still unbonding, its record has no release height
    and its [UnbondTo] account has received nothing. *)
Lemma release_not_at_period_end :
  let H := 0 in
  let val := setUnbondHeight (H + 1) (Scenario.validator x02 40 0) in
  let s := Scenario.unbondedState (H + unbondingPeriodBlocks) in
  let b := Scenario.nextBlock (H + 1 + unbondingPeriodBlocks) in
  let r := AppendBlock Scenario.primitives b Scenario.noParts false s in
  GetByAddress (Scenario.addr x02) (UnbondingValidators s) = Some val
  /\ Validator_UnbondHeight val = H + 1
  /\ Block_Height b = H + 1 + unbondingPeriodBlocks
  /\ snd r = Ok tt
  /\ GetByAddress (Scenario.addr x02) (UnbondingValidators (fst (fst r))) = Some val
  /\ (ValidatorInfo_ReleasedHeight <$> validatorInfos (fst (fst r)) !! Scenario.addr x02)
     = Some 0
  /\ accounts (fst (fst r)) !! Scenario.addr x0b = None.
Proof. repeat split; vm_compute; reflexivity. Qed.

(** ** Save and LoadState *)

Section Roundtrip.
Context (P : Primitives) (St : Storage).

(** Without a state record [LoadState] returns [nil]. *)
Lemma LoadState_absent db : db !! stateKey = None -> LoadState St db = Ok None.
Proof. intros H. unfold LoadState. by rewrite H. Qed.

(** The state record is never empty: two heights cannot both have the empty
    encoding. *)
Lemma stateRecord_nonempty s :
  StorageLaws P St -> isUint64 (LastBlockHeight s) -> stateRecord P St s <> [].
Proof.
  intros L Hh Hnil. unfold stateRecord in Hnil.
  apply app_eq_nil in Hnil as [Hw _].
  assert (K : forall x, isUint64 x -> x = LastBlockHeight s).
  { intros x Hx. pose proof (uvarint_law P St L x [] Hx) as Ex.
    pose proof (uvarint_law P St L (LastBlockHeight s) (WriteUvarint St x ++ []) Hh) as Eh.
    rewrite Hw in Eh. simpl in Eh. rewrite Ex in Eh. by injection Eh. }
  assert (H0 : isUint64 0) by (unfold isUint64; lia).
  assert (H1 : isUint64 1) by (unfold isUint64; lia).
  pose proof (K 0 H0). pose proof (K 1 H1). lia.
Qed.

Lemma readState_stateRecord s db :
  StorageLaws P St -> State_wellTyped s ->
  Accounts_Stored St (accounts s) db ->
  ValidatorInfos_Stored St (validatorInfos s) db ->
  readState St db (stateRecord P St s) = Some (setDB db s).
Proof.
  intros L (Hh & Hp & Ht & Hb & Hu & _ & _) Ha Hi.
  unfold readState, stateRecord.
  rewrite (uvarint_law P St L) by done. simpl.
  rewrite (byteSlice_law P St L). simpl.
  rewrite (partSetHeader_law P St L) by done. simpl.
  rewrite (time_law P St L) by done. simpl.
  rewrite (validatorSet_law P St L) by done. simpl.
  rewrite (validatorSet_law P St L) by done. simpl.
  rewrite (byteSlice_law P St L). simpl.
  rewrite <- (app_nil_r (WriteByteSlice St (ValidatorInfos_Hash P (validatorInfos s)))).
  rewrite (byteSlice_law P St L). simpl.
  rewrite (accounts_loaded P St L) by done.
  rewrite (validatorInfos_loaded P St L) by done.
  done.
Qed.

Lemma LoadState_stateRecord s db :
  StorageLaws P St -> State_wellTyped s ->
  db !! stateKey = Some (stateRecord P St s) ->
  Accounts_Stored St (accounts s) db ->
  ValidatorInfos_Stored St (validatorInfos s) db ->
  LoadState St db = Ok (Some (setDB db s)).
Proof.
  intros L Hwt Hk Ha Hi. unfold LoadState. rewrite Hk. cbn [default]. cbv zeta.
  pose proof (stateRecord_nonempty s L (proj1 Hwt)) as Hne.
  pose proof (readState_stateRecord s db L Hwt Ha Hi) as Hr.
  destruct (stateRecord P St s) as [|x buf]; [done|]. cbv [id]. by rewrite Hr.
Qed.

(** C6. For every state whose numbers are within the ranges of their Go
    types, and every codec and tree store that keep their contract
    ([StorageLaws]), [LoadState] on the store written by [Save] returns a
    state equal to the saved one on [LastBlockHeight], [LastBlockHash],
    [LastBlockParts], [LastBlockTime], both validator sets, the accounts and
    the validator records, and with the same [Hash]. *)
Theorem Save_LoadState_roundtrip s :
  StorageLaws P St -> State_wellTyped s ->
  exists s',
    LoadState St (DB (Save P St s)) = Ok (Some s')
    /\ LastBlockHeight s' = LastBlockHeight s
    /\ LastBlockHash s' = LastBlockHash s
    /\ LastBlockParts s' = LastBlockParts s
    /\ LastBlockTime s' = LastBlockTime s
    /\ BondedValidators s' = BondedValidators s
    /\ UnbondingValidators s' = UnbondingValidators s
    /\ accounts s' = accounts s
    /\ validatorInfos s' = validatorInfos s
    /\ Hash P s' = Hash P s.
Proof.
  intros L Hwt. exists (Save P St s). split; [|done].
  unfold Save. cbn [DB setDB].
  rewrite (LoadState_stateRecord s) ; [done|done|done|apply lookup_insert_eq| |].
  - apply (accounts_kept_by_set P St L), (accounts_kept_by_save P St L),
      (accounts_saved P St L). apply Hwt.
  - apply (validatorInfos_kept_by_set P St L), (validatorInfos_saved P St L). apply Hwt.
Qed.
End Roundtrip.

(** The codec and the store of the persistence scenario keep the contract. *)
Lemma decPos_encPos p rest : decPos (encPos p ++ rest) = Some (p, rest).
Proof. induction p as [p IH|p IH|]; simpl; [by rewrite IH..|done]. Qed.

Lemma decodeVia_encodeVia `{Countable A} (x : A) rest :
  decodeVia (encodeVia x ++ rest) = Some (x, rest).
Proof.
  unfold decodeVia, encodeVia. rewrite decPos_encPos. simpl.
  rewrite decode_encode. done.
Qed.

Lemma storage_laws : StorageLaws Scenario.storagePrimitives Scenario.storage.
Proof.
  split; simpl; intros; try apply decodeVia_encodeVia.
  - apply lookup_insert_eq.
  - rewrite lookup_insert_ne; [done|]. by intros [= ].
  - rewrite lookup_insert_ne; [done|]. unfold stateKey. by intros [= ].
  - rewrite H. simpl. rewrite <- (app_nil_r (encodeVia t)).
    rewrite decodeVia_encodeVia. done.
  - apply lookup_insert_eq.
  - rewrite lookup_insert_ne; [done|]. unfold stateKey. by intros [= ].
  - rewrite H. simpl. rewrite <- (app_nil_r (encodeVia t)).
    rewrite decodeVia_encodeVia. done.
Qed.

(** A state with three validators and two accounts is loaded back as it was
    saved. *)
Lemma Save_LoadState_roundtrip_witness :
  exists s',
    LoadState Scenario.storage
      (DB (Save Scenario.storagePrimitives Scenario.storage Scenario.savedState))
    = Ok (Some s')
    /\ LastBlockHeight s' = LastBlockHeight Scenario.savedState
    /\ LastBlockHash s' = LastBlockHash Scenario.savedState
    /\ LastBlockParts s' = LastBlockParts Scenario.savedState
    /\ LastBlockTime s' = LastBlockTime Scenario.savedState
    /\ BondedValidators s' = BondedValidators Scenario.savedState
    /\ UnbondingValidators s' = UnbondingValidators Scenario.savedState
    /\ accounts s' = accounts Scenario.savedState
    /\ validatorInfos s' = validatorInfos Scenario.savedState
    /\ Hash Scenario.storagePrimitives s' = Hash Scenario.storagePrimitives Scenario.savedState.
Proof.
  apply (Save_LoadState_roundtrip Scenario.storagePrimitives Scenario.storage
           Scenario.savedState storage_laws).
  apply (bool_decide_unpack _). vm_compute. exact I.
Defined.

(** * Further properties of the code

    ** The working accounts of a transaction ([GetOrMakeAccounts]) *)

Lemma Ok_eta {A B} (x : A * outcome B) (d : B) :
  isOk (snd x) = true ->
  x = (fst x, Ok (match snd x with Ok b => b | _ => d end)).
Proof. by destruct x as [a [b| |]]. Qed.

Section Accounts.
Context (P : Primitives).

Lemma getOrMakeInputs_Ok s ins accs0 ins' accs :
  getOrMakeInputs P s ins accs0 = (ins', Ok accs) ->
  NoDup (map TxInput_Address ins)
  /\ (forall i, i ∈ ins -> accs0 !! TxInput_Address i = None)
  /\ ins' = map (canonicalInput s) ins
  /\ (forall i, i ∈ ins ->
        exists acc, accounts s !! TxInput_Address i = Some acc
                    /\ accs !! TxInput_Address i = Some (inputAccount acc i)
                    /\ Account_PubKey (inputAccount acc i) <> PubKeyNil)
  /\ (forall k : bytes, k ∉ map TxInput_Address ins -> accs !! k = accs0 !! k).
Proof.
  revert accs0 ins'. induction ins as [|i ins IH]; intros accs0 ins' H; simpl in H.
  - injection H as <- <-. split; [constructor|].
    split; [by intros i Hi; apply elem_of_nil in Hi|].
    split; [done|]. split; [by intros i Hi; apply elem_of_nil in Hi|done].
  - destruct (accs0 !! TxInput_Address i) eqn:E0; [done|].
    unfold GetAccount in H.
    destruct (accounts s !! TxInput_Address i) as [acc|] eqn:Ea; [|done].
    assert (Hstep : exists rest',
      getOrMakeInputs P s ins (<[TxInput_Address i := inputAccount acc i]> accs0)
        = (rest', Ok accs)
      /\ ins' = canonicalInput s i :: rest'
      /\ Account_PubKey (inputAccount acc i) <> PubKeyNil).
    { unfold inputAccount, canonicalInput. rewrite Ea.
      destruct (isPubKeyNil (Account_PubKey acc)) eqn:En.
      - destruct (isPubKeyNil (TxInput_PubKey i)) eqn:Ei; [done|].
        destruct (negb _); [done|].
        destruct (getOrMakeInputs P s ins _) as [rest' r] eqn:Er.
        injection H as <- ->. exists rest'. split; [done|]. split; [done|].
        simpl. by destruct (TxInput_PubKey i).
      - destruct (getOrMakeInputs P s ins _) as [rest' r] eqn:Er.
        injection H as <- ->. exists rest'. split; [done|]. split; [done|].
        by destruct (Account_PubKey acc). }
    destruct Hstep as (rest' & Hr & -> & Hkey).
    apply IH in Hr as (Hnd & Hfresh & -> & Hin & Hout).
    assert (Hnin : TxInput_Address i ∉ map TxInput_Address ins).
    { intros Hi. apply list_elem_of_fmap in Hi as (j & Hj & Hjin).
      specialize (Hfresh j Hjin). rewrite <- Hj, lookup_insert_eq in Hfresh. done. }
    rewrite fmap_cons. split; [by constructor|].
    split.
    { intros j Hj. apply elem_of_cons in Hj as [->|Hj]; [done|].
      specialize (Hfresh j Hj). apply lookup_insert_None in Hfresh. tauto. }
    split; [done|]. split.
    + intros j Hj. apply elem_of_cons in Hj as [->|Hj].
      * exists acc. split; [done|]. split; [|done].
        rewrite Hout by done. apply lookup_insert_eq.
      * by apply Hin.
    + intros k Hk. apply not_elem_of_cons in Hk as [Hne Hk].
      rewrite Hout by done. by rewrite lookup_insert_ne.
Qed.

Lemma getOrMakeInputs_fields s ins accs0 :
  map clearInputPubKey (fst (getOrMakeInputs P s ins accs0)) = map clearInputPubKey ins.
Proof.
  revert accs0. induction ins as [|i ins IH]; intros accs0; simpl; [done|].
  destruct (accs0 !! TxInput_Address i); [done|].
  destruct (GetAccount s (TxInput_Address i)) as [acc|]; [|done].
  destruct (isPubKeyNil (Account_PubKey acc)).
  - destruct (isPubKeyNil (TxInput_PubKey i)); [done|].
    destruct (negb _); [done|].
    specialize (IH (<[TxInput_Address i:=setPubKey (TxInput_PubKey i) acc]> accs0)).
    destruct (getOrMakeInputs P s ins _). simpl in *. by rewrite IH.
  - specialize (IH (<[TxInput_Address i:=acc]> accs0)).
    destruct (getOrMakeInputs P s ins _). simpl in *. by rewrite IH.
Qed.

Lemma getOrMakeInputs_outcome s ins accs0 :
  match snd (getOrMakeInputs P s ins accs0) with
  | Ok _ => True
  | Err e => e ∈ [ErrTxDuplicateAddress; ErrTxInvalidAddress; ErrTxUnknownPubKey;
                  ErrTxInvalidPubKey]
  | Panic _ => False
  end.
Proof.
  revert accs0. induction ins as [|i ins IH]; intros accs0; simpl; [done|].
  destruct (accs0 !! TxInput_Address i); [simpl; set_solver|].
  destruct (GetAccount s (TxInput_Address i)) as [acc|]; [|simpl; set_solver].
  destruct (isPubKeyNil (Account_PubKey acc)).
  - destruct (isPubKeyNil (TxInput_PubKey i)); [simpl; set_solver|].
    destruct (negb _); [simpl; set_solver|].
    specialize (IH (<[TxInput_Address i:=setPubKey (TxInput_PubKey i) acc]> accs0)).
    by destruct (getOrMakeInputs P s ins _).
  - specialize (IH (<[TxInput_Address i:=acc]> accs0)).
    by destruct (getOrMakeInputs P s ins _).
Qed.

Lemma getOrMakeOutputs_outcome s outs accs0 :
  match getOrMakeOutputs s outs accs0 with
  | Ok _ => True
  | Err e => e = ErrTxDuplicateAddress
  | Panic _ => False
  end.
Proof.
  revert accs0. induction outs as [|o outs IH]; intros accs0; simpl; [done|].
  destruct (accs0 !! TxOutput_Address o); [done|]. apply IH.
Qed.

Lemma GetOrMakeAccounts_Ok_map s ins outs ins' accs :
  GetOrMakeAccounts P s ins outs = (ins', Ok accs) ->
  NoDup (map TxInput_Address ins ++ map TxOutput_Address outs)
  /\ (forall i, i ∈ ins ->
        exists acc, accounts s !! TxInput_Address i = Some acc
                    /\ accs !! TxInput_Address i = Some (inputAccount acc i)
                    /\ Account_PubKey (inputAccount acc i) <> PubKeyNil)
  /\ (forall o, o ∈ outs ->
        accs !! TxOutput_Address o
        = Some (default (newAccount (TxOutput_Address o))
                        (accounts s !! TxOutput_Address o)))
  /\ (forall k : bytes,
        k ∉ map TxInput_Address ins ++ map TxOutput_Address outs -> accs !! k = None).
Proof.
  unfold GetOrMakeAccounts. intros H.
  destruct (getOrMakeInputs P s ins ∅) as [ins1 r] eqn:Ei.
  injection H as -> H. destruct r as [accs1| |]; [|done..]. simpl in H.
  apply getOrMakeInputs_Ok in Ei as (Hnd & _ & _ & Hin & Hout).
  assert (Hfresh : forall o, o ∈ outs -> accs1 !! TxOutput_Address o = None).
  { intros o Ho. destruct (accs1 !! TxOutput_Address o) eqn:E; [|done].
    rewrite getOrMakeOutputs_duplicate in H; [done|].
    left. exists o. by rewrite E. }
  apply getOrMakeOutputs_lookup in H as [Hnd' Hl].
  assert (Hdisj : forall k : bytes,
            k ∈ map TxInput_Address ins -> k ∉ map TxOutput_Address outs).
  { intros k Hk Hk'.
    apply list_elem_of_fmap in Hk as (i & -> & Hi).
    apply list_elem_of_fmap in Hk' as (o & Heq & Ho).
    destruct (Hin i Hi) as (acc & _ & Hacc & _).
    rewrite Hout in Hacc; [by rewrite lookup_empty in Hacc|].
    intros Hk. specialize (Hfresh o Ho). rewrite <- Heq in Hfresh.
    apply list_elem_of_fmap in Hk as (j & Hj & Hjin).
    destruct (Hin j Hjin) as (accj & _ & Haccj & _). congruence. }
  split; [by apply NoDup_app|].
  split.
  { intros i Hi. destruct (Hin i Hi) as (acc & Ha & Hacc & Hk).
    exists acc. split; [done|]. split; [|done].
    rewrite Hl, decide_False; [done|].
    apply Hdisj, list_elem_of_fmap. by exists i. }
  split.
  { intros o Ho. rewrite Hl, decide_True; [done|].
    apply list_elem_of_fmap. by exists o. }
  intros k Hk. apply not_elem_of_app in Hk as [Hk1 Hk2].
  rewrite Hl, decide_False by done. rewrite Hout by done. apply lookup_empty.
Qed.

(** X1. When [GetOrMakeAccounts] succeeds, the addresses of the inputs and
    of the outputs are pairwise distinct; every input has an account in the
    tree, and the working map holds it with a known key (the stored one, or
    the key of the input when none is stored); every output has its account
    of the tree or, when there is none, a fresh account with no key, sequence
    0 and balance 0; and the map holds nothing else. *)
Theorem GetOrMakeAccounts_Ok s ins outs ins' accs :
  GetOrMakeAccounts P s ins outs = (ins', Ok accs) ->
  NoDup (map TxInput_Address ins ++ map TxOutput_Address outs)
  /\ (forall i, i ∈ ins ->
        exists acc, accounts s !! TxInput_Address i = Some acc
                    /\ accs !! TxInput_Address i = Some (inputAccount acc i)
                    /\ Account_PubKey (inputAccount acc i) <> PubKeyNil)
  /\ (forall o, o ∈ outs ->
        accs !! TxOutput_Address o
        = Some (default (newAccount (TxOutput_Address o))
                        (accounts s !! TxOutput_Address o)))
  /\ (forall k : bytes,
        k ∉ map TxInput_Address ins ++ map TxOutput_Address outs -> accs !! k = None).
Proof. exact (GetOrMakeAccounts_Ok_map s ins outs ins' accs). Qed.

Lemma getOrMakeInputs_kept s ins accs0 :
  Forall2 (fun i i' =>
             TxInput_Address i' = TxInput_Address i
             /\ TxInput_Amount i' = TxInput_Amount i
             /\ TxInput_Sequence i' = TxInput_Sequence i
             /\ TxInput_Signature i' = TxInput_Signature i
             /\ (TxInput_PubKey i' = TxInput_PubKey i \/ TxInput_PubKey i' = PubKeyNil))
    ins (fst (getOrMakeInputs P s ins accs0)).
Proof.
  assert (Hrefl : forall l : list TxInput,
            Forall2 (fun i i' =>
                       TxInput_Address i' = TxInput_Address i
                       /\ TxInput_Amount i' = TxInput_Amount i
                       /\ TxInput_Sequence i' = TxInput_Sequence i
                       /\ TxInput_Signature i' = TxInput_Signature i
                       /\ (TxInput_PubKey i' = TxInput_PubKey i
                           \/ TxInput_PubKey i' = PubKeyNil)) l l).
  { intros l. induction l; constructor; [tauto|done]. }
  revert accs0. induction ins as [|i ins IH]; intros accs0; simpl; [constructor|].
  destruct (accs0 !! TxInput_Address i); [apply Hrefl|].
  destruct (GetAccount s (TxInput_Address i)) as [acc|]; [|apply Hrefl].
  destruct (isPubKeyNil (Account_PubKey acc)).
  - destruct (isPubKeyNil (TxInput_PubKey i)); [apply Hrefl|].
    destruct (negb _); [apply Hrefl|].
    specialize (IH (<[TxInput_Address i:=setPubKey (TxInput_PubKey i) acc]> accs0)).
    destruct (getOrMakeInputs P s ins _). simpl in *. constructor; [tauto|done].
  - specialize (IH (<[TxInput_Address i:=acc]> accs0)).
    destruct (getOrMakeInputs P s ins _). simpl in *. constructor; [|done].
    simpl. tauto.
Qed.

Lemma GetOrMakeAccounts_Ok_inputs s ins outs ins' accs :
  GetOrMakeAccounts P s ins outs = (ins', Ok accs) ->
  ins' = map (canonicalInput s) ins.
Proof.
  unfold GetOrMakeAccounts.
  destruct (getOrMakeInputs P s ins ∅) as [ins1 r] eqn:Ei. intros [= <- H].
  destruct r as [accs1| |]; [|done..].
  by apply getOrMakeInputs_Ok in Ei as (_ & _ & -> & _).
Qed.

(** X2. [GetOrMakeAccounts] writes to the inputs it is given, and only to
    their [PubKey]: however the call ends, the inputs it leaves have the
    addresses, amounts, sequence numbers and signatures they came with, and
    each has the key it came with or [PubKeyNil].  When the call succeeds,
    every input has an account stored; the key of the input is [PubKeyNil]
    when that account has a key, and is the key it came with when the
    account has none. *)
Theorem GetOrMakeAccounts_inputs s ins outs :
  map clearInputPubKey (fst (GetOrMakeAccounts P s ins outs)) = map clearInputPubKey ins
  /\ Forall2 (fun i i' =>
                TxInput_Address i' = TxInput_Address i
                /\ TxInput_Amount i' = TxInput_Amount i
                /\ TxInput_Sequence i' = TxInput_Sequence i
                /\ TxInput_Signature i' = TxInput_Signature i
                /\ (TxInput_PubKey i' = TxInput_PubKey i \/ TxInput_PubKey i' = PubKeyNil))
       ins (fst (GetOrMakeAccounts P s ins outs))
  /\ match snd (GetOrMakeAccounts P s ins outs) with
     | Ok _ =>
         fst (GetOrMakeAccounts P s ins outs) = map (canonicalInput s) ins
         /\ Forall2 (fun i i' =>
                       exists acc,
                         accounts s !! TxInput_Address i = Some acc
                         /\ TxInput_PubKey i' =
                              if isPubKeyNil (Account_PubKey acc) then TxInput_PubKey i
                              else PubKeyNil)
              ins (fst (GetOrMakeAccounts P s ins outs))
     | _ => True
     end.
Proof.
  unfold GetOrMakeAccounts.
  pose proof (getOrMakeInputs_fields s ins ∅) as Hf.
  pose proof (getOrMakeInputs_kept s ins ∅) as Hk.
  destruct (getOrMakeInputs P s ins ∅) as [ins1 r] eqn:Ei. simpl in *.
  split; [done|]. split; [done|].
  destruct r as [accs1| |]; simpl; [|done..].
  destruct (getOrMakeOutputs s outs accs1); [|done..].
  apply getOrMakeInputs_Ok in Ei as (_ & _ & -> & Hin & _).
  split; [done|]. clear Hf Hk.
  induction ins as [|i ins IH]; simpl; [constructor|].
  constructor.
  - destruct (Hin i) as (acc & Ha & _); [left|].
    exists acc. split; [done|]. unfold canonicalInput. rewrite Ha.
    by destruct (isPubKeyNil (Account_PubKey acc)).
  - apply IH. intros j Hj. apply Hin. by right.
Qed.

Lemma GetOrMakeAccounts_errors s ins outs :
  match snd (GetOrMakeAccounts P s ins outs) with
  | Ok _ => True
  | Err e => e ∈ [ErrTxDuplicateAddress; ErrTxInvalidAddress; ErrTxUnknownPubKey;
                  ErrTxInvalidPubKey]
  | Panic _ => False
  end.
Proof.
  unfold GetOrMakeAccounts.
  pose proof (getOrMakeInputs_outcome s ins ∅) as Hi.
  destruct (getOrMakeInputs P s ins ∅) as [ins1 r]. simpl in *.
  destruct r as [accs1| |]; simpl; [|done..].
  pose proof (getOrMakeOutputs_outcome s outs accs1) as Ho.
  destruct (getOrMakeOutputs s outs accs1); [done| |done]. subst. set_solver.
Qed.

(** X3. [GetOrMakeAccounts] never panics, and the only errors it returns
    are [ErrTxDuplicateAddress], [ErrTxInvalidAddress], [ErrTxUnknownPubKey]
    and [ErrTxInvalidPubKey]. *)
Theorem GetOrMakeAccounts_outcome s ins outs :
  match snd (GetOrMakeAccounts P s ins outs) with
  | Ok _ => True
  | Err e => e ∈ [ErrTxDuplicateAddress; ErrTxInvalidAddress; ErrTxUnknownPubKey;
                  ErrTxInvalidPubKey]
  | Panic _ => False
  end.
Proof. exact (GetOrMakeAccounts_errors s ins outs). Qed.


(** ** Validation of inputs and outputs *)

Lemma wrap64_idemp x : wrap64 (wrap64 x) = wrap64 x.
Proof. unfold wrap64. by rewrite Z.mod_mod. Qed.

Lemma wrap64_add_l x y : wrap64 (wrap64 x + y) = wrap64 (x + y).
Proof. unfold wrap64. by rewrite Z.add_mod_idemp_l. Qed.

Lemma validateInputsFrom_Ok accs sb ins t0 t :
  validateInputsFrom P accs sb ins t0 = Ok t <->
  Forall (inputValid P accs sb) ins /\ t = foldl (fun t i => add64 t (TxInput_Amount i)) t0 ins.
Proof.
  revert t0. induction ins as [|i ins IH]; intros t0; simpl.
  - split; [intros [= <-]; by split|intros [_ ->]; done].
  - split.
    + intros H. destruct (accs !! TxInput_Address i) as [acc|] eqn:Ea; [|done].
      destruct (TxInput_ValidateBasic P i) eqn:Eb; [done|].
      destruct (VerifyBytes P _ _ _) eqn:Ev; [|done]. simpl in H.
      destruct (add64 _ 1 =? _) eqn:Es; [|done]. simpl in H.
      destruct (Account_Balance acc <? TxInput_Amount i) eqn:El; [done|].
      apply IH in H as [Hf ->]. split; [|done]. constructor; [|done].
      exists acc. repeat split; try done; lia.
    + intros [Hf ->]. apply Forall_cons in Hf as [(acc & -> & -> & -> & Hs & Hl) Hf].
      simpl. rewrite (proj2 (Z.eqb_eq _ _) Hs). simpl.
      rewrite (proj2 (Z.ltb_ge _ _) Hl). by apply IH.
Qed.

Lemma foldl_add64_inputs ins t0 :
  wrap64 t0 = t0 ->
  foldl (fun t i => add64 t (TxInput_Amount i)) t0 ins = wrap64 (t0 + sumInputs ins).
Proof.
  revert t0. induction ins as [|i ins IH]; intros t0 H0; simpl.
  - by rewrite Z.add_0_r.
  - rewrite IH by apply wrap64_idemp. unfold add64. rewrite wrap64_add_l. f_equal. lia.
Qed.

Lemma validateOutputsFrom_Ok outs t0 t :
  validateOutputsFrom P outs t0 = Ok t <->
  Forall (fun o => TxOutput_ValidateBasic P o = None) outs
  /\ t = foldl (fun t o => add64 t (TxOutput_Amount o)) t0 outs.
Proof.
  revert t0. induction outs as [|o outs IH]; intros t0; simpl.
  - split; [intros [= <-]; by split|intros [_ ->]; done].
  - split.
    + intros H. destruct (TxOutput_ValidateBasic P o) eqn:Eb; [done|].
      apply IH in H as [Hf ->]. split; [|done]. by constructor.
    + intros [Hf ->]. apply Forall_cons in Hf as [-> Hf]. by apply IH.
Qed.

Lemma foldl_add64_outputs outs t0 :
  wrap64 t0 = t0 ->
  foldl (fun t o => add64 t (TxOutput_Amount o)) t0 outs = wrap64 (t0 + sumOutputs outs).
Proof.
  revert t0. induction outs as [|o outs IH]; intros t0 H0; simpl.
  - by rewrite Z.add_0_r.
  - rewrite IH by apply wrap64_idemp. unfold add64. rewrite wrap64_add_l. f_equal. lia.
Qed.

Lemma ValidateInputs_Ok_inv accs signBytes ins total :
  ValidateInputs P accs signBytes ins = Ok total ->
  Forall (inputValid P accs signBytes) ins /\ total = wrap64 (sumInputs ins).
Proof.
  unfold ValidateInputs. rewrite validateInputsFrom_Ok.
  by rewrite foldl_add64_inputs.
Qed.

Lemma ValidateOutputs_Ok_inv outs total :
  ValidateOutputs P outs = Ok total ->
  Forall (fun o => TxOutput_ValidateBasic P o = None) outs
  /\ total = wrap64 (sumOutputs outs).
Proof.
  unfold ValidateOutputs. rewrite validateOutputsFrom_Ok.
  by rewrite foldl_add64_outputs.
Qed.

(** X4. [ValidateInputs] returns a total exactly when every input has an
    account in the working map, passes its own [ValidateBasic], carries a
    signature of the sign-bytes that verifies under the account's key, has
    the sequence number [account.Sequence + 1] (in 64 bits) and an amount
    that the balance covers; the total is then the sum of the amounts
    modulo [2^64]. *)
Theorem ValidateInputs_Ok accs signBytes ins total :
  ValidateInputs P accs signBytes ins = Ok total <->
  Forall (inputValid P accs signBytes) ins /\ total = wrap64 (sumInputs ins).
Proof.
  unfold ValidateInputs. rewrite validateInputsFrom_Ok.
  by rewrite foldl_add64_inputs.
Qed.

(** X5. [ValidateOutputs] returns a total exactly when every output
    passes its own [ValidateBasic]; the total is then the sum of the amounts
    modulo [2^64]. *)
Theorem ValidateOutputs_Ok outs total :
  ValidateOutputs P outs = Ok total <->
  Forall (fun o => TxOutput_ValidateBasic P o = None) outs
  /\ total = wrap64 (sumOutputs outs).
Proof.
  unfold ValidateOutputs. rewrite validateOutputsFrom_Ok.
  by rewrite foldl_add64_outputs.
Qed.

Lemma validateInputsFrom_no_panic accs sb ins t0 msg :
  (forall i, i ∈ ins -> is_Some (accs !! TxInput_Address i)) ->
  validateInputsFrom P accs sb ins t0 <> Panic msg.
Proof.
  revert t0. induction ins as [|i ins IH]; intros t0 H; simpl; [done|].
  destruct (H i) as [acc ->]; [left|].
  destruct (TxInput_ValidateBasic P i); [done|].
  destruct (negb _); [done|]. destruct (negb _); [done|].
  destruct (_ <? _); [done|]. apply IH. intros j Hj. apply H. by right.
Qed.

(** ** Adjusting the working accounts *)

Lemma AdjustByInputs_Ok accs (ins : list TxInput) :
  NoDup (map TxInput_Address ins) ->
  (forall i, i ∈ ins -> exists acc, accs !! TxInput_Address i = Some acc
                                    /\ TxInput_Amount i <= Account_Balance acc) ->
  exists accs', AdjustByInputs accs ins = Ok accs'
    /\ (forall i, i ∈ ins -> exists acc,
          accs !! TxInput_Address i = Some acc
          /\ accs' !! TxInput_Address i = Some (debit (TxInput_Amount i) acc))
    /\ (forall k : bytes, k ∉ map TxInput_Address ins -> accs' !! k = accs !! k).
Proof.
  revert accs. induction ins as [|i ins IH]; intros accs Hnd H; simpl.
  - exists accs. split; [done|]. split; [|done]. intros i Hi. by apply elem_of_nil in Hi.
  - rewrite fmap_cons in Hnd. apply NoDup_cons in Hnd as [Hnin Hnd].
    destruct (H i) as (acc & Ea & Hl); [left|]. rewrite Ea.
    rewrite (proj2 (Z.ltb_ge _ _) Hl).
    assert (Hne : forall j, j ∈ ins -> TxInput_Address j <> TxInput_Address i).
    { intros j Hj Heq. apply Hnin. rewrite <- Heq. apply list_elem_of_fmap. by exists j. }
    destruct (IH (<[TxInput_Address i := debit (TxInput_Amount i) acc]> accs) Hnd)
      as (accs' & Hok & Hin & Hout).
    { intros j Hj. destruct (H j) as (accj & Ej & Hlj); [by right|].
      exists accj. split; [|done]. rewrite lookup_insert_ne; [done|].
      by apply not_eq_sym, Hne. }
    exists accs'. split; [done|]. split.
    + intros j Hj. apply elem_of_cons in Hj as [->|Hj].
      * exists acc. split; [done|]. rewrite Hout by done. apply lookup_insert_eq.
      * destruct (Hin j Hj) as (accj & Ej & Ej'). exists accj. split; [|done].
        rewrite lookup_insert_ne in Ej; [done|]. by apply not_eq_sym, Hne.
    + intros k Hk. apply not_elem_of_cons in Hk as [Hne' Hk].
      rewrite Hout by done. by rewrite lookup_insert_ne.
Qed.

Lemma AdjustByOutputs_Ok accs (outs : list TxOutput) :
  (forall o, o ∈ outs -> is_Some (accs !! TxOutput_Address o)) ->
  exists accs', AdjustByOutputs accs outs = Ok accs'.
Proof.
  revert accs. induction outs as [|o outs IH]; intros accs H; simpl; [by eexists|].
  destruct (H o) as [acc ->]; [left|]. apply IH.
  intros o' Ho'. destruct (decide (TxOutput_Address o = TxOutput_Address o')) as [<-|Hne].
  - rewrite lookup_insert_eq. done.
  - rewrite lookup_insert_ne by done. apply H. by right.
Qed.

End Accounts.

(** ** SendTx *)

Section Send.
Context (P : Primitives).

Lemma canonicalInput_Address s i :
  TxInput_Address (canonicalInput s i) = TxInput_Address i.
Proof.
  unfold canonicalInput. destruct (accounts s !! _) as [acc|]; [|done].
  by destruct (isPubKeyNil _).
Qed.

Lemma canonicalInput_Amount s i :
  TxInput_Amount (canonicalInput s i) = TxInput_Amount i.
Proof.
  unfold canonicalInput. destruct (accounts s !! _) as [acc|]; [|done].
  by destruct (isPubKeyNil _).
Qed.

Lemma canonicalInput_addresses s (ins : list TxInput) :
  map TxInput_Address (map (canonicalInput s) ins) = map TxInput_Address ins.
Proof.
  induction ins as [|i ins IH]; simpl; [done|].
  by rewrite canonicalInput_Address, IH.
Qed.

Lemma Account_Address_inputAccount acc i :
  Account_Address (inputAccount acc i) = Account_Address acc.
Proof. unfold inputAccount. by destruct (isPubKeyNil _). Qed.

Lemma Account_Balance_inputAccount acc i :
  Account_Balance (inputAccount acc i) = Account_Balance acc.
Proof. unfold inputAccount. by destruct (isPubKeyNil _). Qed.

Lemma debitInputs_lookup (ins : list TxInput) t :
  NoDup (map TxInput_Address ins) ->
  (forall i, i ∈ ins ->
     debitInputs ins t !! TxInput_Address i
     = (fun acc => debit (TxInput_Amount i) (inputAccount acc i)) <$> t !! TxInput_Address i)
  /\ (forall k : bytes, k ∉ map TxInput_Address ins -> debitInputs ins t !! k = t !! k).
Proof.
  unfold debitInputs. revert t. induction ins as [|i ins IH]; intros t Hnd.
  - split; [|done]. intros i Hi. by apply elem_of_nil in Hi.
  - rewrite fmap_cons in *. apply NoDup_cons in Hnd as [Hnin Hnd]. cbn [foldl].
    destruct (IH (debitInput t i) Hnd) as [Hin Hout].
    assert (Hother : forall k : bytes, k <> TxInput_Address i -> debitInput t i !! k = t !! k).
    { intros k Hk. unfold debitInput. destruct (t !! TxInput_Address i); [|done].
      by rewrite lookup_insert_ne. }
    split.
    + intros j Hj. apply elem_of_cons in Hj as [->|Hj].
      * rewrite Hout by done. unfold debitInput.
        destruct (t !! TxInput_Address i) as [acc|] eqn:E; simpl.
        -- apply lookup_insert_eq.
        -- done.
      * rewrite (Hin j Hj). rewrite Hother; [done|].
        intros Heq. apply Hnin. rewrite <- Heq. apply list_elem_of_fmap. by exists j.
    + intros k Hk. apply not_elem_of_cons in Hk as [Hne Hk].
      rewrite Hout by done. by apply Hother.
Qed.

(** The working accounts of a send after both adjustments. *)
Lemma SendTx_adjust s ins outs ins' accs signBytes inTotal :
  GetOrMakeAccounts P s ins outs = (ins', Ok accs) ->
  ValidateInputs P accs signBytes ins' = Ok inTotal ->
  exists accs1 accs2,
    AdjustByInputs accs ins' = Ok accs1
    /\ AdjustByOutputs accs1 outs = Ok accs2
    /\ (forall i, i ∈ ins ->
          exists acc, accounts s !! TxInput_Address i = Some acc
            /\ TxInput_Amount i <= Account_Balance acc
            /\ accs2 !! TxInput_Address i
               = Some (debit (TxInput_Amount i) (inputAccount acc i)))
    /\ (forall o, o ∈ outs ->
          accs2 !! TxOutput_Address o
          = Some (credit (amountTo (TxOutput_Address o) outs)
                    (default (newAccount (TxOutput_Address o))
                             (accounts s !! TxOutput_Address o))))
    /\ (forall k : bytes,
          k ∉ map TxInput_Address ins ++ map TxOutput_Address outs -> accs2 !! k = None).
Proof.
  intros Hg Hv.
  assert (Hins : ins' = map (canonicalInput s) ins).
  { exact (GetOrMakeAccounts_Ok_inputs P _ _ _ _ _ Hg). }
  apply GetOrMakeAccounts_Ok_map in Hg as (Hnd & Hin & Hout & Hnone).
  apply NoDup_app in Hnd as (Hndi & Hdisj & Hndo).
  apply ValidateInputs_Ok_inv in Hv as [Hv _]. rewrite Forall_forall in Hv.
  destruct (AdjustByInputs_Ok accs ins') as (accs1 & Hok1 & Hin1 & Hout1).
  { subst ins'. by rewrite canonicalInput_addresses. }
  { intros j Hj. destruct (Hv j Hj) as (acc & Ha & _ & _ & _ & Hl). by exists acc. }
  destruct (AdjustByOutputs_Ok accs1 outs) as [accs2 Hok2].
  { intros o Ho. rewrite Hout1.
    - rewrite (Hout o Ho). done.
    - subst ins'. rewrite canonicalInput_addresses. intros Hk.
      apply (Hdisj _ Hk). apply list_elem_of_fmap. by exists o. }
  pose proof (AdjustByOutputs_lookup _ _ _ Hok2 Hndo) as Hl2.
  exists accs1, accs2. split; [done|]. split; [done|].
  assert (Hout1' : forall k : bytes, k ∉ map TxInput_Address ins -> accs1 !! k = accs !! k).
  { intros k Hk. apply Hout1. subst ins'. by rewrite canonicalInput_addresses. }
  split; [|split].
  - intros i Hi. destruct (Hin i Hi) as (acc & Ha & Hacc & _).
    exists acc. split; [done|].
    assert (Hi' : canonicalInput s i ∈ ins').
    { subst ins'. apply list_elem_of_fmap. by exists i. }
    destruct (Hin1 _ Hi') as (acc1 & Ha1 & Hacc1).
    destruct (Hv _ Hi') as (acc2 & Ha2 & _ & _ & _ & Hle).
    rewrite canonicalInput_Address in *. rewrite canonicalInput_Amount in *.
    assert (acc1 = inputAccount acc i) as -> by congruence.
    assert (acc2 = inputAccount acc i) as -> by congruence.
    rewrite Account_Balance_inputAccount in Hle. split; [done|].
    rewrite Hl2, decide_False; [done|].
    apply Hdisj, list_elem_of_fmap. by exists i.
  - intros o Ho.
    assert (Hoin : TxOutput_Address o ∈ map TxOutput_Address outs).
    { apply list_elem_of_fmap. by exists o. }
    rewrite Hl2, decide_True by done.
    rewrite Hout1' by (intros Hk; by apply (Hdisj _ Hk)).
    by rewrite (Hout o Ho).
  - intros k Hk. pose proof Hk as Hk'. apply not_elem_of_app in Hk' as [Hk1 Hk2].
    rewrite Hl2, decide_False by done. rewrite Hout1' by done. by apply Hnone.
Qed.

(** Writing the adjusted working accounts back gives the accounts of the
    state with the inputs debited and the outputs credited. *)
Lemma adjusted_accounts (s : State) (ins : list TxInput) (outs : list TxOutput)
  (accs2 : gmap bytes Account) :
  accountsWf s ->
  NoDup (map TxInput_Address ins ++ map TxOutput_Address outs) ->
  (forall i, i ∈ ins ->
     exists acc, accounts s !! TxInput_Address i = Some acc
       /\ TxInput_Amount i <= Account_Balance acc
       /\ accs2 !! TxInput_Address i
          = Some (debit (TxInput_Amount i) (inputAccount acc i))) ->
  (forall o, o ∈ outs ->
     accs2 !! TxOutput_Address o
     = Some (credit (amountTo (TxOutput_Address o) outs)
               (default (newAccount (TxOutput_Address o))
                        (accounts s !! TxOutput_Address o)))) ->
  (forall k : bytes,
     k ∉ map TxInput_Address ins ++ map TxOutput_Address outs -> accs2 !! k = None) ->
  map_fold (fun _ acc t => <[Account_Address acc := acc]> t) (accounts s) accs2
  = creditOutputs outs (debitInputs ins (accounts s)).
Proof.
  intros Hwf Hnd Hin Hout Hnone.
  apply NoDup_app in Hnd as (Hndi & Hdisj & Hndo).
  rewrite UpdateAccounts_union.
  - apply map_eq. intros k. rewrite creditOutputs_lookup by done.
    destruct (debitInputs_lookup ins (accounts s) Hndi) as [Hdin Hdout].
    rewrite lookup_union.
    destruct (decide (k ∈ map TxOutput_Address outs)) as [Hk|Hk].
    + apply list_elem_of_fmap in Hk as (o & -> & Ho).
      rewrite (Hout o Ho). rewrite Hdout.
      * by destruct (accounts s !! TxOutput_Address o).
      * intros Hk. apply (Hdisj _ Hk). apply list_elem_of_fmap. by exists o.
    + destruct (decide (k ∈ map TxInput_Address ins)) as [Hk'|Hk'].
      * apply list_elem_of_fmap in Hk' as (i & -> & Hi).
        destruct (Hin i Hi) as (acc & Ha & _ & ->). rewrite (Hdin i Hi), Ha. done.
      * rewrite Hnone by (by apply not_elem_of_app). rewrite Hdout by done.
        by destruct (accounts s !! k).
  - intros k acc Hk.
    destruct (decide (k ∈ map TxOutput_Address outs)) as [Ho|Ho].
    + apply list_elem_of_fmap in Ho as (o & -> & Ho). rewrite (Hout o Ho) in Hk.
      injection Hk as <-. simpl.
      destruct (accounts s !! TxOutput_Address o) eqn:E; simpl; [by apply Hwf in E|done].
    + destruct (decide (k ∈ map TxInput_Address ins)) as [Hi|Hi].
      * apply list_elem_of_fmap in Hi as (i & -> & Hi).
        destruct (Hin i Hi) as (acc0 & Ha & _ & Hacc). rewrite Hacc in Hk.
        injection Hk as <-. simpl. rewrite Account_Address_inputAccount.
        by apply Hwf in Ha.
      * rewrite Hnone in Hk by (by apply not_elem_of_app). done.
Qed.

Lemma SendTx_no_panic s ins outs :
  isPanic (snd (ExecTx P (SendTx ins outs) s)) = false.
Proof.
  unfold ExecTx.
  pose proof (GetOrMakeAccounts_errors P s ins outs) as Ho.
  destruct (GetOrMakeAccounts P s ins outs) as [ins' r] eqn:Eg.
  unfold withTx. simpl in Ho. destruct r as [accs|e|m]; [|done..]. msimpl.
  destruct (ValidateInputs P accs _ ins') as [inTotal|e|m] eqn:Ev; [|done|].
  - destruct (SendTx_adjust _ _ _ _ _ _ _ Eg Ev) as (accs1 & accs2 & -> & -> & _).
    destruct (ValidateOutputs P outs) as [outTotal|e|m] eqn:Eo; [|done|].
    + by destruct (inTotal <? outTotal).
    + by apply validateOutputsFrom_no_panic in Eo.
  - exfalso. revert Ev. apply validateInputsFrom_no_panic.
    assert (Hins : ins' = map (canonicalInput s) ins).
    { exact (GetOrMakeAccounts_Ok_inputs P _ _ _ _ _ Eg). }
    apply GetOrMakeAccounts_Ok_map in Eg as (_ & Hin & _).
    intros j Hj. subst ins'. apply list_elem_of_fmap in Hj as (i & -> & Hi).
    rewrite canonicalInput_Address. destruct (Hin i Hi) as (acc & _ & -> & _). done.
Qed.

(** X6. [ExecTx] never panics on a [SendTx]: the three panics of
    [ValidateInputs], [AdjustByInputs] and [AdjustByOutputs] cannot be
    reached from it, whatever the state and the transaction. *)
Theorem SendTx_never_panics s ins outs :
  isPanic (snd (ExecTx P (SendTx ins outs) s)) = false.
Proof. exact (SendTx_no_panic s ins outs). Qed.

Lemma SendTx_Ok_state s ins outs s' tx' :
  accountsWf s ->
  ExecTx P (SendTx ins outs) s = (s', tx', Ok tt) ->
  tx' = SendTx (map (canonicalInput s) ins) outs
  /\ s' = setAccounts (creditOutputs outs (debitInputs ins (accounts s))) s
  /\ NoDup (map TxInput_Address ins ++ map TxOutput_Address outs)
  /\ Forall (fun i => exists acc, accounts s !! TxInput_Address i = Some acc
                        /\ TxInput_Amount i <= Account_Balance acc) ins
  /\ wrap64 (sumOutputs outs) <= wrap64 (sumInputs ins).
Proof.
  intros Hwf H. unfold ExecTx in H.
  destruct (GetOrMakeAccounts P s ins outs) as [ins' r] eqn:Eg.
  unfold withTx in H. destruct r as [accs|e|m]; [|done..]. msimpl.
  assert (Hins : ins' = map (canonicalInput s) ins).
  { exact (GetOrMakeAccounts_Ok_inputs P _ _ _ _ _ Eg). }
  destruct (ValidateInputs P accs _ ins') as [inTotal|e|m] eqn:Ev; [|done..].
  destruct (SendTx_adjust _ _ _ _ _ _ _ Eg Ev)
    as (accs1 & accs2 & E1 & E2 & Hin & Hout & Hnone).
  destruct (ValidateOutputs P outs) as [outTotal|e|m] eqn:Eo; [|done..].
  destruct (inTotal <? outTotal) eqn:El; [done|].
  rewrite E1, E2 in H. injection H as <- <-.
  apply GetOrMakeAccounts_Ok_map in Eg as (Hnd & _).
  split; [by rewrite Hins|].
  split; [|split; [done|split]].
  - f_equal. by apply adjusted_accounts.
  - apply Forall_forall. intros i Hi. destruct (Hin i Hi) as (acc & Ha & Hl & _).
    by exists acc.
  - apply ValidateInputs_Ok_inv in Ev as [_ ->]. apply ValidateOutputs_Ok_inv in Eo as [_ ->].
    subst ins'.
    assert (sumInputs (map (canonicalInput s) ins) = sumInputs ins) as <-.
    { clear. induction ins as [|i ins IH]; simpl; [done|].
      by rewrite canonicalInput_Amount, IH. }
    lia.
Qed.

(** X7. The effect of an accepted [SendTx], in a state whose accounts are
    stored under their own addresses: the accounts are those of the state
    with every input debited (balance down by the amount, sequence up by
    one, the key of the input recorded when none was) and then every output
    credited, nothing else of the state changes, and the transaction is left
    with its inputs canonicalized.  An accepted send has pairwise distinct
    addresses, inputs that their accounts cover, and an output total (modulo
    [2^64]) that is at most the input total (modulo [2^64]). *)
Theorem SendTx_effect s ins outs s' tx' :
  accountsWf s ->
  ExecTx P (SendTx ins outs) s = (s', tx', Ok tt) ->
  tx' = SendTx (map (canonicalInput s) ins) outs
  /\ s' = setAccounts (creditOutputs outs (debitInputs ins (accounts s))) s
  /\ NoDup (map TxInput_Address ins ++ map TxOutput_Address outs)
  /\ Forall (fun i => exists acc, accounts s !! TxInput_Address i = Some acc
                        /\ TxInput_Amount i <= Account_Balance acc) ins
  /\ wrap64 (sumOutputs outs) <= wrap64 (sumInputs ins).
Proof. exact (SendTx_Ok_state s ins outs s' tx'). Qed.

End Send.

(** ** Conservation of coins *)

Lemma totalBalance_insert_None t k a :
  t !! k = None ->
  totalBalance (<[k:=a]> t) = totalBalance t + Account_Balance a.
Proof.
  intros H. unfold totalBalance. rewrite map_fold_insert_L; [done| |done].
  intros. lia.
Qed.

Lemma totalBalance_delete t k a :
  t !! k = Some a ->
  totalBalance t = totalBalance (delete k t) + Account_Balance a.
Proof.
  intros H. unfold totalBalance. rewrite (map_fold_delete_L _ _ k a t); [done| |done].
  intros. lia.
Qed.

Lemma totalBalance_insert_Some t k a0 a :
  t !! k = Some a0 ->
  totalBalance (<[k:=a]> t) = totalBalance t - Account_Balance a0 + Account_Balance a.
Proof.
  intros H. rewrite <- insert_delete_eq.
  rewrite totalBalance_insert_None by apply lookup_delete_eq.
  rewrite (totalBalance_delete t k a0 H). lia.
Qed.

Lemma debitInputs_total (ins : list TxInput) t :
  NoDup (map TxInput_Address ins) ->
  (forall i, i ∈ ins -> exists acc, t !! TxInput_Address i = Some acc
       /\ 0 <= TxInput_Amount i <= Account_Balance acc /\ Account_Balance acc < 2 ^ 64) ->
  totalBalance (debitInputs ins t) = totalBalance t - sumInputs ins.
Proof.
  unfold debitInputs. revert t. induction ins as [|i ins IH]; intros t Hnd H.
  - simpl. lia.
  - rewrite fmap_cons in Hnd. apply NoDup_cons in Hnd as [Hnin Hnd]. cbn [foldl].
    destruct (H i) as (acc & Ea & Hamt & Hbal); [left|].
    rewrite IH; [|done|].
    + unfold debitInput. rewrite Ea. rewrite (totalBalance_insert_Some _ _ acc) by done.
      simpl. rewrite Account_Balance_inputAccount. unfold sub64.
      rewrite wrap64_small by lia. lia.
    + intros j Hj. destruct (H j) as (accj & Ej & Hj'); [by right|].
      exists accj. split; [|done]. unfold debitInput. rewrite Ea.
      rewrite lookup_insert_ne; [done|].
      intros Heq. apply Hnin. rewrite Heq. apply list_elem_of_fmap. by exists j.
Qed.

Lemma creditOutputs_total (outs : list TxOutput) t :
  NoDup (map TxOutput_Address outs) ->
  (forall o, o ∈ outs ->
     0 <= TxOutput_Amount o
     /\ 0 <= Account_Balance (default (newAccount (TxOutput_Address o))
                                      (t !! TxOutput_Address o))
     /\ Account_Balance (default (newAccount (TxOutput_Address o))
                                 (t !! TxOutput_Address o))
        + TxOutput_Amount o < 2 ^ 64) ->
  totalBalance (creditOutputs outs t) = totalBalance t + sumOutputs outs.
Proof.
  unfold creditOutputs. revert t. induction outs as [|o outs IH]; intros t Hnd H.
  - simpl. lia.
  - rewrite fmap_cons in Hnd. apply NoDup_cons in Hnd as [Hnin Hnd]. cbn [foldl].
    destruct (H o) as (Hamt & Hbal & Hsum); [left|].
    rewrite IH; [|done|].
    + unfold creditOutput, newAccount in *.
      destruct (t !! TxOutput_Address o) as [acc|] eqn:Ea; simpl in *.
      * rewrite (totalBalance_insert_Some _ _ acc) by done. simpl. unfold add64.
        rewrite wrap64_small by lia. lia.
      * rewrite totalBalance_insert_None by done. simpl. unfold add64.
        rewrite wrap64_small by lia. lia.
    + intros o' Ho'. unfold creditOutput. rewrite lookup_insert_ne; [by apply H; right|].
      intros Heq. apply Hnin. rewrite Heq. apply list_elem_of_fmap. by exists o'.
Qed.

Section Conservation.
Context (P : Primitives).

(** X8. Conservation.  When the balances of the state are 64-bit numbers,
    no amount is negative and no output overflows the balance it is added
    to, an accepted [SendTx] changes the sum of all balances by exactly the
    sum of the outputs minus the sum of the inputs; when moreover the sum of
    the outputs is below [2^64], no coin is created. *)
Theorem SendTx_conservation s ins outs s' tx' :
  accountsWf s ->
  map_Forall (fun _ acc => isUint64 (Account_Balance acc)) (accounts s) ->
  Forall (fun i => 0 <= TxInput_Amount i) ins ->
  Forall (fun o => 0 <= TxOutput_Amount o
            /\ Account_Balance (default (newAccount (TxOutput_Address o))
                                        (accounts s !! TxOutput_Address o))
               + TxOutput_Amount o < 2 ^ 64) outs ->
  ExecTx P (SendTx ins outs) s = (s', tx', Ok tt) ->
  totalBalance (accounts s')
  = totalBalance (accounts s) - sumInputs ins + sumOutputs outs
  /\ (sumOutputs outs < 2 ^ 64 -> totalBalance (accounts s') <= totalBalance (accounts s)).
Proof.
  intros Hwf Hty Hins Houts H.
  apply SendTx_Ok_state in H as (_ & -> & Hnd & Hin & Hle); [|done].
  apply NoDup_app in Hnd as (Hndi & Hdisj & Hndo).
  rewrite Forall_forall in Hins. rewrite Forall_forall in Houts.
  rewrite Forall_forall in Hin.
  assert (Hpos_in : 0 <= sumInputs ins).
  { clear -Hins. induction ins as [|i ins IH]; simpl; [done|].
    assert (0 <= TxInput_Amount i) by (apply Hins; left).
    assert (0 <= sumInputs ins) by (apply IH; intros; apply Hins; by right). lia. }
  assert (Hpos_out : 0 <= sumOutputs outs).
  { clear -Houts. induction outs as [|o outs IH]; simpl; [done|].
    assert (0 <= TxOutput_Amount o) by (apply Houts; left).
    assert (0 <= sumOutputs outs) by (apply IH; intros; apply Houts; by right). lia. }
  assert (Heq : totalBalance (creditOutputs outs (debitInputs ins (accounts s)))
                = totalBalance (accounts s) - sumInputs ins + sumOutputs outs).
  { rewrite creditOutputs_total; [|done|].
    - rewrite debitInputs_total; [done|done|].
      intros i Hi. destruct (Hin i Hi) as (acc & Ha & Hl). exists acc.
      split; [done|]. specialize (Hins i Hi). apply Hty in Ha. unfold isUint64 in Ha. lia.
    - intros o Ho. destruct (Houts o Ho) as [Hamt Hsum].
      destruct (debitInputs_lookup ins (accounts s) Hndi) as [_ Hdout].
      rewrite Hdout.
      + split; [done|]. split; [|done].
        destruct (accounts s !! TxOutput_Address o) as [acc|] eqn:Ea; simpl; [|done].
        apply Hty in Ea. unfold isUint64 in Ea. lia.
      + intros Hk. apply (Hdisj _ Hk). apply list_elem_of_fmap. by exists o. }
  simpl. split; [done|]. intros Hsmall. rewrite Heq.
  rewrite (wrap64_small (sumOutputs outs)) in Hle by lia.
  pose proof (wrap64_range (sumInputs ins)).
  assert (wrap64 (sumInputs ins) <= sumInputs ins).
  { unfold wrap64. apply Z.mod_le; lia. }
  lia.
Qed.

End Conservation.

(** A send of 7 coins out of an input of 10: the working map holds the
    account of the input and a fresh account for the output. *)
Lemma GetOrMakeAccounts_Ok_witness :
  let r := GetOrMakeAccounts Scenario.primitives Scenario.replayState
             Scenario.sendInputs Scenario.sendOutputs in
  let accs := match snd r with Ok accs => accs | _ => ∅ end in
  NoDup (map TxInput_Address Scenario.sendInputs
         ++ map TxOutput_Address Scenario.sendOutputs)
  /\ accs !! Scenario.addr x0a = Some (Scenario.account x0a 0 100)
  /\ accs !! Scenario.addr x0b = Some (newAccount (Scenario.addr x0b))
  /\ accs !! Scenario.addr x0c = None.
Proof.
  intros r accs.
  destruct (GetOrMakeAccounts_Ok Scenario.primitives Scenario.replayState
              Scenario.sendInputs Scenario.sendOutputs (fst r) accs)
    as (Hnd & _ & _ & Hnone).
  - apply Ok_eta. vm_compute. reflexivity.
  - split; [done|]. split; [vm_compute; reflexivity|].
    split; [vm_compute; reflexivity|].
    apply Hnone. apply (bool_decide_unpack _). vm_compute. exact I.
Defined.

(** The same send: the payer is left with 90 coins and sequence number 1,
    the payee has 7 coins. *)
Lemma SendTx_effect_witness :
  let s' := fst (fst (ExecTx Scenario.primitives
                        (SendTx Scenario.sendInputs Scenario.sendOutputs)
                        Scenario.replayState)) in
  accounts s' !! Scenario.addr x0a = Some (Scenario.account x0a 1 90)
  /\ accounts s' !! Scenario.addr x0b
     = Some (mkAccount (Scenario.addr x0b) PubKeyNil 0 7).
Proof.
  intros s'.
  destruct (SendTx_effect Scenario.primitives Scenario.replayState
              Scenario.sendInputs Scenario.sendOutputs s'
              (snd (fst (ExecTx Scenario.primitives
                           (SendTx Scenario.sendInputs Scenario.sendOutputs)
                           Scenario.replayState))))
    as (_ & -> & _).
  - apply (bool_decide_unpack _). vm_compute. exact I.
  - vm_compute. reflexivity.
  - split; vm_compute; reflexivity.
Defined.

(** The same send: 3 coins leave the accounts (the fee). *)
Lemma SendTx_conservation_witness :
  totalBalance (accounts (fst (fst (ExecTx Scenario.primitives
                                      (SendTx Scenario.sendInputs Scenario.sendOutputs)
                                      Scenario.replayState))))
  = 100 - 10 + 7.
Proof.
  refine (proj1 (SendTx_conservation Scenario.primitives Scenario.replayState
                   Scenario.sendInputs Scenario.sendOutputs _
                   (snd (fst (ExecTx Scenario.primitives
                                (SendTx Scenario.sendInputs Scenario.sendOutputs)
                                Scenario.replayState))) _ _ _ _ _)).
  - apply (bool_decide_unpack _). vm_compute. exact I.
  - apply (bool_decide_unpack _). vm_compute. exact I.
  - repeat constructor; simpl; lia.
  - repeat constructor; vm_compute; congruence.
  - vm_compute. reflexivity.
Defined.

(** ** Bonding, unbonding and rebonding *)

Section ValidatorTxs.
Context (P : Primitives).

Lemma rebondValidator_Ok w s s' :
  rebondValidator w s = (s', Ok tt) ->
  exists v,
    GetByAddress (Validator_Address w) (UnbondingValidators s) = Some v
    /\ GetByAddress (Validator_Address w) (BondedValidators s) = None
    /\ s' = mkState (DB s) (LastBlockHeight s) (LastBlockHash s) (LastBlockParts s)
              (LastBlockTime s)
              (insertByAddress (setBondHeight (add64 (LastBlockHeight s) 1) v)
                 (BondedValidators s))
              (removeByAddress (Validator_Address w) (UnbondingValidators s))
              (accounts s) (validatorInfos s).
Proof.
  unfold rebondValidator, removeUnbonding, ValidatorSet_Remove. msimpl.
  destruct (GetByAddress (Validator_Address w) (UnbondingValidators s)) as [v|] eqn:Ev;
    msimpl; [|done].
  unfold addBonded, ValidatorSet_Add. simpl.
  destruct (GetByAddress_Some _ _ _ Ev) as [Hv _]. rewrite Hv.
  destruct (GetByAddress (Validator_Address w) (BondedValidators s)) eqn:Eu;
    msimpl; [done|].
  intros [= <-]. exists v. done.
Qed.

(** X9. The effect of an accepted [BondTx], in a state whose accounts are
    stored under their own addresses.  The address of the key had no record
    and was not bonded; afterwards it has the record [{address, key,
    unbond_to, first bond height = last height + 1, first bond amount =
    power}] and is bonded with that power, where the power is the sum of the
    [unbond_to] amounts modulo [2^64]; the inputs are debited and nothing is
    credited; the unbonding set is unchanged. *)
Theorem BondTx_effect s ins unbondTo pubKey s' tx' :
  accountsWf s ->
  ExecTx P (BondTx ins unbondTo pubKey) s = (s', tx', Ok tt) ->
  let address := PubKey_Address P pubKey in
  let height := add64 (LastBlockHeight s) 1 in
  let power := wrap64 (sumOutputs unbondTo) in
  validatorInfos s !! address = None
  /\ GetByAddress address (BondedValidators s) = None
  /\ power <= wrap64 (sumInputs ins)
  /\ tx' = BondTx (map (canonicalInput s) ins) unbondTo pubKey
  /\ s' = mkState (DB s) (LastBlockHeight s) (LastBlockHash s) (LastBlockParts s)
            (LastBlockTime s)
            (insertByAddress (mkValidator address pubKey height 0 0 power 0)
               (BondedValidators s))
            (UnbondingValidators s)
            (debitInputs ins (accounts s))
            (<[address := mkValidatorInfo address pubKey unbondTo height power 0 0 0]>
               (validatorInfos s)).
Proof.
  intros Hwf H address height power. simpl in H. unfold GetValidatorInfo in H.
  fold address in H.
  destruct (validatorInfos s !! address) eqn:Einfo; [done|].
  destruct (GetOrMakeAccounts P s ins []) as [ins' r] eqn:Eg.
  unfold withTx in H. destruct r as [accs|e|m]; [|done..]. msimpl.
  assert (Hins : ins' = map (canonicalInput s) ins).
  { exact (GetOrMakeAccounts_Ok_inputs P _ _ _ _ _ Eg). }
  destruct (ValidateInputs P accs _ ins') as [inTotal|e|m] eqn:Ev; [|done..].
  destruct (SendTx_adjust _ _ _ _ _ _ _ _ Eg Ev)
    as (accs1 & accs2 & E1 & E2 & Hin & Hout & Hnone).
  simpl in E2. injection E2 as <-.
  destruct (PubKey_ValidateBasic P pubKey); [done|]. msimpl.
  destruct (ValidateOutputs P unbondTo) as [outTotal|e|m] eqn:Eo; [|done..].
  destruct (inTotal <? outTotal) eqn:El; [done|].
  rewrite E1 in H. msimpl.
  unfold addBonded, ValidatorSet_Add in H. simpl in H. fold address in H.
  destruct (GetByAddress address (BondedValidators s)) eqn:Eb; msimpl; [done|].
  injection H as <- <-.
  apply ValidateInputs_Ok_inv in Ev as [_ ->]. apply ValidateOutputs_Ok_inv in Eo as [_ ->].
  assert (sumInputs ins' = sumInputs ins) as Hsum.
  { subst ins'. clear. induction ins as [|i ins IH]; simpl; [done|].
    by rewrite canonicalInput_Amount, IH. }
  rewrite Hsum in El.
  split; [done|]. split; [done|]. split; [lia|]. split; [by rewrite Hins|].
  unfold setValidatorInfos, setBondedValidators, setAccounts. simpl. f_equal.
  rewrite (adjusted_accounts s ins [] accs1); try done.
  apply GetOrMakeAccounts_Ok_map in Eg as (Hnd & _). done.
Qed.

Lemma UnbondTx_Ok s address height signature s' tx' :
  ExecTx P (UnbondTx address height signature) s = (s', tx', Ok tt) ->
  exists val,
    GetByAddress address (BondedValidators s) = Some val
    /\ GetByAddress address (UnbondingValidators s) = None
    /\ VerifyBytes P (Validator_PubKey val)
         (Tx_SignBytes P (UnbondTx address height signature)) signature = true
    /\ Validator_LastCommitHeight val < height
    /\ tx' = UnbondTx address height signature
    /\ s' = mkState (DB s) (LastBlockHeight s) (LastBlockHash s) (LastBlockParts s)
              (LastBlockTime s)
              (removeByAddress address (BondedValidators s))
              (insertByAddress (setUnbondHeight (add64 (LastBlockHeight s) 1) val)
                 (UnbondingValidators s))
              (accounts s) (validatorInfos s)
    /\ GetByAddress address (BondedValidators s') = None
    /\ GetByAddress address (UnbondingValidators s')
       = Some (setUnbondHeight (add64 (LastBlockHeight s) 1) val)
    /\ (forall k, k <> address ->
          GetByAddress k (BondedValidators s') = GetByAddress k (BondedValidators s)
          /\ GetByAddress k (UnbondingValidators s')
             = GetByAddress k (UnbondingValidators s)).
Proof.
  unfold ExecTx, withTx.
  destruct (GetByAddress address (BondedValidators s)) as [val|] eqn:Ev; [|done].
  destruct (VerifyBytes P _ _ _) eqn:Es; [|done]. simpl.
  destruct (height <=? Validator_LastCommitHeight val) eqn:Eh; [done|].
  destruct (unbondValidator val s) as [s1 r] eqn:Eu. intros [= -> <- ->].
  apply unbondValidator_Ok in Eu as (v & Hv & Hu & ->).
  destruct (GetByAddress_Some _ _ _ Ev) as [Ha _]. rewrite Ha in *.
  assert (v = val) as -> by congruence.
  exists val. repeat split; try done.
  - lia.
  - simpl. apply GetByAddress_removeByAddress.
  - simpl. rewrite <- Ha at 1.
    apply (GetByAddress_insertByAddress_eq
             (setUnbondHeight (add64 (LastBlockHeight s) 1) val)). simpl. by rewrite Ha.
  - simpl. by apply GetByAddress_removeByAddress_ne.
  - simpl. apply GetByAddress_insertByAddress_ne. simpl. by rewrite Ha.
Qed.

(** X10. An accepted [UnbondTx] moves the validator at its address from
    the bonded set to the unbonding set with unbond height
    [last height + 1]: the validator was bonded and not unbonding, its key
    verifies the signature and [tx.Height] is above its last commit height;
    the other validators, the accounts, the records and the block tail are
    untouched. *)
Theorem UnbondTx_effect s address height signature s' tx' :
  ExecTx P (UnbondTx address height signature) s = (s', tx', Ok tt) ->
  exists val,
    GetByAddress address (BondedValidators s) = Some val
    /\ GetByAddress address (UnbondingValidators s) = None
    /\ VerifyBytes P (Validator_PubKey val)
         (Tx_SignBytes P (UnbondTx address height signature)) signature = true
    /\ Validator_LastCommitHeight val < height
    /\ tx' = UnbondTx address height signature
    /\ s' = mkState (DB s) (LastBlockHeight s) (LastBlockHash s) (LastBlockParts s)
              (LastBlockTime s)
              (removeByAddress address (BondedValidators s))
              (insertByAddress (setUnbondHeight (add64 (LastBlockHeight s) 1) val)
                 (UnbondingValidators s))
              (accounts s) (validatorInfos s)
    /\ GetByAddress address (BondedValidators s') = None
    /\ GetByAddress address (UnbondingValidators s')
       = Some (setUnbondHeight (add64 (LastBlockHeight s) 1) val)
    /\ (forall k, k <> address ->
          GetByAddress k (BondedValidators s') = GetByAddress k (BondedValidators s)
          /\ GetByAddress k (UnbondingValidators s')
             = GetByAddress k (UnbondingValidators s))
    /\ (Validator_UnbondHeight <$> GetByAddress address (UnbondingValidators s'))
       = Some (add64 (LastBlockHeight s) 1).
Proof.
  intros H.
  destruct (UnbondTx_Ok _ _ _ _ _ _ H)
    as (val & H1 & H2 & H3 & H4 & H5 & H6 & H7 & H8 & H9).
  exists val. repeat (split; [assumption|]). by rewrite H8.
Qed.

Lemma RebondTx_Ok s address height signature s' tx' :
  ExecTx P (RebondTx address height signature) s = (s', tx', Ok tt) ->
  exists val,
    GetByAddress address (UnbondingValidators s) = Some val
    /\ GetByAddress address (BondedValidators s) = None
    /\ VerifyBytes P (Validator_PubKey val)
         (Tx_SignBytes P (RebondTx address height signature)) signature = true
    /\ height = add64 (LastBlockHeight s) 1
    /\ tx' = RebondTx address height signature
    /\ s' = mkState (DB s) (LastBlockHeight s) (LastBlockHash s) (LastBlockParts s)
              (LastBlockTime s)
              (insertByAddress (setBondHeight height val) (BondedValidators s))
              (removeByAddress address (UnbondingValidators s))
              (accounts s) (validatorInfos s)
    /\ GetByAddress address (UnbondingValidators s') = None
    /\ GetByAddress address (BondedValidators s') = Some (setBondHeight height val)
    /\ (forall k, k <> address ->
          GetByAddress k (BondedValidators s') = GetByAddress k (BondedValidators s)
          /\ GetByAddress k (UnbondingValidators s')
             = GetByAddress k (UnbondingValidators s)).
Proof.
  unfold ExecTx, withTx.
  destruct (GetByAddress address (UnbondingValidators s)) as [val|] eqn:Ev; [|done].
  destruct (VerifyBytes P _ _ _) eqn:Es; [|done]. simpl.
  destruct (height =? add64 (LastBlockHeight s) 1) eqn:Eh; [|done]. simpl.
  apply Z.eqb_eq in Eh.
  destruct (rebondValidator val s) as [s1 r] eqn:Eu. intros [= -> <- ->].
  apply rebondValidator_Ok in Eu as (v & Hv & Hu & ->).
  destruct (GetByAddress_Some _ _ _ Ev) as [Ha _]. rewrite Ha in *.
  assert (v = val) as -> by congruence. rewrite <- Eh.
  exists val. repeat split; try done.
  - simpl. apply GetByAddress_removeByAddress.
  - simpl. rewrite <- Ha at 1.
    apply (GetByAddress_insertByAddress_eq (setBondHeight height val)). simpl.
    by rewrite Ha.
  - simpl. apply GetByAddress_insertByAddress_ne. simpl. by rewrite Ha.
  - simpl. by apply GetByAddress_removeByAddress_ne.
Qed.

(** X11. An accepted [RebondTx] moves the validator at its address from
    the unbonding set back to the bonded set with bond height
    [last height + 1], which is what [tx.Height] has to be: the validator
    was unbonding and not bonded and its key verifies the signature; the
    other validators, the accounts, the records and the block tail are
    untouched. *)
Theorem RebondTx_effect s address height signature s' tx' :
  ExecTx P (RebondTx address height signature) s = (s', tx', Ok tt) ->
  exists val,
    GetByAddress address (UnbondingValidators s) = Some val
    /\ GetByAddress address (BondedValidators s) = None
    /\ VerifyBytes P (Validator_PubKey val)
         (Tx_SignBytes P (RebondTx address height signature)) signature = true
    /\ height = add64 (LastBlockHeight s) 1
    /\ tx' = RebondTx address height signature
    /\ s' = mkState (DB s) (LastBlockHeight s) (LastBlockHash s) (LastBlockParts s)
              (LastBlockTime s)
              (insertByAddress (setBondHeight height val) (BondedValidators s))
              (removeByAddress address (UnbondingValidators s))
              (accounts s) (validatorInfos s)
    /\ GetByAddress address (UnbondingValidators s') = None
    /\ GetByAddress address (BondedValidators s') = Some (setBondHeight height val)
    /\ (forall k, k <> address ->
          GetByAddress k (BondedValidators s') = GetByAddress k (BondedValidators s)
          /\ GetByAddress k (UnbondingValidators s')
             = GetByAddress k (UnbondingValidators s))
    /\ (Validator_BondHeight <$> GetByAddress address (BondedValidators s'))
       = Some (add64 (LastBlockHeight s) 1).
Proof.
  intros H.
  destruct (RebondTx_Ok _ _ _ _ _ _ H)
    as (val & H1 & H2 & H3 & H4 & H5 & H6 & H7 & H8 & H9).
  exists val. repeat (split; [assumption|]). rewrite H8. simpl. by rewrite H4.
Qed.

(** X12. An accepted [UnbondTx] followed by an accepted [RebondTx] for the
    same address leaves the validator bonded, with bond height and unbond
    height [last height + 1] and its other fields as before; no other
    validator of either set, no account and no record has changed. *)
Theorem Unbond_then_Rebond s address h1 sig1 h2 sig2 s1 tx1 s2 tx2 :
  ExecTx P (UnbondTx address h1 sig1) s = (s1, tx1, Ok tt) ->
  ExecTx P (RebondTx address h2 sig2) s1 = (s2, tx2, Ok tt) ->
  exists val,
    GetByAddress address (BondedValidators s) = Some val
    /\ GetByAddress address (BondedValidators s2)
       = Some (setBondHeight (add64 (LastBlockHeight s) 1)
                 (setUnbondHeight (add64 (LastBlockHeight s) 1) val))
    /\ (exists val',
          GetByAddress address (BondedValidators s2) = Some val'
          /\ Validator_BondHeight val' = add64 (LastBlockHeight s) 1
          /\ Validator_UnbondHeight val' = add64 (LastBlockHeight s) 1
          /\ Validator_Address val' = Validator_Address val
          /\ Validator_PubKey val' = Validator_PubKey val
          /\ Validator_LastCommitHeight val' = Validator_LastCommitHeight val
          /\ Validator_VotingPower val' = Validator_VotingPower val
          /\ Validator_Accum val' = Validator_Accum val)
    /\ GetByAddress address (UnbondingValidators s2) = None
    /\ (forall k, k <> address ->
          GetByAddress k (BondedValidators s2) = GetByAddress k (BondedValidators s)
          /\ GetByAddress k (UnbondingValidators s2)
             = GetByAddress k (UnbondingValidators s))
    /\ accounts s2 = accounts s
    /\ validatorInfos s2 = validatorInfos s
    /\ LastBlockHeight s2 = LastBlockHeight s.
Proof.
  intros H1 H2.
  apply UnbondTx_Ok in H1 as (val & Hb & Hu & _ & _ & _ & Hs1 & Hb1 & Hu1 & Hk1).
  apply RebondTx_Ok in H2 as (val' & Hu2 & _ & _ & Hh & _ & Hs2 & Hu3 & Hb3 & Hk2).
  assert (val' = setUnbondHeight (add64 (LastBlockHeight s) 1) val) as -> by congruence.
  assert (Hh1 : LastBlockHeight s1 = LastBlockHeight s) by (by rewrite Hs1).
  exists val. split; [done|]. rewrite Hh, Hh1 in Hb3. split; [done|].
  split; [eexists; split; [exact Hb3|done]|]. split; [done|].
  split.
  { intros k Hk. destruct (Hk1 k Hk) as [E1 E2]. destruct (Hk2 k Hk) as [E3 E4].
    split; congruence. }
  rewrite Hs2. simpl. rewrite Hs1. done.
Qed.

(** X13. An accepted [DupeoutTx] names a bonded validator that has a
    record; both votes verify under its key and have the same height, and
    either the first is a commit of an earlier round than the second, or
    they have the same round and type and different block hashes.  Its only
    effects are that the validator leaves the bonded set and that its record
    gets destroyed height [last height + 1] and destroyed amount equal to
    its voting power. *)
Theorem DupeoutTx_effect s address voteA voteB s' tx' :
  ExecTx P (DupeoutTx address voteA voteB) s = (s', tx', Ok tt) ->
  exists accused valInfo,
    GetByAddress address (BondedValidators s) = Some accused
    /\ validatorInfos s !! address = Some valInfo
    /\ VerifyBytes P (Validator_PubKey accused) (Vote_SignBytes P voteA)
         (Vote_Signature voteA) = true
    /\ VerifyBytes P (Validator_PubKey accused) (Vote_SignBytes P voteB)
         (Vote_Signature voteB) = true
    /\ Vote_Height voteA = Vote_Height voteB
    /\ ((Vote_Type voteA = VoteTypeCommit /\ Vote_Round voteA < Vote_Round voteB)
        \/ (Vote_Round voteA = Vote_Round voteB
            /\ Vote_Type voteA = Vote_Type voteB
            /\ Vote_BlockHash voteA <> Vote_BlockHash voteB))
    /\ tx' = DupeoutTx address voteA voteB
    /\ s' = mkState (DB s) (LastBlockHeight s) (LastBlockHash s) (LastBlockParts s)
              (LastBlockTime s)
              (removeByAddress address (BondedValidators s))
              (UnbondingValidators s) (accounts s)
              (<[ValidatorInfo_Address valInfo :=
                   setDestroyed (add64 (LastBlockHeight s) 1)
                     (Validator_VotingPower accused) valInfo]> (validatorInfos s))
    /\ (ValidatorInfo_DestroyedHeight
          <$> validatorInfos s' !! ValidatorInfo_Address valInfo)
       = Some (add64 (LastBlockHeight s) 1)
    /\ (ValidatorInfo_DestroyedAmount
          <$> validatorInfos s' !! ValidatorInfo_Address valInfo)
       = Some (Validator_VotingPower accused)
    /\ (ValidatorInfo_ReleasedHeight
          <$> validatorInfos s' !! ValidatorInfo_Address valInfo)
       = Some (ValidatorInfo_ReleasedHeight valInfo)
    /\ (ValidatorInfo_UnbondTo <$> validatorInfos s' !! ValidatorInfo_Address valInfo)
       = Some (ValidatorInfo_UnbondTo valInfo).
Proof.
  unfold ExecTx, withTx.
  destruct (GetByAddress address (BondedValidators s)) as [accused|] eqn:Ea;
    msimpl; [|done].
  destruct (GetByAddress_Some _ _ _ Ea) as [Ha _].
  destruct (VerifyBytes P _ _ (Vote_Signature voteA)) eqn:EA; msimpl; [|done].
  destruct (VerifyBytes P _ _ (Vote_Signature voteB)) eqn:EB; msimpl; [|done].
  destruct (Vote_Height voteA =? Vote_Height voteB) eqn:Eh; msimpl; [|done].
  apply Z.eqb_eq in Eh.
  set (cond := if bool_decide (Vote_Type voteA = VoteTypeCommit)
                    && (Vote_Round voteA <? Vote_Round voteB)
               then Ok tt
               else if negb (Vote_Round voteA =? Vote_Round voteB)
               then Err (ErrNew "DupeoutTx rounds don't match")
               else if negb (bool_decide (Vote_Type voteA = Vote_Type voteB))
               then Err (ErrNew "DupeoutTx types don't match")
               else if bytes_eqb (Vote_BlockHash voteA) (Vote_BlockHash voteB)
               then Err (ErrNew "DupeoutTx blockhashes shouldn't match")
               else Ok tt).
  assert (Hcond : cond = Ok tt ->
            (Vote_Type voteA = VoteTypeCommit /\ Vote_Round voteA < Vote_Round voteB)
            \/ (Vote_Round voteA = Vote_Round voteB
                /\ Vote_Type voteA = Vote_Type voteB
                /\ Vote_BlockHash voteA <> Vote_BlockHash voteB)).
  { unfold cond.
    destruct (bool_decide (Vote_Type voteA = VoteTypeCommit)
              && (Vote_Round voteA <? Vote_Round voteB)) eqn:E1.
    - intros _. left. apply andb_true_iff in E1 as [E1 E2].
      apply bool_decide_eq_true in E1. split; [done|lia].
    - destruct (Vote_Round voteA =? Vote_Round voteB) eqn:E2; [|done]. simpl.
      destruct (bool_decide (Vote_Type voteA = Vote_Type voteB)) eqn:E3; [|done]. simpl.
      destruct (bytes_eqb _ _) eqn:E4; [done|]. intros _. right.
      apply bool_decide_eq_true in E3. apply bytes_eqb_neq in E4.
      split; [lia|done]. }
  destruct cond as [[]| |]; msimpl; [|done..].
  specialize (Hcond eq_refl).
  unfold destroyValidator, GetValidatorInfo. msimpl. rewrite Ha.
  destruct (validatorInfos s !! address) as [valInfo|] eqn:Ei; msimpl; [|done].
  unfold removeBonded, ValidatorSet_Remove. msimpl.
  rewrite Ea. msimpl.
  intros [= <- <-]. exists accused, valInfo.
  repeat split; try done; simpl; by rewrite lookup_insert_eq.
Qed.

End ValidatorTxs.

(** The bond of block 12 of the scenario of C8: validator [x01] is bonded
    with voting power 10 at height 12 and the payer is left with 90 coins. *)
Lemma BondTx_effect_witness :
  let s' := fst (fst (ExecTx Scenario.primitives
                        (BondTx Scenario.bondInputs Scenario.bondUnbondTo
                           (Scenario.key x01))
                        Scenario.shiftState)) in
  GetByAddress (Scenario.addr x01) (BondedValidators s')
  = Some (mkValidator (Scenario.addr x01) (Scenario.key x01) 12 0 0 10 0)
  /\ accounts s' !! Scenario.addr x0a = Some (Scenario.account x0a 1 90)
  /\ accounts s' !! Scenario.addr x0b = None.
Proof.
  intros s'.
  destruct (BondTx_effect Scenario.primitives Scenario.shiftState
              Scenario.bondInputs Scenario.bondUnbondTo (Scenario.key x01) s'
              (snd (fst (ExecTx Scenario.primitives
                           (BondTx Scenario.bondInputs Scenario.bondUnbondTo
                              (Scenario.key x01))
                           Scenario.shiftState))))
    as (_ & _ & _ & _ & ->).
  - apply (bool_decide_unpack _). vm_compute. exact I.
  - vm_compute. reflexivity.
  - repeat split; vm_compute; reflexivity.
Defined.

(** Validator [x02] unbonds at height 1. *)
Lemma UnbondTx_effect_witness :
  let s' := fst (fst (ExecTx Scenario.primitives
                        (UnbondTx (Scenario.addr x02) 1 (Scenario.sign x02 [x03]))
                        (Scenario.twoValidators 1))) in
  GetByAddress (Scenario.addr x02) (BondedValidators s') = None
  /\ GetByAddress (Scenario.addr x02) (UnbondingValidators s')
     = Some (setUnbondHeight 2 (Scenario.validator x02 40 0))
  /\ (Validator_UnbondHeight <$> GetByAddress (Scenario.addr x02) (UnbondingValidators s'))
     = Some 2.
Proof.
  intros s'.
  destruct (UnbondTx_effect Scenario.primitives (Scenario.twoValidators 1)
              (Scenario.addr x02) 1 (Scenario.sign x02 [x03]) s'
              (UnbondTx (Scenario.addr x02) 1 (Scenario.sign x02 [x03])))
    as (val & Hval & _ & _ & _ & _ & _ & Hb & Hu & _ & Hh).
  - vm_compute. reflexivity.
  - split; [done|]. split; [|exact Hh]. rewrite Hu. f_equal.
    vm_compute in Hval. injection Hval as <-. reflexivity.
Defined.

(** Validator [x02], unbonding since height 1, rebonds in the same block. *)
Lemma RebondTx_effect_witness :
  let s := fst (fst (ExecTx Scenario.primitives
                       (UnbondTx (Scenario.addr x02) 1 (Scenario.sign x02 [x03]))
                       (Scenario.twoValidators 1))) in
  let s' := fst (fst (ExecTx Scenario.primitives
                        (RebondTx (Scenario.addr x02) 2 (Scenario.sign x02 [x04])) s)) in
  GetByAddress (Scenario.addr x02) (UnbondingValidators s') = None
  /\ is_Some (GetByAddress (Scenario.addr x02) (BondedValidators s'))
  /\ (Validator_BondHeight <$> GetByAddress (Scenario.addr x02) (BondedValidators s'))
     = Some 2.
Proof.
  intros s s'.
  destruct (RebondTx_effect Scenario.primitives s
              (Scenario.addr x02) 2 (Scenario.sign x02 [x04]) s'
              (RebondTx (Scenario.addr x02) 2 (Scenario.sign x02 [x04])))
    as (val & _ & _ & _ & _ & _ & _ & Hu & Hb & _ & Hh).
  - vm_compute. reflexivity.
  - split; [done|]. split; [by rewrite Hb|exact Hh].
Defined.

Lemma Unbond_then_Rebond_witness :
  let s := Scenario.twoValidators 1 in
  let s1 := fst (fst (ExecTx Scenario.primitives
                        (UnbondTx (Scenario.addr x02) 1 (Scenario.sign x02 [x03])) s)) in
  let s2 := fst (fst (ExecTx Scenario.primitives
                        (RebondTx (Scenario.addr x02) 2 (Scenario.sign x02 [x04])) s1)) in
  GetByAddress (Scenario.addr x02) (BondedValidators s2)
  = Some (mkValidator (Scenario.addr x02) (Scenario.key x02) 2 2 0 40 0)
  /\ GetByAddress (Scenario.addr x02) (UnbondingValidators s2) = None.
Proof.
  intros s s1 s2.
  destruct (Unbond_then_Rebond Scenario.primitives s (Scenario.addr x02)
              1 (Scenario.sign x02 [x03]) 2 (Scenario.sign x02 [x04])
              s1 (UnbondTx (Scenario.addr x02) 1 (Scenario.sign x02 [x03]))
              s2 (RebondTx (Scenario.addr x02) 2 (Scenario.sign x02 [x04])))
    as (val & Hval & Hb & _ & Hu & _).
  - vm_compute. reflexivity.
  - vm_compute. reflexivity.
  - split; [|done]. rewrite Hb. f_equal.
    vm_compute in Hval. injection Hval as <-. reflexivity.
Defined.

(** Scenario F of the specification: validator [x01] of power 60 signed two
    precommits for different blocks at the same height and round; it leaves
    the bonded set and its record says so. *)
Lemma DupeoutTx_effect_witness :
  let s := Scenario.twoValidators 5 in
  let s' := fst (fst (ExecTx Scenario.primitives
                        (DupeoutTx (Scenario.addr x01) Scenario.precommitA
                           Scenario.precommitB) s)) in
  GetByAddress (Scenario.addr x01) (BondedValidators s') = None
  /\ validatorInfos s' !! Scenario.addr x01
     = Some (setDestroyed 6 60 (Scenario.validatorInfo x01 []))
  /\ (ValidatorInfo_DestroyedHeight <$> validatorInfos s' !! Scenario.addr x01) = Some 6
  /\ (ValidatorInfo_DestroyedAmount <$> validatorInfos s' !! Scenario.addr x01) = Some 60.
Proof.
  intros s s'.
  destruct (DupeoutTx_effect Scenario.primitives s (Scenario.addr x01)
              Scenario.precommitA Scenario.precommitB s'
              (DupeoutTx (Scenario.addr x01) Scenario.precommitA Scenario.precommitB))
    as (accused & valInfo & Ha & Hi & _ & _ & _ & _ & _ & Hs & Hh & Hp & _).
  - vm_compute. reflexivity.
  - vm_compute in Ha. injection Ha as <-. vm_compute in Hi. injection Hi as <-.
    split; [rewrite Hs; vm_compute; reflexivity|].
    split; [rewrite Hs; vm_compute; reflexivity|].
    split; [exact Hh|exact Hp].
Defined.

(** ** What every step keeps *)

Lemma preserves_bind {A B} I (m : M A) (f : A -> M B) :
  preserves I m -> (forall a, preserves I (f a)) -> preserves I (m ≫= f).
Proof.
  intros Hm Hf s s' r HI. unfold mbind, M_bind.
  destruct (m s) as [s1 [a|e|msg]] eqn:E.
  - apply Hf. by apply Hm in E.
  - intros [= <- _]. by apply Hm in E.
  - intros [= <- _]. by apply Hm in E.
Qed.

Lemma preserves_pure {A} I (r : outcome A) : preserves I (pure r).
Proof. by intros s s' r' HI [= <- _]. Qed.

Lemma preserves_ret {A} I (a : A) : preserves I (mret a : M A).
Proof. by intros s s' r' HI [= <- _]. Qed.

Lemma preserves_panic {A} I msg : preserves I (panic msg : M A).
Proof. by intros s s' r' HI [= <- _]. Qed.

Lemma preserves_get I : preserves I getState.
Proof. by intros s s' r' HI [= <- _]. Qed.

Lemma preserves_forEach {A} I (f : A -> M unit) l :
  (forall a, preserves I (f a)) -> preserves I (forEach f l).
Proof.
  intros Hf. induction l as [|a l IH]; simpl.
  - apply preserves_ret.
  - apply preserves_bind; [apply Hf|]. by intros _.
Qed.

Create HintDb preserves.

#[local] Hint Resolve preserves_pure preserves_ret preserves_panic preserves_get
  : preserves.

Ltac preserves_steps :=
  repeat match goal with
    | |- preserves _ (_ ≫= _) => apply preserves_bind; [ | intros ? ]
    | |- preserves _ (match ?x with _ => _ end) => destruct x
    | |- preserves _ (if ?x then _ else _) => destruct x
    | |- preserves _ _ => solve [ auto with preserves ]
    end.

(** A property of the state that does not depend on the validator sets and
    that the writes to the two trees keep is kept by every transaction and
    by the work of [AppendBlock] between the validation of the block and the
    move of the block tail. *)
Section Invariant.
Context (P : Primitives) (I : State -> Prop).
Hypothesis I_bonded : forall s vs, I s -> I (setBondedValidators vs s).
Hypothesis I_unbonding : forall s vs, I s -> I (setUnbondingValidators vs s).
Hypothesis I_accounts : forall accs, preserves I (UpdateAccounts accs).
Hypothesis I_infos : forall valInfo, preserves I (SetValidatorInfo valInfo).

Lemma inv_removeBonded a : preserves I (removeBonded a).
Proof.
  intros s s' r HI. unfold removeBonded. destruct ValidatorSet_Remove.
  intros [= <- _]. by apply I_bonded.
Qed.

Lemma inv_removeUnbonding a : preserves I (removeUnbonding a).
Proof.
  intros s s' r HI. unfold removeUnbonding. destruct ValidatorSet_Remove.
  intros [= <- _]. by apply I_unbonding.
Qed.

Lemma inv_addBonded v : preserves I (addBonded v).
Proof.
  intros s s' r HI. unfold addBonded. destruct ValidatorSet_Add.
  intros [= <- _]. by apply I_bonded.
Qed.

Lemma inv_addUnbonding v : preserves I (addUnbonding v).
Proof.
  intros s s' r HI. unfold addUnbonding. destruct ValidatorSet_Add.
  intros [= <- _]. by apply I_unbonding.
Qed.

Lemma inv_updateBonded v : preserves I (updateBonded v).
Proof.
  intros s s' r HI. unfold updateBonded. destruct ValidatorSet_Update.
  intros [= <- _]. by apply I_bonded.
Qed.

#[local] Hint Resolve inv_removeBonded inv_removeUnbonding inv_addBonded
  inv_addUnbonding inv_updateBonded I_accounts I_infos : preserves.

Lemma inv_unbondValidator v : preserves I (unbondValidator v).
Proof. unfold unbondValidator. preserves_steps. Qed.

Lemma inv_rebondValidator v : preserves I (rebondValidator v).
Proof. unfold rebondValidator. preserves_steps. Qed.

Lemma inv_releaseValidator v : preserves I (releaseValidator P v).
Proof. unfold releaseValidator. preserves_steps. Qed.

Lemma inv_destroyValidator v : preserves I (destroyValidator v).
Proof. unfold destroyValidator. preserves_steps. Qed.

Lemma inv_withTx (m : M unit) tx s s' tx' r :
  preserves I m -> I s -> withTx tx m s = (s', tx', r) -> I s'.
Proof.
  intros Hm HI. unfold withTx. destruct (m s) as [s1 r1] eqn:E.
  intros [= <- _ _]. by apply Hm in E.
Qed.

#[local] Hint Resolve inv_unbondValidator inv_rebondValidator inv_releaseValidator
  inv_destroyValidator : preserves.

Lemma inv_ExecTx tx s s' tx' r : I s -> ExecTx P tx s = (s', tx', r) -> I s'.
Proof.
  intros HI. destruct tx as [ins outs|ins outs pk|a h sg|a h sg|a va vb]; simpl.
  - destruct (GetOrMakeAccounts P s ins outs) as [ins' r0].
    apply inv_withTx; [|done]. preserves_steps.
  - destruct (GetValidatorInfo s (PubKey_Address P pk)); [by intros [= <- _ _]|].
    destruct (GetOrMakeAccounts P s ins []) as [ins' r0].
    apply inv_withTx; [|done]. preserves_steps.
  - apply inv_withTx; [|done]. preserves_steps.
  - apply inv_withTx; [|done]. preserves_steps.
  - apply inv_withTx; [|done]. preserves_steps.
Qed.

Lemma inv_execTxs txs s s' txs' r : I s -> execTxs P txs s = (s', txs', r) -> I s'.
Proof.
  revert s s' txs' r. induction txs as [|tx txs IH]; intros s s' txs' r HI; simpl.
  - by intros [= <- _ _].
  - destruct (ExecTx P tx s) as [[s1 tx1] [[]|e|msg]] eqn:E; apply inv_ExecTx in E; try done.
    + destruct (execTxs P txs s1) as [[s2 txs2] r2] eqn:E2. apply IH in E2; [|done].
      by intros [= <- _ _].
    + by intros [= <- _ _].
    + by intros [= <- _ _].
Qed.

Lemma inv_updateLastCommitHeights h commits i :
  preserves I (updateLastCommitHeights h commits i).
Proof.
  revert i. induction commits as [|c commits IH]; intros i; simpl.
  - apply preserves_ret.
  - destruct (Commit_IsZero c); [apply IH|].
    apply preserves_bind; [apply preserves_get|]. intros s0.
    destruct (GetByIndex i (BondedValidators s0)); [|apply preserves_panic].
    apply preserves_bind; [apply inv_updateBonded|]. intros [|]; [apply IH|].
    apply preserves_panic.
Qed.

Lemma inv_afterTxs b : preserves I (afterTxs P b).
Proof.
  unfold afterTxs.
  apply preserves_bind; [apply inv_updateLastCommitHeights|]. intros _.
  apply preserves_bind; [apply preserves_get|]. intros s1.
  apply preserves_bind; [apply preserves_forEach, inv_releaseValidator|]. intros _.
  apply preserves_bind; [apply preserves_get|]. intros s2.
  apply preserves_bind; [apply preserves_forEach, inv_unbondValidator|]. intros _.
  intros s s' r HI [= <- _]. by apply I_bonded.
Qed.

Lemma inv_AppendBlock b ph chk s s' b' r :
  (forall s h hash parts time, I s -> I (setLastBlock h hash parts time s)) ->
  I s -> AppendBlock P b ph chk s = (s', b', r) -> I s'.
Proof.
  intros I_tail HI. unfold AppendBlock.
  destruct (Block_ValidateBasic P b _ _ _ _); [by intros [= <- _ _]|].
  destruct (validateValidation P b s); try by intros [= <- _ _].
  destruct (execTxs P (Block_Txs b) s) as [[s1 txs] r1] eqn:E1.
  apply inv_execTxs in E1; [|done].
  destruct r1; try by intros [= <- _ _].
  destruct (afterTxs P (setTxs txs b) s1) as [s2 r2] eqn:E2.
  apply inv_afterTxs in E2; [|done].
  destruct r2; try by intros [= <- _ _].
  unfold bindStateHash. destruct chk.
  - destruct (negb _); intros [= <- _ _]; [done|by apply I_tail].
  - destruct (Block_StateHash (setTxs txs b)); intros [= <- _ _]; [done|by apply I_tail].
Qed.

End Invariant.

(** ** The block tail and the store *)

Lemma tail_UpdateAccounts t accs :
  preserves (fun s => blockTail s = t) (UpdateAccounts accs).
Proof. by intros s s' r H [= <- _]. Qed.

Lemma tail_SetValidatorInfo t valInfo :
  preserves (fun s => blockTail s = t) (SetValidatorInfo valInfo).
Proof. by intros s s' r H [= <- _]. Qed.

Section Tail.
Context (P : Primitives).

(** X14. [ExecTx] never writes to the block tail or to the store: however
    it ends, [DB], [LastBlockHeight], [LastBlockHash], [LastBlockParts] and
    [LastBlockTime] are those of the state it was called on. *)
Theorem ExecTx_keeps_blockTail tx s :
  blockTail (fst (fst (ExecTx P tx s))) = blockTail s.
Proof.
  destruct (ExecTx P tx s) as [[s' tx'] r] eqn:E. simpl.
  exact (inv_ExecTx P (fun s' => blockTail s' = blockTail s)
           (fun _ _ H => H) (fun _ _ H => H) (tail_UpdateAccounts _)
           (tail_SetValidatorInfo _) tx s s' tx' r eq_refl E).
Qed.

Lemma execTxs_keeps_blockTail txs s :
  blockTail (fst (fst (execTxs P txs s))) = blockTail s.
Proof.
  destruct (execTxs P txs s) as [[s' txs'] r] eqn:E. simpl.
  exact (inv_execTxs P (fun s' => blockTail s' = blockTail s)
           (fun _ _ H => H) (fun _ _ H => H) (tail_UpdateAccounts _)
           (tail_SetValidatorInfo _) txs s s' txs' r eq_refl E).
Qed.

Lemma afterTxs_keeps_blockTail b s :
  blockTail (fst (afterTxs P b s)) = blockTail s.
Proof.
  destruct (afterTxs P b s) as [s' r] eqn:E. simpl.
  exact (inv_afterTxs P (fun s' => blockTail s' = blockTail s)
           (fun _ _ H => H) (fun _ _ H => H) (tail_UpdateAccounts _)
           (tail_SetValidatorInfo _) b s s' r eq_refl E).
Qed.

End Tail.

(** ** Records are stored under their own address *)

Lemma UpdateAccounts_accountsWf accs : preserves accountsWf (UpdateAccounts accs).
Proof.
  intros s s' r Hwf [= <- _]. unfold accountsWf. simpl.
  apply (map_fold_weak_ind
           (fun (r : gmap bytes Account) (_ : gmap bytes Account) =>
              map_Forall (fun k acc => Account_Address acc = k) r)); [done|].
  intros k acc m t _ IH. by apply map_Forall_insert_2.
Qed.

Lemma SetValidatorInfo_infosWf valInfo : preserves infosWf (SetValidatorInfo valInfo).
Proof. intros s s' r Hwf [= <- _]. by apply map_Forall_insert_2. Qed.

Section Wf.
Context (P : Primitives).

(** X15. [ExecTx] and [AppendBlock] keep every account and every validator
    record stored under its own address, however they end ([UpdateAccounts]
    and [SetValidatorInfo] write at the address of what they store). *)
Theorem stored_under_own_address s :
  accountsWf s -> infosWf s ->
  (forall tx, accountsWf (fst (fst (ExecTx P tx s)))
              /\ infosWf (fst (fst (ExecTx P tx s))))
  /\ (forall b blockPartsHeader checkStateHash,
        accountsWf (fst (fst (AppendBlock P b blockPartsHeader checkStateHash s)))
        /\ infosWf (fst (fst (AppendBlock P b blockPartsHeader checkStateHash s)))).
Proof.
  intros Ha Hi.
  assert (Hacc : forall accs,
            preserves (fun s => accountsWf s /\ infosWf s) (UpdateAccounts accs)).
  { intros accs s0 s1 r [Ha0 Hi0] H. split.
    - by apply (UpdateAccounts_accountsWf accs s0 s1 r).
    - by injection H as <- _. }
  assert (Hinf : forall vi,
            preserves (fun s => accountsWf s /\ infosWf s) (SetValidatorInfo vi)).
  { intros vi s0 s1 r [Ha0 Hi0] H. split.
    - by injection H as <- _.
    - by apply (SetValidatorInfo_infosWf vi s0 s1 r). }
  split.
  - intros tx. destruct (ExecTx P tx s) as [[s' tx'] r] eqn:E. simpl.
    exact (inv_ExecTx P (fun s => accountsWf s /\ infosWf s)
             (fun _ _ H => H) (fun _ _ H => H) Hacc Hinf tx s s' tx' r
             (conj Ha Hi) E).
  - intros b ph chk. destruct (AppendBlock P b ph chk s) as [[s' b'] r] eqn:E. simpl.
    exact (inv_AppendBlock P (fun s => accountsWf s /\ infosWf s)
             (fun _ _ H => H) (fun _ _ H => H) Hacc Hinf b ph chk s s' b' r
             (fun _ _ _ _ _ H => H) (conj Ha Hi) E).
Qed.

End Wf.

(** ** Validators and their records *)

Lemma GetByAddress_addresses a vs :
  GetByAddress a vs = None <-> a ∉ map Validator_Address vs.
Proof.
  rewrite GetByAddress_None. split.
  - intros H Ha. apply list_elem_of_fmap in Ha as (w & -> & Hw). by apply (H w).
  - intros H w Hw Heq. apply H. apply list_elem_of_fmap. by exists w.
Qed.

Lemma addresses_insertByAddress (a : bytes) v vs :
  a ∈ map Validator_Address (insertByAddress v vs)
  <-> a = Validator_Address v \/ a ∈ map Validator_Address vs.
Proof.
  induction vs as [|w ws IH]; simpl.
  - rewrite list_elem_of_singleton. rewrite elem_of_nil. tauto.
  - destruct (bytes_ltb _ _); simpl.
    + rewrite !elem_of_cons. tauto.
    + rewrite !elem_of_cons, IH. tauto.
Qed.

Lemma addresses_removeByAddress (a b : bytes) vs :
  a ∈ map Validator_Address (removeByAddress b vs)
  <-> a <> b /\ a ∈ map Validator_Address vs.
Proof.
  unfold removeByAddress. rewrite !list_elem_of_fmap. split.
  - intros (w & -> & Hw). apply list_elem_of_filter in Hw as [Hne Hw].
    split; [done|]. by exists w.
  - intros (Hne & w & -> & Hw). exists w. split; [done|].
    by apply list_elem_of_filter.
Qed.

Lemma addresses_replaceByAddress v vs :
  map Validator_Address (replaceByAddress v vs) = map Validator_Address vs.
Proof.
  unfold replaceByAddress. induction vs as [|w ws IH]; simpl; [done|].
  rewrite IH. f_equal. destruct (bytes_eqb _ _) eqn:E; [|done].
  by apply bytes_eqb_eq in E.
Qed.

Lemma accumTick_map {A} (proj : Validator -> A) vs :
  (forall a v, proj (setAccum a v) = proj v) ->
  map proj (accumTick vs) = map proj vs.
Proof.
  intros Hproj. unfold accumTick.
  assert (H1 : forall f : Validator -> Z,
            map proj (map (fun v => setAccum (f v) v) vs) = map proj vs).
  { intros f. rewrite <- list_fmap_compose. apply list_fmap_ext. intros _ v _. apply Hproj. }
  destruct (maxAccumIndex _ _ _) as [[i a]|]; [|apply H1].
  etransitivity;
    [|apply (H1 (fun v => wrapInt64 (Validator_Accum v + Validator_VotingPower v)))].
  apply list_eq. intros j. rewrite !list_lookup_fmap.
  destruct (decide (i = j)) as [->|Hne].
  - rewrite list_lookup_alter_eq, list_lookup_fmap. destruct (vs !! j); simpl; [|done].
    by rewrite !Hproj.
  - rewrite list_lookup_alter_ne by done. by rewrite list_lookup_fmap.
Qed.

Lemma addresses_accumTick vs :
  map Validator_Address (accumTick vs) = map Validator_Address vs.
Proof. by apply accumTick_map. Qed.

Lemma validatorsOk_iff s :
  haveInfos s /\ disjointSets s <->
  (forall a : bytes,
     a ∈ map Validator_Address (BondedValidators s)
     \/ a ∈ map Validator_Address (UnbondingValidators s) ->
     is_Some (validatorInfos s !! a))
  /\ (forall a : bytes,
        a ∈ map Validator_Address (BondedValidators s) ->
        a ∉ map Validator_Address (UnbondingValidators s)).
Proof.
  unfold haveInfos, disjointSets. rewrite !Forall_forall.
  setoid_rewrite fmap_app. setoid_rewrite elem_of_app. done.
Qed.

(** Removing validators and adding records keep the two properties. *)
Lemma validatorsOk_shrink s s' :
  haveInfos s /\ disjointSets s ->
  (forall a : bytes, a ∈ map Validator_Address (BondedValidators s') ->
                     a ∈ map Validator_Address (BondedValidators s)) ->
  (forall a : bytes, a ∈ map Validator_Address (UnbondingValidators s') ->
                     a ∈ map Validator_Address (UnbondingValidators s)) ->
  (forall a : bytes, is_Some (validatorInfos s !! a) -> is_Some (validatorInfos s' !! a)) ->
  haveInfos s' /\ disjointSets s'.
Proof.
  rewrite !validatorsOk_iff. intros [Hi Hd] Hb Hu Hinf. split.
  - intros a [Ha|Ha]; apply Hinf, Hi; [left; by apply Hb|right; by apply Hu].
  - intros a Ha Ha'. apply (Hd a); [by apply Hb|by apply Hu].
Qed.

Lemma ok_removeBonded a : preserves validatorsOk (removeBonded a).
Proof.
  intros s s' r Hok. unfold removeBonded, ValidatorSet_Remove.
  destruct (GetByAddress a (BondedValidators s)); intros [= <- _]; [|done].
  apply (validatorsOk_shrink s); simpl; try done.
  intros b Hb. by apply addresses_removeByAddress in Hb as [_ Hb].
Qed.

Lemma ok_removeUnbonding a : preserves validatorsOk (removeUnbonding a).
Proof.
  intros s s' r Hok. unfold removeUnbonding, ValidatorSet_Remove.
  destruct (GetByAddress a (UnbondingValidators s)); intros [= <- _]; [|done].
  apply (validatorsOk_shrink s); simpl; try done.
  intros b Hb. by apply addresses_removeByAddress in Hb as [_ Hb].
Qed.

Lemma ok_updateBonded v : preserves validatorsOk (updateBonded v).
Proof.
  intros s s' r Hok. unfold updateBonded, ValidatorSet_Update.
  destruct (GetByAddress _ (BondedValidators s)); intros [= <- _]; [|done].
  apply (validatorsOk_shrink s); simpl; try done.
  intros b. by rewrite addresses_replaceByAddress.
Qed.

Lemma ok_UpdateAccounts accs : preserves validatorsOk (UpdateAccounts accs).
Proof. by intros s s' r Hok [= <- _]. Qed.

Lemma ok_SetValidatorInfo valInfo : preserves validatorsOk (SetValidatorInfo valInfo).
Proof.
  intros s s' r Hok [= <- _]. apply (validatorsOk_shrink s); simpl; try done.
  intros a Ha. destruct (decide (ValidatorInfo_Address valInfo = a)) as [->|Hne].
  - by rewrite lookup_insert_eq.
  - by rewrite lookup_insert_ne.
Qed.

Lemma ok_unbondValidator v : preserves validatorsOk (unbondValidator v).
Proof.
  intros s s' r Hok. unfold unbondValidator, removeBonded, ValidatorSet_Remove. msimpl.
  destruct (GetByAddress (Validator_Address v) (BondedValidators s)) as [val|] eqn:Ev;
    msimpl; [|by intros [= <- _]].
  destruct (GetByAddress_Some _ _ _ Ev) as [Ha Hin].
  unfold addUnbonding, ValidatorSet_Add. simpl. rewrite Ha.
  destruct (GetByAddress (Validator_Address v) (UnbondingValidators s)) eqn:Eu; msimpl.
  - intros [= <- _]. apply (validatorsOk_shrink s); simpl; try done.
    intros b Hb. by apply addresses_removeByAddress in Hb as [_ Hb].
  - intros [= <- _]. apply validatorsOk_iff in Hok as [Hi Hd].
    apply validatorsOk_iff. simpl. split.
    + intros a [Hb|Hu].
      * apply addresses_removeByAddress in Hb as [_ Hb]. apply Hi. by left.
      * apply addresses_insertByAddress in Hu as [->|Hu]; simpl.
        -- apply Hi. left. rewrite Ha. apply list_elem_of_fmap. exists val.
           by rewrite Ha.
        -- apply Hi. by right.
    + intros a Hb Hu. apply addresses_removeByAddress in Hb as [Hne Hb].
      apply addresses_insertByAddress in Hu as [Hu|Hu]; simpl in *.
      * by rewrite Ha in Hu.
      * by apply (Hd a).
Qed.

Lemma ok_rebondValidator v : preserves validatorsOk (rebondValidator v).
Proof.
  intros s s' r Hok. unfold rebondValidator, removeUnbonding, ValidatorSet_Remove. msimpl.
  destruct (GetByAddress (Validator_Address v) (UnbondingValidators s)) as [val|] eqn:Ev;
    msimpl; [|by intros [= <- _]].
  destruct (GetByAddress_Some _ _ _ Ev) as [Ha Hin].
  unfold addBonded, ValidatorSet_Add. simpl. rewrite Ha.
  destruct (GetByAddress (Validator_Address v) (BondedValidators s)) eqn:Eu; msimpl.
  - intros [= <- _]. apply (validatorsOk_shrink s); simpl; try done.
    intros b Hb. by apply addresses_removeByAddress in Hb as [_ Hb].
  - intros [= <- _]. apply validatorsOk_iff in Hok as [Hi Hd].
    apply validatorsOk_iff. simpl. split.
    + intros a [Hb|Hu].
      * apply addresses_insertByAddress in Hb as [->|Hb]; simpl.
        -- apply Hi. right. rewrite Ha. apply list_elem_of_fmap. exists val.
           by rewrite Ha.
        -- apply Hi. by left.
      * apply addresses_removeByAddress in Hu as [_ Hu]. apply Hi. by right.
    + intros a Hb Hu. apply addresses_removeByAddress in Hu as [Hne Hu].
      apply addresses_insertByAddress in Hb as [Hb|Hb]; simpl in *.
      * by rewrite Ha in Hb.
      * by apply (Hd a).
Qed.

#[local] Hint Resolve preserves_pure preserves_ret preserves_panic preserves_get
  ok_removeBonded ok_removeUnbonding ok_updateBonded ok_UpdateAccounts
  ok_SetValidatorInfo ok_unbondValidator ok_rebondValidator : preserves.

Section ValidatorsOk.
Context (P : Primitives).

Lemma ok_releaseValidator v : preserves validatorsOk (releaseValidator P v).
Proof. unfold releaseValidator. preserves_steps. Qed.

Lemma ok_destroyValidator v : preserves validatorsOk (destroyValidator v).
Proof. unfold destroyValidator. preserves_steps. Qed.

Lemma ok_updateLastCommitHeights h commits i :
  preserves validatorsOk (updateLastCommitHeights h commits i).
Proof.
  revert i. induction commits as [|c commits IH]; intros i; simpl.
  - apply preserves_ret.
  - destruct (Commit_IsZero c); [apply IH|].
    apply preserves_bind; [apply preserves_get|]. intros s0.
    destruct (GetByIndex i (BondedValidators s0)); [|apply preserves_panic].
    apply preserves_bind; [apply ok_updateBonded|]. intros [|]; [apply IH|].
    apply preserves_panic.
Qed.

Lemma ok_afterTxs b : preserves validatorsOk (afterTxs P b).
Proof.
  unfold afterTxs.
  apply preserves_bind; [apply ok_updateLastCommitHeights|]. intros _.
  apply preserves_bind; [apply preserves_get|]. intros s1.
  apply preserves_bind; [apply preserves_forEach, ok_releaseValidator|]. intros _.
  apply preserves_bind; [apply preserves_get|]. intros s2.
  apply preserves_bind; [apply preserves_forEach, ok_unbondValidator|]. intros _.
  intros s s' r Hok [= <- _]. apply (validatorsOk_shrink s); simpl; try done.
  intros a. by rewrite addresses_accumTick.
Qed.

Lemma ok_BondTx ins unbondTo pubKey s s' tx' r :
  validatorsOk s -> ExecTx P (BondTx ins unbondTo pubKey) s = (s', tx', r) ->
  validatorsOk s'.
Proof.
  intros Hok. simpl. unfold GetValidatorInfo.
  destruct (validatorInfos s !! PubKey_Address P pubKey) eqn:Einfo;
    [by intros [= <- _ _]|].
  destruct (GetOrMakeAccounts P s ins []) as [ins' r0].
  unfold withTx. msimpl.
  destruct r0 as [accs| |]; msimpl; try by intros [= <- _ _].
  destruct (ValidateInputs P accs _ ins') as [inTotal| |]; msimpl;
    try by intros [= <- _ _].
  destruct (PubKey_ValidateBasic P pubKey); msimpl; try by intros [= <- _ _].
  destruct (ValidateOutputs P unbondTo) as [outTotal| |]; msimpl;
    try by intros [= <- _ _].
  destruct (inTotal <? outTotal); msimpl; try by intros [= <- _ _].
  destruct (AdjustByInputs accs ins') as [accs'| |]; msimpl; try by intros [= <- _ _].
  unfold addBonded, ValidatorSet_Add. simpl.
  assert (Hinfos : forall a : bytes,
            is_Some (validatorInfos s !! a) ->
            is_Some (<[PubKey_Address P pubKey :=
                         mkValidatorInfo (PubKey_Address P pubKey) pubKey unbondTo
                           (add64 (LastBlockHeight s) 1) outTotal 0 0 0]>
                       (validatorInfos s) !! a)).
  { intros a Ha. destruct (decide (PubKey_Address P pubKey = a)) as [->|Hne].
    - by rewrite lookup_insert_eq.
    - by rewrite lookup_insert_ne. }
  destruct (GetByAddress (PubKey_Address P pubKey) (BondedValidators s)) eqn:E; msimpl.
  - intros [= <- _ _]. by apply (validatorsOk_shrink s).
  - intros [= <- _ _]. apply validatorsOk_iff in Hok as [Hi Hd].
    apply validatorsOk_iff. simpl. split.
    + intros a [Hb|Hu].
      * apply addresses_insertByAddress in Hb as [->|Hb]; simpl.
        -- by rewrite lookup_insert_eq.
        -- apply Hinfos, Hi. by left.
      * apply Hinfos, Hi. by right.
    + intros a Hb Hu. apply addresses_insertByAddress in Hb as [->|Hb]; simpl in *.
      * destruct (Hi (PubKey_Address P pubKey)) as [x Hx]; [by right|]. congruence.
      * by apply (Hd a).
Qed.

Lemma ok_ExecTx tx s s' tx' r :
  validatorsOk s -> ExecTx P tx s = (s', tx', r) -> validatorsOk s'.
Proof.
  intros Hok. destruct tx as [ins outs|ins outs pk|a h sg|a h sg|a va vb].
  - simpl. destruct (GetOrMakeAccounts P s ins outs) as [ins' r0].
    unfold withTx.
    match goal with |- (let '(_, _) := ?m s in _) = _ -> _ =>
      destruct (m s) as [s1 r1] eqn:E; intros [= <- _ _];
      assert (Hm : preserves validatorsOk m) by preserves_steps
    end.
    by apply Hm in E.
  - by apply ok_BondTx.
  - simpl. unfold withTx.
    match goal with |- (let '(_, _) := ?m s in _) = _ -> _ =>
      destruct (m s) as [s1 r1] eqn:E; intros [= <- _ _];
      assert (Hm : preserves validatorsOk m) by preserves_steps
    end.
    by apply Hm in E.
  - simpl. unfold withTx.
    match goal with |- (let '(_, _) := ?m s in _) = _ -> _ =>
      destruct (m s) as [s1 r1] eqn:E; intros [= <- _ _];
      assert (Hm : preserves validatorsOk m) by preserves_steps
    end.
    by apply Hm in E.
  - simpl. unfold withTx.
    match goal with |- (let '(_, _) := ?m s in _) = _ -> _ =>
      destruct (m s) as [s1 r1] eqn:E; intros [= <- _ _];
      assert (Hm : preserves validatorsOk m)
        by (pose proof ok_destroyValidator; preserves_steps)
    end.
    by apply Hm in E.
Qed.

Lemma ok_execTxs txs s s' txs' r :
  validatorsOk s -> execTxs P txs s = (s', txs', r) -> validatorsOk s'.
Proof.
  revert s s' txs' r. induction txs as [|tx txs IH]; intros s s' txs' r HI; simpl.
  - by intros [= <- _ _].
  - destruct (ExecTx P tx s) as [[s1 tx1] [[]|e|msg]] eqn:E; apply ok_ExecTx in E; try done.
    + destruct (execTxs P txs s1) as [[s2 txs2] r2] eqn:E2. apply IH in E2; [|done].
      by intros [= <- _ _].
    + by intros [= <- _ _].
    + by intros [= <- _ _].
Qed.

(** X16. [ExecTx] and [AppendBlock] keep, however they end, the two
    properties that every validator of the bonded or of the unbonding set
    has a record in [validatorInfos] and that no address is in both
    sets. *)
Theorem validators_have_records_and_one_set s :
  haveInfos s -> disjointSets s ->
  (forall tx, haveInfos (fst (fst (ExecTx P tx s)))
              /\ disjointSets (fst (fst (ExecTx P tx s))))
  /\ (forall b blockPartsHeader checkStateHash,
        haveInfos (fst (fst (AppendBlock P b blockPartsHeader checkStateHash s)))
        /\ disjointSets (fst (fst (AppendBlock P b blockPartsHeader checkStateHash s)))).
Proof.
  intros Hi Hd. split.
  - intros tx. destruct (ExecTx P tx s) as [[s' tx'] r] eqn:E. simpl.
    by apply ok_ExecTx in E.
  - intros b ph chk. unfold AppendBlock.
    destruct (Block_ValidateBasic P b _ _ _ _); [done|].
    destruct (validateValidation P b s); try done.
    destruct (execTxs P (Block_Txs b) s) as [[s1 txs] r1] eqn:E1.
    apply ok_execTxs in E1; [|done].
    destruct r1; try done.
    destruct (afterTxs P (setTxs txs b) s1) as [s2 r2] eqn:E2.
    apply ok_afterTxs in E2; [|done].
    destruct r2; try done.
    unfold bindStateHash. destruct chk.
    + by destruct (negb _).
    + by destruct (Block_StateHash (setTxs txs b)).
Qed.

End ValidatorsOk.

Section NoPanic.
Context (P : Primitives).

(** X17. In a state where every validator has its record and no address
    is in both sets, the only panic of [ExecTx] is that of a [DupeoutTx]
    whose address is not bonded: on every other transaction it returns
    normally or with an error (no "Couldn't remove validator", "Couldn't add
    validator", "Failed to add validator" or missing record). *)
Theorem ExecTx_panics_only_on_unknown_accused tx s :
  haveInfos s -> disjointSets s ->
  match tx with
  | DupeoutTx address _ _ => is_Some (GetByAddress address (BondedValidators s))
  | _ => True
  end ->
  isPanic (snd (ExecTx P tx s)) = false.
Proof.
  intros Hi Hd Htx.
  destruct (proj1 (validatorsOk_iff s) (conj Hi Hd)) as [Hinfo Hdisj].
  destruct tx as [ins outs|ins unbondTo pubKey|a h sg|a h sg|a va vb].
  - apply SendTx_no_panic.
  - simpl. unfold GetValidatorInfo.
    destruct (validatorInfos s !! PubKey_Address P pubKey) eqn:Einfo; [done|].
    pose proof (GetOrMakeAccounts_errors P s ins []) as Ho.
    destruct (GetOrMakeAccounts P s ins []) as [ins' r0] eqn:Eg.
    unfold withTx. simpl in Ho. destruct r0 as [accs|e|m]; [|done..]. msimpl.
    destruct (ValidateInputs P accs _ ins') as [inTotal|e|m] eqn:Ev; [|done|].
    + destruct (SendTx_adjust _ _ _ _ _ _ _ _ Eg Ev) as (accs1 & accs2 & -> & _).
      destruct (PubKey_ValidateBasic P pubKey); [done|]. msimpl.
      destruct (ValidateOutputs P unbondTo) as [outTotal|e|m] eqn:Eo; [|done|].
      * destruct (inTotal <? outTotal); [done|]. msimpl.
        unfold addBonded, ValidatorSet_Add. simpl.
        destruct (GetByAddress (PubKey_Address P pubKey) (BondedValidators s)) as [v|]
          eqn:Eb; [|done].
        exfalso. destruct (GetByAddress_Some _ _ _ Eb) as [Ha Hv].
        destruct (Hinfo (PubKey_Address P pubKey)) as [x Hx]; [|congruence].
        left. apply list_elem_of_fmap. by exists v.
      * by apply validateOutputsFrom_no_panic in Eo.
    + exfalso. revert Ev. apply validateInputsFrom_no_panic.
      assert (Hins : ins' = map (canonicalInput s) ins).
      { exact (GetOrMakeAccounts_Ok_inputs P _ _ _ _ _ Eg). }
      apply GetOrMakeAccounts_Ok_map in Eg as (_ & Hin & _).
      intros j Hj. subst ins'. apply list_elem_of_fmap in Hj as (i & -> & Hi').
      rewrite canonicalInput_Address. destruct (Hin i Hi') as (acc & _ & -> & _). done.
  - simpl. unfold withTx.
    destruct (GetByAddress a (BondedValidators s)) as [val|] eqn:Ev; [|done].
    destruct (negb _); [done|]. destruct (h <=? _); [done|].
    destruct (GetByAddress_Some _ _ _ Ev) as [Ha Hv].
    unfold unbondValidator, removeBonded, ValidatorSet_Remove. msimpl.
    rewrite Ha, Ev. msimpl. unfold addUnbonding, ValidatorSet_Add. simpl. rewrite Ha.
    destruct (GetByAddress a (UnbondingValidators s)) as [u|] eqn:Eu; [|done].
    exfalso. apply (Hdisj a).
    + apply list_elem_of_fmap. by exists val.
    + destruct (GetByAddress_Some _ _ _ Eu) as [Hau Hu].
      apply list_elem_of_fmap. by exists u.
  - simpl. unfold withTx.
    destruct (GetByAddress a (UnbondingValidators s)) as [val|] eqn:Ev; [|done].
    destruct (negb _); [done|]. destruct (negb _); [done|].
    destruct (GetByAddress_Some _ _ _ Ev) as [Ha Hv].
    unfold rebondValidator, removeUnbonding, ValidatorSet_Remove. msimpl.
    rewrite Ha, Ev. msimpl. unfold addBonded, ValidatorSet_Add. simpl. rewrite Ha.
    destruct (GetByAddress a (BondedValidators s)) as [u|] eqn:Eu; [|done].
    exfalso. apply (Hdisj a).
    + destruct (GetByAddress_Some _ _ _ Eu) as [Hau Hu].
      apply list_elem_of_fmap. by exists u.
    + apply list_elem_of_fmap. by exists val.
  - simpl. unfold withTx. destruct Htx as [accused Ea]. rewrite Ea. msimpl.
    destruct (GetByAddress_Some _ _ _ Ea) as [Ha Hv].
    destruct (negb _ || negb _); [done|].
    destruct (negb (Vote_Height va =? Vote_Height vb)); [done|]. msimpl.
    match goal with
    | |- context [match ?c with Ok _ => _ | Err _ => _ | Panic _ => _ end] =>
        assert (Hc : isPanic c = false);
        [ repeat match goal with |- context [if ?b then _ else _] => destruct b end; done
        | destruct c as [[]|e|m]; [|done..] ]
    end.
    unfold destroyValidator, GetValidatorInfo. msimpl. rewrite Ha.
    destruct (Hinfo a) as [valInfo ->].
    { left. apply list_elem_of_fmap. by exists accused. }
    msimpl. unfold removeBonded, ValidatorSet_Remove. msimpl. by rewrite Ea.
Qed.

End NoPanic.

(** ** AppendBlock *)

Section Append.
Context (P : Primitives).

(** The steps of a successful [AppendBlock]. *)
Lemma AppendBlock_Ok_inv b ph chk s s' b' :
  AppendBlock P b ph chk s = (s', b', Ok tt) ->
  exists s1 txs s2,
    Block_ValidateBasic P b (LastBlockHeight s) (LastBlockHash s) (LastBlockParts s)
      (LastBlockTime s) = None
    /\ validateValidation P b s = Ok tt
    /\ execTxs P (Block_Txs b) s = (s1, txs, Ok tt)
    /\ afterTxs P (setTxs txs b) s1 = (s2, Ok tt)
    /\ bindStateHash P (setTxs txs b) ph chk s2 = (s', b', Ok tt).
Proof.
  unfold AppendBlock.
  destruct (Block_ValidateBasic P b _ _ _ _) eqn:E0; [done|].
  destruct (validateValidation P b s) as [[]| |] eqn:Ev; [|done..].
  destruct (execTxs P (Block_Txs b) s) as [[s1 txs] [[]| |]] eqn:E1; [|done..].
  destruct (afterTxs P (setTxs txs b) s1) as [s2 [[]| |]] eqn:E2; [|done..].
  intros H. by exists s1, txs, s2.
Qed.

(** X18. A successful [AppendBlock] sets [LastBlockHeight],
    [LastBlockParts] and [LastBlockTime] to the block's height, the given
    parts header and the block's time, and [LastBlockHash] to the hash of
    the block as it leaves it; [DB] is not written.  The block it leaves
    differs from the given one at most in its state hash and in its
    transactions, which are those [ExecTx] left. *)
Theorem AppendBlock_moves_block_tail b blockPartsHeader checkStateHash s s' b' :
  AppendBlock P b blockPartsHeader checkStateHash s = (s', b', Ok tt) ->
  LastBlockHeight s' = Block_Height b
  /\ LastBlockHash s' = Block_Hash P b'
  /\ LastBlockParts s' = blockPartsHeader
  /\ LastBlockTime s' = Block_Time b
  /\ DB s' = DB s
  /\ Block_Height b' = Block_Height b
  /\ Block_Time b' = Block_Time b
  /\ Block_LastBlockHash b' = Block_LastBlockHash b
  /\ Block_LastBlockParts b' = Block_LastBlockParts b
  /\ Block_Commits b' = Block_Commits b
  /\ Block_Txs b' = snd (fst (execTxs P (Block_Txs b) s)).
Proof.
  intros H. apply AppendBlock_Ok_inv in H as (s1 & txs & s2 & _ & _ & E1 & E2 & E3).
  assert (Hdb : DB s2 = DB s).
  { pose proof (execTxs_keeps_blockTail P (Block_Txs b) s) as H1.
    pose proof (afterTxs_keeps_blockTail P (setTxs txs b) s1) as H2.
    rewrite E1 in H1. rewrite E2 in H2. simpl in *.
    unfold blockTail in *. congruence. }
  rewrite E1. simpl.
  unfold bindStateHash in E3. destruct checkStateHash.
  - destruct (negb _); [done|]. by injection E3 as <- <-.
  - destruct (Block_StateHash (setTxs txs b)); [done|]. by injection E3 as <- <-.
Qed.

(** X19. After a successful [AppendBlock] the state hash of the block is
    the hash of the state: when the hash is checked the block is left with
    the hash it came with, and when it is set the block came without one. *)
Theorem AppendBlock_binds_state_hash b blockPartsHeader checkStateHash s s' b' :
  AppendBlock P b blockPartsHeader checkStateHash s = (s', b', Ok tt) ->
  default [] (Block_StateHash b') = Hash P s'
  /\ (if checkStateHash then Block_StateHash b' = Block_StateHash b
      else Block_StateHash b = None /\ Block_StateHash b' = Some (Hash P s')).
Proof.
  intros H. apply AppendBlock_Ok_inv in H as (s1 & txs & s2 & _ & _ & E1 & E2 & E3).
  unfold bindStateHash in E3. destruct checkStateHash.
  - destruct (bytes_eqb _ _) eqn:E; [|done]. simpl in E3. injection E3 as <- <-.
    apply bytes_eqb_eq in E. simpl in *. split; [|done]. by rewrite <- E.
  - simpl in *. destruct (Block_StateHash b); [done|]. by injection E3 as <- <-.
Qed.

Lemma sumCommits_all_zero b (vals : list Validator) k sum :
  (forall c, c ∈ Block_Commits b -> Commit_IsZero c = true) ->
  (k + length vals <= length (Block_Commits b))%nat ->
  sumCommits P b vals k sum = Ok sum.
Proof.
  intros Hz. revert k. induction vals as [|v vals IH]; intros k Hl; simpl in *; [done|].
  destruct (Block_Commits b !! k) as [c|] eqn:E.
  - rewrite (Hz c) by (by apply list_elem_of_lookup_2 in E). apply IH. lia.
  - apply lookup_ge_None in E. lia.
Qed.

(** X20. A block above height 1 in which no commit carries a signature is
    rejected with an error, and neither the state nor the block is touched;
    in particular no such block can be appended to a state without bonded
    validators. *)
Theorem AppendBlock_needs_a_signature b blockPartsHeader checkStateHash s :
  Block_Height b <> 1 ->
  (forall c, c ∈ Block_Commits b -> Commit_IsZero c = true) ->
  exists e, AppendBlock P b blockPartsHeader checkStateHash s = (s, b, Err e).
Proof.
  intros Hh Hz. unfold AppendBlock.
  destruct (Block_ValidateBasic P b _ _ _ _) as [e|]; [by exists e|].
  unfold validateValidation. rewrite (proj2 (Z.eqb_neq _ _) Hh).
  destruct (Z.of_nat (length (Block_Commits b)) =? Size (BondedValidators s)) eqn:El;
    simpl; [|by eexists].
  apply Z.eqb_eq in El. unfold Size in El.
  rewrite sumCommits_all_zero; [|done|lia]. simpl.
  pose proof (wrap64_range (TotalVotingPower (BondedValidators s) * 2)) as Hr.
  unfold mul64.
  assert (0 <= wrap64 (TotalVotingPower (BondedValidators s) * 2) / 3) as Hq
    by (apply Z.div_pos; lia).
  rewrite (proj2 (Z.leb_le _ _) Hq). by eexists.
Qed.

(** X23. Executing the transactions of a list is executing a first part
    and then the rest from the state so reached; when the first part stops
    with an error or a panic, the rest is neither executed nor
    canonicalized, and what was written before stays written. *)
Theorem execTxs_app txs1 txs2 s :
  execTxs P (txs1 ++ txs2) s =
    match execTxs P txs1 s with
    | (s1, txs1', Ok _) =>
        let '(s2, txs2', r) := execTxs P txs2 s1 in (s2, txs1' ++ txs2', r)
    | (s1, txs1', r) => (s1, txs1' ++ txs2, r)
    end.
Proof.
  revert s. induction txs1 as [|tx txs1 IH]; intros s; simpl.
  - by destruct (execTxs P txs2 s) as [[s2 txs2'] r].
  - destruct (ExecTx P tx s) as [[s1 tx1] [[]|e|msg]]; [|done..].
    rewrite IH. destruct (execTxs P txs1 s1) as [[s2 txs1'] [[]|e|msg]]; [|done..].
    by destruct (execTxs P txs2 s2) as [[s3 txs2'] r].
Qed.

End Append.

Section Validation.
Context (P : Primitives).

Lemma sumCommits_spec b (vals : list Validator) (k : nat) sum :
  (k + length vals <= length (Block_Commits b))%nat ->
  wrap64 sum = sum ->
  match sumCommits P b vals k sum with
  | Ok total =>
      (forall (i : nat) v c, vals !! i = Some v -> Block_Commits b !! (k + i)%nat = Some c ->
                     commitValid P b v c)
      /\ total = wrap64 (sum + signedPower vals (drop k (Block_Commits b)))
  | Err e =>
      e = ErrNew "Invalid validation signature"
      /\ exists (i : nat) v c, vals !! i = Some v /\ Block_Commits b !! (k + i)%nat = Some c
                       /\ ~ commitValid P b v c
  | Panic _ => False
  end.
Proof.
  revert k sum. induction vals as [|v vals IH]; intros k sum Hl Hs; simpl in *.
  - split; [done|]. destruct (drop k (Block_Commits b)); by rewrite Z.add_0_r.
  - destruct (Block_Commits b !! k) as [c|] eqn:Ec;
      [|apply lookup_ge_None in Ec; lia].
    rewrite (drop_S _ _ _ Ec).
    assert (Hstep : forall sum',
              wrap64 sum' = sum' ->
              match sumCommits P b vals (S k) sum' with
              | Ok total =>
                  (forall (i : nat) v0 c0, vals !! i = Some v0 ->
                     Block_Commits b !! (k + S i)%nat = Some c0 -> commitValid P b v0 c0)
                  /\ total = wrap64 (sum' + signedPower vals (drop (S k) (Block_Commits b)))
              | Err e =>
                  e = ErrNew "Invalid validation signature"
                  /\ exists (i : nat) v0 c0, vals !! i = Some v0
                       /\ Block_Commits b !! (k + S i)%nat = Some c0
                       /\ ~ commitValid P b v0 c0
              | Panic _ => False
              end).
    { intros sum' Hs'. specialize (IH (S k) sum' ltac:(lia) Hs').
      destruct (sumCommits P b vals (S k) sum'); [| |done].
      - destruct IH as [IH1 IH2]. split; [|done]. intros i v0 c0 Hv Hc.
        apply (IH1 i); [done|]. by replace (S k + i)%nat with (k + S i)%nat by lia.
      - destruct IH as [IH1 (i & v0 & c0 & Hv & Hc & Hn)]. split; [done|].
        exists i, v0, c0. split; [done|]. split; [|done].
        by replace (k + S i)%nat with (S k + i)%nat by lia. }
    destruct (Commit_IsZero c) eqn:Ez.
    + specialize (Hstep sum Hs).
      destruct (sumCommits P b vals (S k) sum); [| |done].
      * destruct Hstep as [H1 H2]. split; [|by rewrite H2].
        intros [|i] v0 c0; simpl.
        -- rewrite Nat.add_0_r, Ec. intros [= <-] [= <-]. by left.
        -- apply H1.
      * destruct Hstep as [H1 (i & v0 & c0 & Hv & Hc & Hn)]. split; [done|].
        by exists (S i), v0, c0.
    + destruct (VerifyBytes P _ _ _) eqn:Ev.
      * specialize (Hstep (add64 sum (Validator_VotingPower v)) (wrap64_idemp _)).
        destruct (sumCommits P b vals (S k) _); [| |done].
        -- destruct Hstep as [H1 H2]. split.
           ++ intros [|i] v0 c0; simpl.
              ** rewrite Nat.add_0_r, Ec. intros [= <-] [= <-]. by right.
              ** apply H1.
           ++ rewrite H2. unfold add64. rewrite wrap64_add_l. f_equal. lia.
        -- destruct Hstep as [H1 (i & v0 & c0 & Hv & Hc & Hn)]. split; [done|].
           by exists (S i), v0, c0.
      * split; [done|]. exists 0%nat, v, c. simpl. rewrite Nat.add_0_r.
        split; [done|]. split; [done|]. unfold commitValid, voteOfCommit.
        intros [H|H]; congruence.
Qed.

(** X24. Above height 1 the validation of the commits accepts a block
    exactly when it has one commit per bonded validator, every commit that
    is not zero is signed by the validator at its index over the vote
    [(height - 1, round, Commit, last block hash, last block parts)], and
    the power of those validators, summed modulo [2^64], is strictly above
    [(total * 2 mod 2^64) / 3].  The validation never panics. *)
Theorem validateValidation_Ok b s :
  Block_Height b <> 1 ->
  (validateValidation P b s = Ok tt <->
     length (Block_Commits b) = length (BondedValidators s)
     /\ (forall (i : nat) v c,
           BondedValidators s !! i = Some v -> Block_Commits b !! i = Some c ->
           commitValid P b v c)
     /\ mul64 (TotalVotingPower (BondedValidators s)) 2 / 3
        < wrap64 (signedPower (BondedValidators s) (Block_Commits b)))
  /\ isPanic (validateValidation P b s) = false.
Proof.
  intros Hh. unfold validateValidation. rewrite (proj2 (Z.eqb_neq _ _) Hh).
  unfold Size.
  destruct (Z.of_nat (length (Block_Commits b))
            =? Z.of_nat (length (BondedValidators s))) eqn:El; simpl.
  - apply Z.eqb_eq in El.
    pose proof (sumCommits_spec b (BondedValidators s) 0 0 ltac:(lia) eq_refl) as Hs.
    destruct (sumCommits P b (BondedValidators s) 0 0) as [total|e|m]; simpl; [| |done].
    + destruct Hs as [Hv ->]. rewrite drop_0, Z.add_0_l.
      destruct (_ <=? _) eqn:Ele; (split; [|done]); split.
      * done.
      * intros (_ & _ & Hlt). lia.
      * intros _. split; [lia|]. split; [done|]. lia.
      * done.
    + destruct Hs as [_ (i & v & c & Hv & Hc & Hn)]. split; [|done]. split; [done|].
      intros (_ & Hall & _). destruct Hn. by apply (Hall i).
  - apply Z.eqb_neq in El. split; [|done]. split; [done|]. intros [Hl _]. lia.
Qed.

End Validation.

(** ** The commit heights and the timeouts *)

Lemma updateBonded_at_index (i : nat) val x s :
  BondedValidators s !! i = Some val ->
  updateBonded (setLastCommitHeight x val) s
  = (setBondedValidators
       (replaceByAddress (setLastCommitHeight x val) (BondedValidators s)) s, Ok true).
Proof.
  intros Hi. unfold updateBonded, ValidatorSet_Update. simpl.
  destruct (GetByAddress (Validator_Address val) (BondedValidators s)) eqn:E; [done|].
  exfalso. apply (proj1 (GetByAddress_None _ _) E val); [|done].
  by apply list_elem_of_lookup_2 in Hi.
Qed.

(** The loop over the commits ends normally when every signed commit has a
    validator at its index, and otherwise panics at the first signed commit
    that has none, naming its index. *)
Lemma updateLastCommitHeights_outcome h commits (k : nat) s :
  snd (updateLastCommitHeights h commits k s) = Ok tt
  /\ (forall (i : nat) c, commits !! i = Some c -> Commit_IsZero c = false ->
        (k + i < length (BondedValidators s))%nat)
  \/ exists (i : nat) c,
       commits !! i = Some c /\ Commit_IsZero c = false
       /\ (length (BondedValidators s) <= k + i)%nat
       /\ (forall (j : nat) c', (j < i)%nat -> commits !! j = Some c' ->
             Commit_IsZero c' = false -> (k + j < length (BondedValidators s))%nat)
       /\ snd (updateLastCommitHeights h commits k s)
          = Panic ("Failed to fetch validator at index "
                   +:+ formatInt (Z.of_nat (k + i))).
Proof.
  revert k s. induction commits as [|c commits IH]; intros k s; simpl.
  - left. split; [done|]. intros i c H. by rewrite lookup_nil in H.
  - destruct (Commit_IsZero c) eqn:Ez.
    + destruct (IH (S k) s) as [[H1 H2]|(i & c' & Hc & Hz & Hl & Hmin & H1)].
      * left. split; [done|]. intros [|i] c'; simpl.
        -- intros [= <-]. congruence.
        -- intros Hc Hz. specialize (H2 i c' Hc Hz). lia.
      * right. exists (S i), c'. simpl. split; [done|]. split; [done|].
        split; [lia|]. split.
        -- intros [|j] c''; simpl.
           ++ intros _ [= <-]. congruence.
           ++ intros Hj Hc' Hz'. specialize (Hmin j c'' ltac:(lia) Hc' Hz'). lia.
        -- rewrite H1. by replace (S k + i)%nat with (k + S i)%nat by lia.
    + msimpl. unfold GetByIndex.
      destruct (BondedValidators s !! k) as [val|] eqn:Ek; msimpl.
      * rewrite (updateBonded_at_index k val _ s Ek).
        set (s1 := setBondedValidators _ s).
        assert (Hlen : length (BondedValidators s1) = length (BondedValidators s)).
        { subst s1. simpl. unfold replaceByAddress. by rewrite length_map. }
        destruct (IH (S k) s1) as [[H1 H2]|(i & c' & Hc & Hz & Hl & Hmin & H1)].
        -- left. split; [done|]. intros [|i] c'; simpl.
           ++ intros _ _. apply lookup_lt_Some in Ek. lia.
           ++ intros Hc Hz. specialize (H2 i c' Hc Hz). lia.
        -- right. exists (S i), c'. simpl. split; [done|]. split; [done|].
           split; [lia|]. split.
           ++ intros [|j] c''; simpl.
              ** intros _ _ _. apply lookup_lt_Some in Ek. lia.
              ** intros Hj Hc' Hz'. specialize (Hmin j c'' ltac:(lia) Hc' Hz'). lia.
           ++ rewrite H1. by replace (S k + i)%nat with (k + S i)%nat by lia.
      * right. exists 0%nat, c. simpl. split; [done|]. split; [done|].
        split; [apply lookup_ge_None in Ek; lia|]. split; [lia|].
        by rewrite Nat.add_0_r.
Qed.

Lemma forEach_unbond_bonded l s s' :
  forEach unbondValidator l s = (s', Ok tt) ->
  forall v, v ∈ BondedValidators s' ->
    v ∈ BondedValidators s /\ Validator_Address v ∉ map Validator_Address l.
Proof.
  revert s. induction l as [|w l IH]; intros s.
  - intros [= <-] v Hv. split; [done|]. apply not_elem_of_nil.
  - rewrite forEach_cons.
    destruct (unbondValidator w s) as [s1 [[]|e|msg]] eqn:E; try done.
    destruct (unbondValidator_Ok w s s1 E) as (v0 & Hv0 & Hu & ->).
    intros H v Hv. destruct (IH _ H v Hv) as [Hin Hnin]. simpl in Hin.
    unfold removeByAddress in Hin. apply list_elem_of_filter in Hin as [Hne Hin].
    split; [done|]. simpl. by apply not_elem_of_cons.
Qed.

Section AfterTxs.
Context (P : Primitives).

(** X21. The commits are validated against the bonded set before the
    transactions and applied to the bonded set after them: when the
    transactions of a valid block leave fewer bonded validators than the
    index of one of its signed commits, [AppendBlock] panics with
    "Failed to fetch validator at index j", where [j] is the index of the
    first signed commit that has no validator left (so [j] is at most the
    given index). *)
Theorem AppendBlock_panics_when_a_signer_left b blockPartsHeader checkStateHash
  s s1 txs (i : nat) c :
  Block_ValidateBasic P b (LastBlockHeight s) (LastBlockHash s) (LastBlockParts s)
    (LastBlockTime s) = None ->
  validateValidation P b s = Ok tt ->
  execTxs P (Block_Txs b) s = (s1, txs, Ok tt) ->
  Block_Commits b !! i = Some c ->
  Commit_IsZero c = false ->
  (length (BondedValidators s1) <= i)%nat ->
  exists (j : nat) c',
    (length (BondedValidators s1) <= j <= i)%nat
    /\ Block_Commits b !! j = Some c' /\ Commit_IsZero c' = false
    /\ (forall (k : nat) c'', (k < j)%nat -> Block_Commits b !! k = Some c'' ->
          Commit_IsZero c'' = false -> (k < length (BondedValidators s1))%nat)
    /\ snd (AppendBlock P b blockPartsHeader checkStateHash s)
       = Panic ("Failed to fetch validator at index " +:+ formatInt (Z.of_nat j)).
Proof.
  intros Hb Hv He Hc Hz Hl. unfold AppendBlock. rewrite Hb, Hv, He.
  unfold afterTxs. msimpl.
  destruct (updateLastCommitHeights_outcome (Block_Height b) (Block_Commits b) 0 s1)
    as [[H1 H2]|(j & c' & Hc' & Hz' & Hl' & Hmin & H1)].
  - specialize (H2 i c Hc Hz). lia.
  - exists j, c'. simpl in *. split.
    { split; [done|]. destruct (decide (j <= i)%nat) as [|Hn]; [done|].
      specialize (Hmin i c ltac:(lia) Hc Hz). lia. }
    split; [done|]. split; [done|]. split; [exact Hmin|].
    destruct (updateLastCommitHeights _ _ _ s1) as [s2 r]. simpl in H1. by subst r.
Qed.

(** X22. After a successful [AppendBlock] no bonded validator is left
    whose last commit height plus [validatorTimeoutBlocks] (in 64 bits) is
    below the height of the block: all of them have been unbonded. *)
Theorem AppendBlock_unbonds_every_timed_out_validator b blockPartsHeader checkStateHash
  s s' b' :
  AppendBlock P b blockPartsHeader checkStateHash s = (s', b', Ok tt) ->
  Forall (fun v =>
            (add64 (Validator_LastCommitHeight v) validatorTimeoutBlocks <? Block_Height b)
            = false)
    (BondedValidators s').
Proof.
  intros H. apply AppendBlock_Ok_inv in H as (s1 & txs & s2 & _ & _ & _ & E2 & E3).
  apply bindStateHash_validators in E3 as (-> & _).
  apply afterTxs_Ok in E2 as (t1 & t2 & t3 & _ & _ & Hu & ->). simpl in *.
  apply (Forall_fmap Validator_LastCommitHeight
           (fun x => (add64 x validatorTimeoutBlocks <? Block_Height b) = false)).
  rewrite accumTick_map by done. apply Forall_fmap, Forall_forall.
  intros v Hv. simpl.
  destruct (forEach_unbond_bonded _ _ _ Hu v Hv) as [Hin Hnin].
  destruct (add64 _ _ <? _) eqn:Et; [|done].
  destruct Hnin. apply list_elem_of_fmap. exists v. split; [done|].
  unfold toTimeout. apply list_elem_of_filter. split; [|done]. by rewrite Et.
Qed.

End AfterTxs.

(** Block 12 of the scenario of C8, with its bond, keeps every record under
    its own address. *)
Lemma stored_under_own_address_witness :
  let s' := fst (fst (AppendBlock Scenario.primitives Scenario.shiftBlock
                        Scenario.noParts false Scenario.shiftState)) in
  accountsWf s' /\ infosWf s'.
Proof.
  refine (proj2 (stored_under_own_address Scenario.primitives Scenario.shiftState _ _)
            Scenario.shiftBlock Scenario.noParts false).
  - apply (bool_decide_unpack _). vm_compute. exact I.
  - apply (bool_decide_unpack _). vm_compute. exact I.
Defined.

(** The same block: the bonded validator [x01] has its record, and the
    validator [x03] that it times out is in one set only. *)
Lemma validators_have_records_and_one_set_witness :
  let s' := fst (fst (AppendBlock Scenario.primitives Scenario.shiftBlock
                        Scenario.noParts false Scenario.shiftState)) in
  haveInfos s' /\ disjointSets s'.
Proof.
  refine (proj2 (validators_have_records_and_one_set Scenario.primitives
                   Scenario.shiftState _ _)
            Scenario.shiftBlock Scenario.noParts false).
  - apply (bool_decide_unpack _). vm_compute. exact I.
  - apply (bool_decide_unpack _). vm_compute. exact I.
Defined.

(** The dupeout of scenario F does not panic. *)
Lemma ExecTx_panics_only_on_unknown_accused_witness :
  isPanic (snd (ExecTx Scenario.primitives
                  (DupeoutTx (Scenario.addr x01) Scenario.precommitA Scenario.precommitB)
                  (Scenario.twoValidators 5))) = false.
Proof.
  apply (ExecTx_panics_only_on_unknown_accused Scenario.primitives
           (DupeoutTx (Scenario.addr x01) Scenario.precommitA Scenario.precommitB)
           (Scenario.twoValidators 5)).
  - apply (bool_decide_unpack _). vm_compute. exact I.
  - apply (bool_decide_unpack _). vm_compute. exact I.
  - vm_compute. by eexists.
Defined.

(** Block 2, signed by both validators, on the state at height 1. *)
Lemma AppendBlock_moves_block_tail_witness :
  let r := AppendBlock Scenario.primitives (Scenario.signedBlock []) Scenario.noParts
             false (Scenario.twoValidators 1) in
  LastBlockHeight (fst (fst r)) = 2
  /\ LastBlockHash (fst (fst r)) = Block_Hash Scenario.primitives (snd (fst r))
  /\ LastBlockTime (fst (fst r)) = 1.
Proof.
  intros r.
  destruct (AppendBlock_moves_block_tail Scenario.primitives (Scenario.signedBlock [])
              Scenario.noParts false (Scenario.twoValidators 1) (fst (fst r)) (snd (fst r)))
    as (H1 & H2 & _ & H4 & _).
  - vm_compute. reflexivity.
  - by rewrite H1, H2, H4.
Defined.

Lemma AppendBlock_binds_state_hash_witness :
  let r := AppendBlock Scenario.primitives (Scenario.signedBlock []) Scenario.noParts
             false (Scenario.twoValidators 1) in
  Block_StateHash (snd (fst r)) = Some (Hash Scenario.primitives (fst (fst r))).
Proof.
  intros r.
  destruct (AppendBlock_binds_state_hash Scenario.primitives (Scenario.signedBlock [])
              Scenario.noParts false (Scenario.twoValidators 1) (fst (fst r)) (snd (fst r)))
    as (_ & _ & H).
  - vm_compute. reflexivity.
  - exact H.
Defined.

(** Block 2 without any signature is rejected, and the state is the one
    before. *)
Lemma AppendBlock_needs_a_signature_witness :
  exists e, AppendBlock Scenario.primitives Scenario.unsignedBlock Scenario.noParts false
              (Scenario.twoValidators 1)
            = (Scenario.twoValidators 1, Scenario.unsignedBlock, Err e).
Proof.
  apply (AppendBlock_needs_a_signature Scenario.primitives Scenario.unsignedBlock
           Scenario.noParts false (Scenario.twoValidators 1)).
  - vm_compute. discriminate.
  - apply Forall_forall. repeat constructor.
Defined.

(** Block 2 carries the commits of both validators and the unbonding of the
    second one: after the transaction the bonded set has one validator, and
    the commit at index 1 has no validator to go to. *)
Lemma AppendBlock_panics_when_a_signer_left_witness :
  snd (AppendBlock Scenario.primitives (Scenario.signedBlock [Scenario.unbondTx])
         Scenario.noParts false (Scenario.twoValidators 1))
  = Panic "Failed to fetch validator at index 1".
Proof.
  destruct (AppendBlock_panics_when_a_signer_left Scenario.primitives
           (Scenario.signedBlock [Scenario.unbondTx]) Scenario.noParts false
           (Scenario.twoValidators 1)
           (fst (fst (execTxs Scenario.primitives [Scenario.unbondTx]
                        (Scenario.twoValidators 1))))
           [Scenario.unbondTx] 1%nat (Scenario.commit x02))
    as (j & c' & [Hl Hu] & _ & _ & _ & ->).
  - vm_compute. reflexivity.
  - vm_compute. reflexivity.
  - vm_compute. reflexivity.
  - reflexivity.
  - reflexivity.
  - vm_compute. lia.
  - vm_compute in Hl. assert (j = 1%nat) as -> by lia. reflexivity.
Defined.

(** Block 12 of the scenario of C8 unbonds validator [x03]: the validators
    left in the bonded set are within their time. *)
Lemma AppendBlock_unbonds_every_timed_out_validator_witness :
  Forall (fun v => (add64 (Validator_LastCommitHeight v) validatorTimeoutBlocks <? 12)
                   = false)
    (BondedValidators
       (fst (fst (AppendBlock Scenario.primitives Scenario.shiftBlock Scenario.noParts
                    false Scenario.shiftState)))).
Proof.
  apply (AppendBlock_unbonds_every_timed_out_validator Scenario.primitives
           Scenario.shiftBlock Scenario.noParts false Scenario.shiftState _
           (snd (fst (AppendBlock Scenario.primitives Scenario.shiftBlock Scenario.noParts
                        false Scenario.shiftState)))).
  vm_compute. reflexivity.
Defined.

(** The commits of block 2 carry the whole voting power, 100, which is above
    two thirds of 100. *)
Lemma validateValidation_Ok_witness :
  mul64 (TotalVotingPower (BondedValidators (Scenario.twoValidators 1))) 2 / 3
  < wrap64 (signedPower (BondedValidators (Scenario.twoValidators 1))
              (Block_Commits (Scenario.signedBlock []))).
Proof.
  destruct (validateValidation_Ok Scenario.primitives (Scenario.signedBlock [])
              (Scenario.twoValidators 1)) as [[H _] _].
  - vm_compute. discriminate.
  - apply H. vm_compute. reflexivity.
Defined.

(** ** Reading the state record *)

Section Trailing.
Context (P : Primitives) (St : Storage).

(** X25. [LoadState] does not ask that the state record is read to its
    end: a record followed by any bytes is read as the record alone (for a
    codec and trees that keep their contract). *)
Theorem LoadState_ignores_trailing_bytes s db junk :
  StorageLaws P St -> State_wellTyped s ->
  Accounts_Stored St (accounts s) db ->
  ValidatorInfos_Stored St (validatorInfos s) db ->
  db !! stateKey = Some (stateRecord P St s ++ junk) ->
  LoadState St db = Ok (Some (setDB db s)).
Proof.
  intros L Hwt Ha Hi Hk. unfold LoadState. rewrite Hk. cbn [default]. cbv zeta.
  pose proof (stateRecord_nonempty P St s L (proj1 Hwt)) as Hne.
  assert (Hr : readState St db (stateRecord P St s ++ junk) = Some (setDB db s)).
  { destruct Hwt as (Hh & Hp & Ht & Hb & Hu & _ & _).
    unfold readState, stateRecord. rewrite <- !app_assoc.
    rewrite (uvarint_law P St L) by done. simpl.
    rewrite (byteSlice_law P St L). simpl.
    rewrite (partSetHeader_law P St L) by done. simpl.
    rewrite (time_law P St L) by done. simpl.
    rewrite (validatorSet_law P St L) by done. simpl.
    rewrite (validatorSet_law P St L) by done. simpl.
    rewrite (byteSlice_law P St L). simpl.
    rewrite (byteSlice_law P St L). simpl.
    rewrite (accounts_loaded P St L) by done.
    rewrite (validatorInfos_loaded P St L) by done.
    done. }
  destruct (stateRecord P St s ++ junk) as [|x buf] eqn:E.
  - by apply app_eq_nil in E as [E _].
  - cbv [id]. by rewrite Hr.
Qed.

End Trailing.

(** The record of [savedState] followed by three more bytes is read as
    [savedState]. *)
Lemma LoadState_ignores_trailing_bytes_witness :
  let saved := DB (Save Scenario.storagePrimitives Scenario.storage Scenario.savedState) in
  let db := <[stateKey := stateRecord Scenario.storagePrimitives Scenario.storage
                            Scenario.savedState ++ [x01; x02; x03]]> saved in
  LoadState Scenario.storage db = Ok (Some (setDB db Scenario.savedState)).
Proof.
  intros saved db.
  apply (LoadState_ignores_trailing_bytes Scenario.storagePrimitives Scenario.storage
           Scenario.savedState db [x01; x02; x03] storage_laws).
  - apply (bool_decide_unpack _). vm_compute. exact I.
  - apply (accounts_kept_by_set _ _ storage_laws).
    apply (accounts_kept_by_set _ _ storage_laws),
      (accounts_kept_by_save _ _ storage_laws), (accounts_saved _ _ storage_laws).
    apply (bool_decide_unpack _). vm_compute. exact I.
  - apply (validatorInfos_kept_by_set _ _ storage_laws).
    apply (validatorInfos_kept_by_set _ _ storage_laws),
      (validatorInfos_saved _ _ storage_laws).
    apply (bool_decide_unpack _). vm_compute. exact I.
  - apply lookup_insert_eq.
Defined.

(** * Alerts *)

Lemma String_length_upTo n s : String.length (upTo n s) = Nat.min n (String.length s).
Proof.
  unfold upTo. revert s. induction n as [|n IH]; intros [|c s]; simpl; try done.
  by rewrite IH.
Qed.

Lemma String_prefix_upTo n s : String.prefix (upTo n s) s = true.
Proof.
  unfold upTo. revert s. induction n as [|n IH]; intros [|c s]; simpl; try done.
  rewrite IH. by destruct (Ascii.ascii_dec c c).
Qed.

Lemma String_prefix_refl s : String.prefix s s = true.
Proof. induction s as [|c s IH]; simpl; [done|]. by destruct (Ascii.ascii_dec c c). Qed.

Lemma String_prefix_app s t : String.prefix s (s +:+ t) = true.
Proof. induction s as [|c s IH]; simpl; [by destruct t|]. by destruct (Ascii.ascii_dec c c). Qed.

Lemma sendTwilio_cut Config reply message :
  Forall (cutFrom message) (sendTwilio Config reply message).
Proof.
  unfold sendTwilio. constructor.
  - unfold cutFrom, len. destruct (50 <? _) eqn:E.
    + rewrite String_prefix_upTo, String_length_upTo. split; [done|]. lia.
    + rewrite String_prefix_refl. split; [done|]. lia.
  - destruct reply; by repeat constructor.
Qed.

Lemma sendEmail_cut Config reply message :
  Forall (cutFrom message) (sendEmail Config reply message).
Proof.
  unfold sendEmail. constructor.
  - unfold cutFrom, len. split; [done|]. destruct (80 <? _) eqn:E.
    + rewrite String_prefix_upTo, String_length_upTo. split; [done|]. lia.
    + rewrite String_prefix_refl. split; [done|]. lia.
  - destruct reply; by repeat constructor.
Qed.

Lemma alerts_lastAlertUnix Config calls vars :
  lastAlertUnix (fst (alerts Config calls vars)) = lastAlertUnix vars.
Proof.
  revert vars. induction calls as [|[now message] calls IH]; intros vars; simpl; [done|].
  destruct (Alert Config now message vars) as [[vars1 logged] started] eqn:E.
  specialize (IH vars1). destruct (alerts Config calls vars1) as [vars2 l]. simpl in *.
  rewrite IH. unfold Alert in E.
  destruct (_ <? _); [|by injection E as <- _ _].
  destruct (0 <? alertCountSince vars); by injection E as <- _ _.
Qed.

(** X26. [Alert] never writes to [lastAlertUnix]: whatever the calls, the
    variable keeps its value, so that the interval is measured from the
    start of the epoch and not from the last alert.  From the initial
    values, when the clock is past [Config.Alert.MinInterval] seconds every
    call dispatches its alert (none is held back or counted), and it
    dispatches the text [Config.Network:message]. *)
Theorem Alert_never_records_the_time Config calls :
  (forall vars, lastAlertUnix (fst (alerts Config calls vars)) = lastAlertUnix vars)
  /\ (Forall (fun call => isInt64 (fst call)
                          /\ wrapInt64 (Config_Alert_MinInterval Config) < fst call) calls ->
      alerts Config calls initialAlertVars
      = (initialAlertVars,
         map (fun call => dispatched Config (Config_Network Config +:+ ":" +:+ snd call))
           calls)).
Proof.
  split; [intros vars; apply alerts_lastAlertUnix|].
  induction calls as [|[now message] calls IH]; intros H; simpl; [done|].
  apply Forall_cons in H as [[Hnow Hlt] H]. simpl in *.
  unfold Alert. simpl. rewrite Z.sub_0_r.
  assert (wrapInt64 now = now) as ->.
  { unfold wrapInt64, isInt64 in *. rewrite Z.mod_small; lia. }
  rewrite (proj2 (Z.ltb_lt _ _) Hlt). simpl.
  fold initialAlertVars. rewrite (IH H). done.
Qed.

(** X27. Whatever [Alert] hands to Twilio and to the mail server is cut
    from one text that starts with [Config.Network:message]: the SMS is its
    first 50 bytes (all of it when it is shorter) and the mail carries it
    whole, with its first 80 bytes as the subject. *)
Theorem alert_requests_are_cut Config now message vars reply :
  exists text,
    String.prefix (Config_Network Config +:+ ":" +:+ message) text = true
    /\ Forall (fun g => Forall (cutFrom text) (runGoroutine Config reply g))
         (snd (Alert Config now message vars)).
Proof.
  assert (Hd : forall text,
            Forall (fun g => Forall (cutFrom text) (runGoroutine Config reply g))
              (dispatched Config text)).
  { intros text. unfold dispatched. apply Forall_app. split.
    - destruct (0 <? len _); [|constructor].
      constructor; [apply sendTwilio_cut|constructor].
    - destruct (0 <? Z.of_nat _); [|constructor].
      constructor; [apply sendEmail_cut|constructor]. }
  unfold Alert. destruct (_ <? _).
  - destruct (0 <? alertCountSince vars).
    + eexists. split; [|apply Hd].
      apply String_prefix_app.
    + eexists. split; [|apply Hd]. apply String_prefix_refl.
  - exists (Config_Network Config +:+ ":" +:+ message).
    split; [apply String_prefix_refl|constructor].
Qed.

(** Three alerts, one second apart, with a minimum interval of an hour:
    all three are dispatched. *)
Lemma Alert_never_records_the_time_witness :
  let Config := mkAlertConfig "testnet" 3600 "sid" "token" "+1" "+2" ["ops@example.org"] in
  let calls := [(1700000000, "a"); (1700000001, "b"); (1700000002, "c")] in
  alerts Config calls initialAlertVars
  = (initialAlertVars,
     [[go_sendTwilio "testnet:a"; go_sendEmail "testnet:a"];
      [go_sendTwilio "testnet:b"; go_sendEmail "testnet:b"];
      [go_sendTwilio "testnet:c"; go_sendEmail "testnet:c"]]).
Proof.
  intros Config calls.
  rewrite (proj2 (Alert_never_records_the_time Config calls)); [reflexivity|].
  repeat constructor; vm_compute; congruence.
Defined.
